(** * VINA-Face: selector, matcher, session loop, store and speech gate

    A shallow embedding of the Python sources ([utils/face_utils.py],
    [utils/zoom_utils.py], [utils/tts.py], [main.py], [face_enroll.py],
    [enroll_from_image.py]) and the properties of the specification proved
    about it.

    Conventions of the embedding:
    - Python [float]s (similarities, clock readings, squared distances) are
      exact rationals [Q]; only their order and the arithmetic the code
      writes down are used, and rounding and NaN are left out.
    - Python [int]s are [Z]; array shapes are [N].
    - A [str] is a [string], read as a sequence of code points below 256.
    - A value that may be [None] is an [option].
    - A [dict] used as a map is a [gmap], a [set] a [gset]; a pickled [dict]
      is an association list in insertion order.
    - Exceptions are explicit: fallible code returns a [result].
    - External collaborators (the detector, the camera, the clock, the
      keyboard, [cv2.resize], [numpy.array], the [say] subprocess, the file
      system) are inputs of the functions that consult them.

    Part I holds the definitions, Part II the lemmas and theorems. *)

From Stdlib Require Import QArith Qminmax Lqa ZArith Lia Ascii.
From stdpp Require Import gmap strings list.

(** * Part I: the embedding *)

(** ** Python values and control *)

(** [x > y], [x < y] and [x >= y] on floats. *)
Definition Qgtb (x y : Q) : bool := negb (Qle_bool x y).
Definition Qltb (x y : Q) : bool := negb (Qle_bool y x).
Definition Qgeb (x y : Q) : bool := Qle_bool y x.

(** [int(x)] and [ndarray.astype(int)] truncate toward zero. *)
Definition py_int (x : Q) : Z := Z.quot (Qnum x) (Zpos (Qden x)).

(** A float that may be [float('inf')]: [None] stands for infinity. *)
Definition lt_inf (x : Q) (bound : option Q) : bool :=
  match bound with
  | None => true
  | Some b => Qltb x b
  end.

(** Truthiness of a name that may be [None]: [None] and [''] are falsy. *)
Definition truthy (s : option string) : bool :=
  match s with
  | None => false
  | Some n => bool_decide (n ≠ "")
  end.

(** The exception classes that occur, all subclasses of [Exception]. *)
Inductive exn :=
| ValueError | TypeError | OSError | FileNotFoundError | EOFError
| UnpicklingError | PicklingError | cv2_error.

(** A computation that returns or raises. *)
Inductive result (A : Type) :=
| Ret (a : A)
| Raise (e : exn).
Arguments Ret {A} a.
Arguments Raise {A} e.

#[global] Instance result_ret : MRet result := λ A a, Ret a.
#[global] Instance result_bind : MBind result := λ A B f m,
  match m with
  | Ret a => f a
  | Raise e => Raise e
  end.

(** What [input()] gives: a line, [KeyboardInterrupt], or [EOFError]. *)
Inductive input_result :=
| Typed (line : string)
| Interrupted
| EndOfInput.

(** How a pass of a [while True] loop ends. [Propagated] and [Interrupt]
    stand for an exception that leaves the loop uncaught. *)
Inductive control :=
| Continue
| Break
| Propagated (e : exn)
| Interrupt.

(** [str.isspace] on a code point below 256. *)
Definition is_space (c : ascii) : bool :=
  let n := nat_of_ascii c in
  ((9 <=? n) && (n <=? 13) || (28 <=? n) && (n <=? 32) || (n =? 133) || (n =? 160))%nat.

Fixpoint lstrip (s : list ascii) : list ascii :=
  match s with
  | c :: rest => if is_space c then lstrip rest else s
  | [] => []
  end.

(** [str.strip()] *)
Definition py_strip (s : string) : string :=
  String.string_of_list_ascii
    (rev (lstrip (rev (lstrip (String.list_ascii_of_string s))))).

Definition lower_ascii (c : ascii) : ascii :=
  let n := nat_of_ascii c in
  if ((65 <=? n) && (n <=? 90))%nat then ascii_of_nat (n + 32) else c.

(** [str.lower()] on the letters A to Z; the comparisons of the sources are
    with ['cancel'] and ['y'], which no other code point lowers to. *)
Definition py_lower (s : string) : string :=
  String.string_of_list_ascii (lower_ascii <$> String.list_ascii_of_string s).

(** ** Reading a list by position (specification side) *)

(** [x] sits at position [i] of [l], its key is minimal in [l], and every
    earlier element has a strictly larger key. *)
Definition first_argmin {A} (key : A → Q) (l : list A) (i : nat) (x : A) : Prop :=
  l !! i = Some x ∧
  (∀ j y, l !! j = Some y → (key x <= key y)%Q) ∧
  (∀ j y, l !! j = Some y → (j < i)%nat → (key x < key y)%Q).

(** The same for the maximum. *)
Definition first_argmax {A} (key : A → Q) (l : list A) (i : nat) (x : A) : Prop :=
  l !! i = Some x ∧
  (∀ j y, l !! j = Some y → (key y <= key x)%Q) ∧
  (∀ j y, l !! j = Some y → (j < i)%nat → (key y < key x)%Q).

(** ** numpy and OpenCV *)

(** An image array: its shape ([channels] is [None] for a 2-D array) and its
    samples by row, column and channel. *)
Record ndimage := {
  height : N;
  width : N;
  channels : option N;
  sample : Z → Z → Z → Z
}.

(** [arr.size] *)
Definition arr_size (img : ndimage) : N :=
  (height img * width img * default 1 (channels img))%N.

(** [np.zeros((h, w, c))]: [ValueError] on a negative dimension. *)
Definition np_zeros (h w c : Z) : result ndimage :=
  if ((h <? 0) || (w <? 0) || (c <? 0))%Z then Raise ValueError
  else Ret {| height := Z.to_N h; width := Z.to_N w; channels := Some (Z.to_N c);
              sample := λ _ _ _, 0%Z |}.

(** The bounds [start:stop] selects on an axis of length [n]: a negative
    index counts from the end, and both ends are clipped to the axis. *)
Definition slice_bound (n i : Z) : Z :=
  (if i <? 0 then Z.max (i + n) 0 else Z.min i n)%Z.

(** [frame[y1:y2, x1:x2]] *)
Definition np_crop (frame : ndimage) (y1 y2 x1 x2 : Z) : ndimage :=
  let r0 := slice_bound (Z.of_N (height frame)) y1 in
  let r1 := slice_bound (Z.of_N (height frame)) y2 in
  let c0 := slice_bound (Z.of_N (width frame)) x1 in
  let c1 := slice_bound (Z.of_N (width frame)) x2 in
  {| height := Z.to_N (r1 - r0); width := Z.to_N (c1 - c0);
     channels := channels frame;
     sample := λ r c k, sample frame (r0 + r)%Z (c0 + c)%Z k |}.

(** [cv2.resize(src, dsize, interpolation=cv2.INTER_LINEAR)], with [dsize]
    as (width, height); [None] stands for [cv2.error]. *)
Class Cv2 := { cv2_resize : ndimage → Z * Z → option ndimage }.

(** OpenCV's contract for [resize]: the output has the requested size. *)
Definition resize_contract `{Cv2} : Prop :=
  ∀ src dsize out, cv2_resize src dsize = Some out →
    Z.of_N (width out) = dsize.1 ∧ Z.of_N (height out) = dsize.2.

(** The values a pickle of the store can hold. The keys of a [dict] are the
    strings; [PyArray] is a 1-D [numpy.ndarray]. *)
#[warnings="-register-all"]
Inductive pyval :=
| PyNum (x : Q)
| PyStr (s : string)
| PyArray (a : list Q)
| PyList (l : list pyval)
| PyDict (d : list (string * pyval)).

(** [key in d] and [d[key]] on a pickled dict. *)
Fixpoint dict_get (d : list (string * pyval)) (key : string) : option pyval :=
  match d with
  | [] => None
  | (k, v) :: rest => if bool_decide (k = key) then Some v else dict_get rest key
  end.

(** [np.array(obj, dtype=np.float32)], which raises on what it cannot
    convert. *)
Class Numpy := { np_array_f32 : pyval → result (list Q) }.

(** ** utils/face_utils.py *)

Module face_utils.

(** An InsightFace [Face]: the attributes the repository reads.  [bbox] is
    the detector's float box (x1, y1, x2, y2); [normed_embedding] is absent
    when no embedding could be extracted. *)
Record Face := {
  bbox : Q * Q * Q * Q;
  normed_embedding : option (list Q)
}.

(** A record of the store: [{'name': ..., 'embedding': ...}]. *)
Record known_face := {
  name : string;
  embedding : list Q
}.

(** [bbox.astype(int)] *)
Definition astype_int (b : Q * Q * Q * Q) : Z * Z * Z * Z :=
  let '(x1, y1, x2, y2) := b in (py_int x1, py_int y1, py_int x2, py_int y2).

(** The body of the [for] loop of [get_center_most_face] up to [dist_sq]. *)
Definition dist_sq (frame_width frame_height : Z) (face_obj : Face) : Q :=
  let frame_center_x := (inject_Z frame_width / 2)%Q in
  let frame_center_y := (inject_Z frame_height / 2)%Q in
  let '(x1, y1, x2, y2) := astype_int (bbox face_obj) in
  let face_center_x := (inject_Z (x1 + x2) / 2)%Q in
  let face_center_y := (inject_Z (y1 + y2) / 2)%Q in
  ((face_center_x - frame_center_x) ^ 2 + (face_center_y - frame_center_y) ^ 2)%Q.

(** The [for] loop, threading [closest_face_obj] and [min_dist_sq]. *)
Fixpoint center_most_loop (frame_width frame_height : Z) (faces : list Face)
    (closest_face_obj : option Face) (min_dist_sq : option Q) : option Face :=
  match faces with
  | [] => closest_face_obj
  | face_obj :: rest =>
      let d := dist_sq frame_width frame_height face_obj in
      if lt_inf d min_dist_sq
      then center_most_loop frame_width frame_height rest (Some face_obj) (Some d)
      else center_most_loop frame_width frame_height rest closest_face_obj min_dist_sq
  end.

Definition get_center_most_face (faces : list Face) (frame_width frame_height : Z)
    : option Face :=
  match faces with
  | [] => None
  | _ => center_most_loop frame_width frame_height faces None None
  end.

(** [np.dot] of two 1-D arrays: [ValueError] when the shapes differ. *)
Fixpoint np_dot (a b : list Q) : result Q :=
  match a, b with
  | [], [] => Ret 0%Q
  | x :: a', y :: b' => s ← np_dot a' b'; Ret (x * y + s)%Q
  | _, _ => Raise ValueError
  end.

Definition compare_embeddings (emb1 emb2 : list Q) : result Q := np_dot emb1 emb2.

(** *** The persisted store *)

(** The file at [db_path], as [open] and [pickle.load] find it. *)
Inductive db_file :=
| Missing                 (* no such file: [FileNotFoundError] *)
| Unreadable              (* [open] or [read] fails: [OSError] *)
| Partial                 (* a pickle stream cut short, possibly empty: [EOFError] *)
| Damaged (e : exn)       (* [pickle.load] raises [e] *)
| Pickled (data : pyval). (* a complete pickle of [data] *)

(** [with open(db_path, 'rb') as f: data = pickle.load(f)] *)
Definition open_rb_and_load (file : db_file) : result pyval :=
  match file with
  | Missing => Raise FileNotFoundError
  | Unreadable => Raise OSError
  | Partial => Raise EOFError
  | Damaged e => Raise e
  | Pickled data => Ret data
  end.

(** What [load_known_faces] and [save_known_faces] print. *)
Inductive printed :=
| Skipping_non_string_name   (* "Warning: Skipping item with non-string name" *)
| Skipping_malformed_item    (* "Warning: Skipping malformed item in database" *)
| Loaded (n : nat)           (* "Loaded n known faces." *)
| Not_a_list                 (* "Warning: Database file is not a list. ..." *)
| Could_not_load (e : exn)   (* "Could not load known faces ... Starting with an empty database." *)
| Unexpected_error (e : exn) (* "An unexpected error occurred while loading known faces" *)
| Saved (n : nat)            (* "Known faces database saved ... with n entries." *)
| Error_saving (e : exn).    (* "Error saving known faces database" *)

Section Load.
Context `{Numpy}.

(** The [for item in data] loop of [load_known_faces], threading
    [valid_data] and what was printed so far. *)
Fixpoint validate (data : list pyval) (valid_data : list known_face)
    (out : list printed) : list printed * result (list known_face) :=
  match data with
  | [] => (out, Ret valid_data)
  | item :: rest =>
      match item with
      | PyDict d =>
          match dict_get d "name", dict_get d "embedding" with
          | Some n, Some e =>
              match np_array_f32 e with
              | Raise err => (out, Raise err)
              | Ret emb =>
                  match n with
                  | PyStr s =>
                      validate rest (valid_data ++ [{| name := s; embedding := emb |}]) out
                  | _ => validate rest valid_data (out ++ [Skipping_non_string_name])
                  end
              end
          | _, _ => validate rest valid_data (out ++ [Skipping_malformed_item])
          end
      | _ => validate rest valid_data (out ++ [Skipping_malformed_item])
      end
  end.

(** The body of the [try] block. *)
Definition load_body (file : db_file) : list printed * result (list known_face) :=
  match open_rb_and_load file with
  | Raise e => ([], Raise e)
  | Ret (PyList data) =>
      match validate data [] [] with
      | (out, Ret valid_data) => (out ++ [Loaded (length valid_data)], Ret valid_data)
      | (out, Raise e) => (out, Raise e)
      end
  | Ret _ => ([Not_a_list], Ret [])
  end.

(** The two [except] clauses: the first names three classes, the second
    catches every other [Exception]; both return the empty list. *)
Definition load_known_faces (file : db_file) : list printed * result (list known_face) :=
  match load_body file with
  | (out, Ret valid_data) => (out, Ret valid_data)
  | (out, Raise e) =>
      match e with
      | FileNotFoundError | EOFError | UnpicklingError => (out ++ [Could_not_load e], Ret [])
      | _ => (out ++ [Unexpected_error e], Ret [])
      end
  end.
End Load.

(** The pickle of a store: each record a dict with its two keys. *)
Definition pickle_of (data : list known_face) : pyval :=
  PyList ((λ f, PyDict [("name", PyStr (name f)); ("embedding", PyArray (embedding f))]) <$> data).

(** What can go wrong while [save_known_faces] writes. *)
Inductive write_fault :=
| NoFault
| OpenFails (e : exn)   (* [open(db_path, 'wb')] raises: the file is untouched *)
| DumpFails (e : exn).  (* [pickle.dump] raises after [open] has truncated the file *)

(** The body of the [try] block of [save_known_faces]: [open] in mode
    ['wb'] empties the file before [pickle.dump] writes to it. *)
Definition save_body (data : list known_face) (file : db_file)
    (fault : write_fault) : db_file * result () :=
  match fault with
  | OpenFails e => (file, Raise e)
  | DumpFails e => (Partial, Raise e)
  | NoFault => (Pickled (pickle_of data), Ret ())
  end.

(** [save_known_faces]: the file afterwards, what was printed, and how the
    call ends.  [except Exception] prints the error; the function returns
    [None] on every path. *)
Definition save_known_faces (data : list known_face) (file : db_file)
    (fault : write_fault) : db_file * list printed * result () :=
  match save_body data file fault with
  | (file', Ret _) => (file', [Saved (length data)], Ret ())
  | (file', Raise e) => (file', [Error_saving e], Ret ())
  end.

End face_utils.

(** ** utils/zoom_utils.py *)

Module zoom_utils.

Section Zoom.
Context `{Cv2}.

(** The black fallback image of [target_display_size] (width, height). *)
Definition black (frame : ndimage) (target_display_size : Z * Z) : result (option ndimage) :=
  img ← np_zeros target_display_size.2 target_display_size.1
                 (match channels frame with Some c => Z.of_N c | None => 1%Z end);
  Ret (Some img).

(** The padded crop of the frame around a box of positive width and
    height: the variable [cropped_region]. *)
Definition cropped_region (frame : ndimage) (bbox : Z * Z * Z * Z)
    (padding_factor : Q) : ndimage :=
  let '(x1, y1, x2, y2) := bbox in
  let fh := Z.of_N (height frame) in
  let fw := Z.of_N (width frame) in
  let bb_w := (x2 - x1)%Z in
  let bb_h := (y2 - y1)%Z in
  let pad_w := py_int (inject_Z bb_w * padding_factor) in
  let pad_h := py_int (inject_Z bb_h * padding_factor) in
  let crop_x1 := Z.max 0 (x1 - pad_w) in
  let crop_y1 := Z.max 0 (y1 - pad_h) in
  let crop_x2 := Z.min fw (x2 + pad_w) in
  let crop_y2 := Z.min fh (y2 + pad_h) in
  np_crop frame crop_y1 crop_y2 crop_x1 crop_x2.

Definition get_zoomed_region (frame : option ndimage) (bbox : option (Z * Z * Z * Z))
    (target_display_size : Z * Z) (padding_factor : Q) : result (option ndimage) :=
  match frame, bbox with
  | Some frame, Some (x1, y1, x2, y2) =>
      let bb_w := (x2 - x1)%Z in
      let bb_h := (y2 - y1)%Z in
      if ((bb_w <=? 0) || (bb_h <=? 0))%Z then Ret None
      else
        let cropped := cropped_region frame (x1, y1, x2, y2) padding_factor in
        if (arr_size cropped =? 0)%N then black frame target_display_size
        else
          match cv2_resize cropped target_display_size with
          | Some zoomed_image => Ret (Some zoomed_image)
          | None => black frame target_display_size
          end
  | _, _ => Ret None
  end.
End Zoom.

(** The default of the keyword argument [padding_factor]. *)
Definition padding_factor_default : Q := 3 # 10.

End zoom_utils.

(** ** utils/tts.py *)

Module tts.

Definition TTS_MIN_INTERVAL : Q := 1 # 2.

(** How [subprocess.run(['say', text], check=True)] ends. *)
Inductive say_result :=
| SayOk
| SayNotFound            (* [FileNotFoundError] *)
| SayCalledProcessError
| SayOtherError.

(** One call of [speak]: when it is made, and how the [say] it may start
    ends and how long that takes. *)
Record request := {
  called_at : Q;
  text : string;
  say_outcome : say_result;
  say_duration : Q
}.

(** The module's shared state: [last_tts_call_time], and the time at which
    [tts_lock] is next free. *)
Record gate := {
  last_tts_call_time : Q;
  lock_free_at : Q
}.

Definition initial : gate := {| last_tts_call_time := 0; lock_free_at := 0 |}.

(** What became of a request. *)
Inductive verdict :=
| Dropped                 (* the early [return]: no [say] is started *)
| Invoked (start : Q)     (* [say] started at [start] and succeeded *)
| Failed (start : Q).     (* [say] started at [start] and raised *)

(** [_speak_task], run by the thread [speak] starts: it waits for
    [tts_lock], reads the clock, and holds the lock until [say] is over. *)
Definition _speak_task (rq : request) (g : gate) : verdict * gate :=
  let current_time := Qmax (called_at rq) (lock_free_at g) in
  if Qltb (current_time - last_tts_call_time g) TTS_MIN_INTERVAL
  then (Dropped, {| last_tts_call_time := last_tts_call_time g;
                    lock_free_at := current_time |})
  else
    let done_at := (current_time + say_duration rq)%Q in
    match say_outcome rq with
    | SayOk => (Invoked current_time,
                {| last_tts_call_time := done_at; lock_free_at := done_at |})
    | _ => (Failed current_time,
            {| last_tts_call_time := last_tts_call_time g; lock_free_at := done_at |})
    end.

(** A sequence of [speak] calls, in the order their threads take the lock. *)
Fixpoint speak_all (rqs : list request) (g : gate) : list verdict * gate :=
  match rqs with
  | [] => ([], g)
  | rq :: rest =>
      let '(v, g') := _speak_task rq g in
      let '(vs, g'') := speak_all rest g' in
      (v :: vs, g'')
  end.

End tts.

(** ** main.py *)

Module main.
Import face_utils.

Definition SIMILARITY_THRESHOLD : Q := 1 # 2.
Definition ZOOM_DURATION_SECONDS : Q := 17 # 10.
Definition GREETING_COOLDOWN_SECONDS : Q := 5.
Definition DETECTION_INTERVAL_SECONDS : Q := 1 # 10.

(** *** process_frame *)

(** The [for known_face in known_faces_db] loop, threading
    [best_match_name] and [max_similarity]; [calls] counts the calls of
    [compare_embeddings]. *)
Fixpoint match_loop (current_embedding : list Q) (known_faces_db : list known_face)
    (best_match_name : option string) (max_similarity : Q) (calls : nat)
    : result (option string * Q * nat) :=
  match known_faces_db with
  | [] => Ret (best_match_name, max_similarity, calls)
  | known_face :: rest =>
      similarity ← compare_embeddings current_embedding (embedding known_face);
      if Qgtb similarity SIMILARITY_THRESHOLD && Qgtb similarity max_similarity
      then match_loop current_embedding rest (Some (name known_face)) similarity (S calls)
      else match_loop current_embedding rest best_match_name max_similarity (S calls)
  end.

(** The matcher, from [if not known_faces_db] to the end of
    [process_frame]: the name it returns and the number of comparisons it
    made. *)
Definition best_match (current_embedding : list Q) (known_faces_db : list known_face)
    : result (string * nat) :=
  match known_faces_db with
  | [] => Ret ("Unknown", 0%nat)
  | _ =>
      '(best_match_name, _, calls) ← match_loop current_embedding known_faces_db None (-1)%Q 0;
      if truthy best_match_name
      then Ret (default "Unknown" best_match_name, calls)
      else Ret ("Unknown", calls)
  end.

(** [process_frame], given what the detector finds in the frame. *)
Definition process_frame (detected_faces : list Face) (known_faces_db : list known_face)
    (frame_width frame_height : Z) : result (option string * option (Z * Z * Z * Z)) :=
  match detected_faces with
  | [] => Ret (None, None)
  | _ =>
      match get_center_most_face detected_faces frame_width frame_height with
      | None => Ret (None, None)
      | Some target_face_obj =>
          let face_bbox := astype_int (bbox target_face_obj) in
          match normed_embedding target_face_obj with
          | None => Ret (Some "Unknown", Some face_bbox)
          | Some current_embedding =>
              '(recognized, _) ← best_match current_embedding known_faces_db;
              Ret (Some recognized, Some face_bbox)
          end
      end
  end.

(** *** main_loop *)

(** The variables [main_loop] carries from one pass of [while True] to the
    next, with the two module globals it mutates. *)
Record state := {
  zoom_active : bool;
  zoom_return_time : Q;
  name_to_greet_after_zoom : option string;
  last_detection_run_time : Q;
  current_processing_bbox_for_zoom : option (Z * Z * Z * Z);
  last_greeted_time : gmap string Q;
  USE_LOW_LIGHT_ENHANCEMENT : bool
}.

Definition initial : state := {|
  zoom_active := false;
  zoom_return_time := 0;
  name_to_greet_after_zoom := None;
  last_detection_run_time := 0;
  current_processing_bbox_for_zoom := None;
  last_greeted_time := ∅;
  USE_LOW_LIGHT_ENHANCEMENT := true
|}.

(** What one pass reads from its surroundings: the camera, the clock, the
    detector (on the enhanced or on the plain frame) and the keyboard. *)
Record reading := {
  cap_read : option ndimage;
  time_time : Q;
  model_get : bool → list Face;
  waitKey : Z
}.

(** What a pass does to its surroundings. *)
Inductive event :=
| Speak (text : string)
| Imshow (display_frame : ndimage).

Definition greeting_text (n : string) : string :=
  "Your friend " +:+ n +:+ " is in front of you.".

Section Loop.
Context `{Cv2}.

(** The block under [# --- Zoom Logic ---]. *)
Definition zoom_logic (frame : ndimage) (current_time : Q) (st : state)
    (display_frame : ndimage) : result (state * ndimage * list event) :=
  let frame_width := Z.of_N (width frame) in
  let frame_height := Z.of_N (height frame) in
  if zoom_active st then
    if Qgeb current_time (zoom_return_time st) then
      let greet :=
        truthy (name_to_greet_after_zoom st) &&
        bool_decide (name_to_greet_after_zoom st ≠ Some "Unknown") in
      let n := default "" (name_to_greet_after_zoom st) in
      Ret ({| zoom_active := false;
              zoom_return_time := zoom_return_time st;
              name_to_greet_after_zoom := None;
              last_detection_run_time := last_detection_run_time st;
              current_processing_bbox_for_zoom := None;
              last_greeted_time :=
                if greet then <[n := current_time]> (last_greeted_time st)
                else last_greeted_time st;
              USE_LOW_LIGHT_ENHANCEMENT := USE_LOW_LIGHT_ENHANCEMENT st |},
           display_frame,
           if greet then [Speak (greeting_text n)] else [])
    else
      match current_processing_bbox_for_zoom st with
      | Some b =>
          zoomed_display ← zoom_utils.get_zoomed_region (Some frame) (Some b)
                             (frame_width, frame_height) zoom_utils.padding_factor_default;
          match zoomed_display with
          | Some zoomed => Ret (st, zoomed, [])
          | None =>
              Ret ({| zoom_active := false;
                      zoom_return_time := zoom_return_time st;
                      name_to_greet_after_zoom := None;
                      last_detection_run_time := last_detection_run_time st;
                      current_processing_bbox_for_zoom := None;
                      last_greeted_time := last_greeted_time st;
                      USE_LOW_LIGHT_ENHANCEMENT := USE_LOW_LIGHT_ENHANCEMENT st |},
                   display_frame, [])
          end
      | None =>
          Ret ({| zoom_active := false;
                  zoom_return_time := zoom_return_time st;
                  name_to_greet_after_zoom := None;
                  last_detection_run_time := last_detection_run_time st;
                  current_processing_bbox_for_zoom := None;
                  last_greeted_time := last_greeted_time st;
                  USE_LOW_LIGHT_ENHANCEMENT := USE_LOW_LIGHT_ENHANCEMENT st |},
               display_frame, [])
      end
  else Ret (st, display_frame, []).

(** The pending greet target chosen when a face is found. *)
Definition greet_target (recognized_name : string) (current_time : Q)
    (last_greeted : gmap string Q) : option string :=
  if bool_decide (recognized_name ≠ "Unknown") then
    if bool_decide (recognized_name ∉ dom last_greeted) ||
       Qgtb (current_time - default 0%Q (last_greeted !! recognized_name))
            GREETING_COOLDOWN_SECONDS
    then Some recognized_name
    else None
  else None.

(** The block under [# --- Detection and Recognition Logic ---]. *)
Definition detection_logic (known_faces_db : list known_face) (frame : ndimage)
    (r : reading) (st : state) (display_frame : ndimage) : result (state * ndimage) :=
  let frame_width := Z.of_N (width frame) in
  let frame_height := Z.of_N (height frame) in
  let current_time := time_time r in
  if negb (zoom_active st) &&
     Qgtb (current_time - last_detection_run_time st) DETECTION_INTERVAL_SECONDS
  then
    '(recognized_name, face_bbox) ←
      process_frame (model_get r (USE_LOW_LIGHT_ENHANCEMENT st)) known_faces_db
                    frame_width frame_height;
    match face_bbox with
    | Some b =>
        if truthy recognized_name then
          let n := default "" recognized_name in
          zoomed_display_on_detect ←
            zoom_utils.get_zoomed_region (Some frame) (Some b) (frame_width, frame_height)
                                         zoom_utils.padding_factor_default;
          Ret ({| zoom_active := true;
                  zoom_return_time := (current_time + ZOOM_DURATION_SECONDS)%Q;
                  name_to_greet_after_zoom :=
                    greet_target n current_time (last_greeted_time st);
                  last_detection_run_time := current_time;
                  current_processing_bbox_for_zoom := Some b;
                  last_greeted_time := last_greeted_time st;
                  USE_LOW_LIGHT_ENHANCEMENT := USE_LOW_LIGHT_ENHANCEMENT st |},
               default display_frame zoomed_display_on_detect)
        else
          Ret ({| zoom_active := zoom_active st;
                  zoom_return_time := zoom_return_time st;
                  name_to_greet_after_zoom := name_to_greet_after_zoom st;
                  last_detection_run_time := current_time;
                  current_processing_bbox_for_zoom := Some b;
                  last_greeted_time := last_greeted_time st;
                  USE_LOW_LIGHT_ENHANCEMENT := USE_LOW_LIGHT_ENHANCEMENT st |},
               display_frame)
    | None =>
        Ret ({| zoom_active := zoom_active st;
                zoom_return_time := zoom_return_time st;
                name_to_greet_after_zoom := name_to_greet_after_zoom st;
                last_detection_run_time := current_time;
                current_processing_bbox_for_zoom := current_processing_bbox_for_zoom st;
                last_greeted_time := last_greeted_time st;
                USE_LOW_LIGHT_ENHANCEMENT := USE_LOW_LIGHT_ENHANCEMENT st |},
             display_frame)
    end
  else Ret (st, display_frame).

(** The key handling at the end of a pass: ['q'] is 113, ['l'] is 108. *)
Definition handle_key (key : Z) (st : state) : state * control :=
  if (key =? 113)%Z then (st, Break)
  else if (key =? 108)%Z then
    ({| zoom_active := zoom_active st;
        zoom_return_time := zoom_return_time st;
        name_to_greet_after_zoom := name_to_greet_after_zoom st;
        last_detection_run_time := last_detection_run_time st;
        current_processing_bbox_for_zoom := current_processing_bbox_for_zoom st;
        last_greeted_time := last_greeted_time st;
        USE_LOW_LIGHT_ENHANCEMENT := negb (USE_LOW_LIGHT_ENHANCEMENT st) |}, Continue)
  else (st, Continue).

(** One pass of the [while True] loop.  An exception leaves the loop
    through [except Exception], with what was spoken before it. *)
Definition iteration (known_faces_db : list known_face) (r : reading) (st : state)
    : state * list event * control :=
  match cap_read r with
  | None => (st, [], Break)
  | Some frame =>
      match zoom_logic frame (time_time r) st frame with
      | Raise e => (st, [], Propagated e)
      | Ret (st1, display_frame, spoken) =>
          match detection_logic known_faces_db frame r st1 display_frame with
          | Raise e => (st1, spoken, Propagated e)
          | Ret (st2, display_frame) =>
              let '(st3, c) := handle_key (Z.land (waitKey r) 255) st2 in
              (st3, spoken ++ [Imshow display_frame], c)
          end
      end
  end.

(** The loop over the readings of successive passes; it stops at the
    first pass that does not continue. *)
Fixpoint main_loop (known_faces_db : list known_face) (readings : list reading)
    (st : state) : state * list event * control :=
  match readings with
  | [] => (st, [], Continue)
  | r :: rest =>
      let '(st', evs, c) := iteration known_faces_db r st in
      match c with
      | Continue =>
          let '(st'', evs', c') := main_loop known_faces_db rest st' in
          (st'', evs ++ evs', c')
      | _ => (st', evs, c)
      end
  end.
End Loop.

(** The texts of the [tts.speak] calls among the events. *)
Definition spoken (evs : list event) : list string :=
  omap (λ e, match e with Speak t => Some t | Imshow _ => None end) evs.

End main.

(** ** enroll_from_image.py *)

Module enroll_from_image.
Import face_utils.

(** What a call of [enroll_from_image] finds around it. *)
Record surroundings := {
  model_loaded : bool;            (* [load_insightface_model()] is not [None] *)
  path_exists : bool;             (* [os.path.exists(image_path)] *)
  imread : option ndimage;        (* [cv2.imread(image_path)] *)
  model_get : list Face;          (* the detector on the image *)
  file : db_file;                 (* the file at [DB_PATH] *)
  overwrite_input : input_result; (* the answer to "Overwrite? (y/n)" *)
  fault : write_fault
}.

(** How the call ends: it returns a boolean, or an exception of [input()]
    leaves it. *)
Inductive outcome :=
| Returned (b : bool)
| Raised (e : exn)
| KeyboardInterrupt.

(** What the call leaves behind: the file, the list it handed to
    [save_known_faces] (if it got there), and what it had spoken. *)
Record effect := {
  ended : outcome;
  file_after : db_file;
  saved : option (list known_face);
  spoken : list string
}.

(** The [for face_obj in detected_faces] loop of step 4. *)
Fixpoint largest_loop (detected_faces : list Face) (largest_face_area : Q)
    (target_face_obj : option Face) : option Face :=
  match detected_faces with
  | [] => target_face_obj
  | face_obj :: rest =>
      let '(x1, y1, x2, y2) := bbox face_obj in
      let area := ((x2 - x1) * (y2 - y1))%Q in
      if Qgtb area largest_face_area
      then largest_loop rest area (Some face_obj)
      else largest_loop rest largest_face_area target_face_obj
  end.

(** Step 4: the face to enroll. *)
Definition select_target (detected_faces : list Face) : option Face :=
  match detected_faces with
  | [] => None
  | [face_obj] => Some face_obj
  | _ => largest_loop detected_faces 0 None
  end.

Section Enroll.
Context `{Numpy}.

Definition failed (env : surroundings) : effect :=
  {| ended := Returned false; file_after := file env; saved := None; spoken := [] |}.

(** The tail of step 7: append, save, speak, return [True]. *)
Definition append_and_save (env : surroundings) (known_faces_db : list known_face)
    (name_to_enroll : string) (embedding : list Q) : effect :=
  let known_faces_db := known_faces_db ++ [{| name := name_to_enroll; embedding := embedding |}] in
  {| ended := Returned true;
     file_after := (save_known_faces known_faces_db (file env) (fault env)).1.1;
     saved := Some known_faces_db;
     spoken := [name_to_enroll +:+ " has been enrolled from image."] |}.

Definition enroll_from_image (env : surroundings) (person_name : string) : effect :=
  if negb (model_loaded env) then failed env
  else if negb (path_exists env) then failed env
  else
    match imread env with
    | None => failed env
    | Some image =>
        match select_target (model_get env) with
        | None => failed env
        | Some target_face_obj =>
            match normed_embedding target_face_obj with
            | None => failed env
            | Some embedding =>
                match (load_known_faces (file env)).2 with
                | Raise e =>
                    {| ended := Raised e; file_after := file env; saved := None; spoken := [] |}
                | Ret known_faces_db =>
                    let enrolled_names : gset string := list_to_set (name <$> known_faces_db) in
                    let name_to_enroll := py_strip person_name in
                    if bool_decide (name_to_enroll = "") then failed env
                    else if bool_decide (name_to_enroll ∈ enrolled_names) then
                      match overwrite_input env with
                      | Typed line =>
                          if bool_decide (py_lower (py_strip line) ≠ "y") then failed env
                          else
                            append_and_save env
                              (filter (λ f, name f ≠ name_to_enroll) known_faces_db)
                              name_to_enroll embedding
                      | Interrupted =>
                          {| ended := KeyboardInterrupt; file_after := file env;
                             saved := None; spoken := [] |}
                      | EndOfInput =>
                          {| ended := Raised EOFError; file_after := file env;
                             saved := None; spoken := [] |}
                      end
                    else append_and_save env known_faces_db name_to_enroll embedding
                end
            end
        end
    end.
End Enroll.

End enroll_from_image.

(** ** face_enroll.py *)

Module face_enroll.
Import face_utils.

(** [ord('s')] and [ord('q')] *)
Definition CAPTURE_KEY : Z := 115.
Definition QUIT_KEY : Z := 113.
Definition CAPTURE_COOLDOWN : Q := 2.
Definition PREVIEW_DETECTION_INTERVAL : Q := 2 # 10.

(** The variables [enroll_face] carries from one pass to the next, and the
    file at [DB_PATH]. *)
Record state := {
  known_faces_db : list known_face;
  enrolled_names : gset string;
  last_capture_attempt_time : Q;
  last_preview_detection_time : Q;
  target_face_obj_for_preview : option Face;
  file : db_file
}.

(** What one pass reads: the camera, the clock (at the top of the pass and
    at the key press), the detector (for the preview and on the frozen
    frame), the keyboard, the two prompts, and the fate of the write. *)
Record reading := {
  cap_read : option ndimage;
  time_time : Q;
  model_get_preview : list Face;
  waitKey : Z;
  capture_press_time : Q;
  model_get_frozen : list Face;
  name_input : input_result;
  overwrite_input : input_result;
  fault : write_fault
}.

Definition with_store (st : state) (db : list known_face) (names : gset string)
    (f : db_file) : state :=
  {| known_faces_db := db; enrolled_names := names;
     last_capture_attempt_time := last_capture_attempt_time st;
     last_preview_detection_time := last_preview_detection_time st;
     target_face_obj_for_preview := target_face_obj_for_preview st;
     file := f |}.

(** The end of the capture branch: append, save, add the name, speak. *)
Definition append_and_save (r : reading) (st : state) (db : list known_face)
    (name : string) (embedding : list Q) : state * list string * control :=
  let db := db ++ [{| face_utils.name := name; face_utils.embedding := embedding |}] in
  (with_store st db ({[name]} ∪ enrolled_names st) (save_known_faces db (file st) (fault r)).1.1,
   [name +:+ " has been enrolled."], Continue).

(** The capture branch from the name prompt on, with the embedding of the
    face selected on the frozen frame. *)
Definition prompt_and_enroll (r : reading) (st : state) (embedding : list Q)
    : state * list string * control :=
  match name_input r with
  | Interrupted => (st, [], Continue)
  | EndOfInput => (st, [], Break)
  | Typed line =>
      let name := py_strip line in
      if bool_decide (py_lower name = "cancel") || bool_decide (name = "") then (st, [], Continue)
      else if bool_decide (name ∈ enrolled_names st) then
        match overwrite_input r with
        | Interrupted => (st, [], Continue)
        | EndOfInput => (st, [], Break)
        | Typed answer =>
            if bool_decide (py_lower (py_strip answer) ≠ "y") then (st, [], Continue)
            else
              append_and_save r st
                (filter (λ f, face_utils.name f ≠ name) (known_faces_db st)) name embedding
        end
      else append_and_save r st (known_faces_db st) name embedding
  end.

(** The branch [if key == CAPTURE_KEY]. *)
Definition on_capture (r : reading) (frame_w frame_h : Z) (st : state)
    : state * list string * control :=
  if Qltb (capture_press_time r - last_capture_attempt_time st) CAPTURE_COOLDOWN
  then (st, [], Continue)
  else
    let st := {| known_faces_db := known_faces_db st; enrolled_names := enrolled_names st;
                 last_capture_attempt_time := capture_press_time r;
                 last_preview_detection_time := last_preview_detection_time st;
                 target_face_obj_for_preview := target_face_obj_for_preview st;
                 file := file st |} in
    match target_face_obj_for_preview st with
    | None => (st, [], Continue)
    | Some _ =>
        match model_get_frozen r with
        | [] => (st, [], Continue)
        | detected_faces_on_frozen_frame =>
            match get_center_most_face detected_faces_on_frozen_frame frame_w frame_h with
            | None => (st, [], Continue)
            | Some actual_target_face_obj_for_enrollment =>
                match normed_embedding actual_target_face_obj_for_enrollment with
                | None | Some [] => (st, [], Continue)
                | Some embedding => prompt_and_enroll r st embedding
                end
            end
        end
    end.

(** One pass of the [while True] loop of [enroll_face]. *)
Definition iteration (r : reading) (st : state) : state * list string * control :=
  match cap_read r with
  | None => (st, [], Continue)
  | Some live_frame =>
      let frame_h := Z.of_N (height live_frame) in
      let frame_w := Z.of_N (width live_frame) in
      let current_time := time_time r in
      let st :=
        if Qgtb (current_time - last_preview_detection_time st) PREVIEW_DETECTION_INTERVAL
        then {| known_faces_db := known_faces_db st; enrolled_names := enrolled_names st;
                last_capture_attempt_time := last_capture_attempt_time st;
                last_preview_detection_time := current_time;
                target_face_obj_for_preview :=
                  match model_get_preview r with
                  | [] => None
                  | detected => get_center_most_face detected frame_w frame_h
                  end;
                file := file st |}
        else st in
      let key := Z.land (waitKey r) 255 in
      if (key =? CAPTURE_KEY)%Z then on_capture r frame_w frame_h st
      else if (key =? QUIT_KEY)%Z then (st, [], Break)
      else (st, [], Continue)
  end.

(** The loop over the readings of successive passes. *)
Fixpoint enroll_face_loop (readings : list reading) (st : state)
    : state * list string * control :=
  match readings with
  | [] => (st, [], Continue)
  | r :: rest =>
      let '(st', said, c) := iteration r st in
      match c with
      | Continue =>
          let '(st'', said', c') := enroll_face_loop rest st' in
          (st'', said ++ said', c')
      | _ => (st', said, c)
      end
  end.

Section Start.
Context `{Numpy}.

(** The state [enroll_face] starts its loop in, from the file it loads. *)
Definition start (f : db_file) : result state :=
  db ← (load_known_faces f).2;
  Ret {| known_faces_db := db;
         enrolled_names := list_to_set (name <$> db);
         last_capture_attempt_time := 0;
         last_preview_detection_time := 0;
         target_face_obj_for_preview := None;
         file := f |}.
End Start.

End face_enroll.

(** ** Specification-side definitions and concrete collaborators *)

(** The dot product as a total function: what [np_dot] returns on arrays of
    one length. *)
Fixpoint similarity (a b : list Q) : Q :=
  match a, b with
  | x :: a', y :: b' => (x * y + similarity a' b')%Q
  | _, _ => 0%Q
  end.

(** What the center-most scan holds after the faces [seen]: nothing yet, or
    the first nearest face of [seen] with its squared distance. *)
Definition center_inv (frame_width frame_height : Z) (seen : list face_utils.Face)
    (closest : option face_utils.Face) (m : option Q) : Prop :=
  (seen = [] ∧ closest = None ∧ m = None) ∨
  (∃ i x, first_argmin (face_utils.dist_sq frame_width frame_height) seen i x ∧
          closest = Some x ∧ m = Some (face_utils.dist_sq frame_width frame_height x)).

(** The specification's measure for the centre-most policy: the centre of
    a bounding box, and the squared Euclidean distance from it to the centre
    of a frame of the given size. *)
Definition box_centre (b : Q * Q * Q * Q) : Q * Q :=
  let '(x1, y1, x2, y2) := b in ((x1 + x2) / 2, (y1 + y2) / 2)%Q.

Definition centre_distance_sq (frame_width frame_height : Z) (b : Q * Q * Q * Q) : Q :=
  ((box_centre b).1 - inject_Z frame_width / 2) ^ 2
  + ((box_centre b).2 - inject_Z frame_height / 2) ^ 2.

(** A bounding box in whole pixels: each coordinate cut to its integer
    part. *)
Definition pixel_box (b : Q * Q * Q * Q) : Q * Q * Q * Q :=
  let '(x1, y1, x2, y2) := b in
  (inject_Z (py_int x1), inject_Z (py_int y1), inject_Z (py_int x2), inject_Z (py_int y2)).

(** A bounding box whose coordinates are whole numbers of pixels. *)
Definition whole_pixels (b : Q * Q * Q * Q) : Prop :=
  let '(x1, y1, x2, y2) := b in
  (inject_Z (py_int x1) == x1 ∧ inject_Z (py_int y1) == y1 ∧
   inject_Z (py_int x2) == x2 ∧ inject_Z (py_int y2) == y2)%Q.

(** Whether the [say] of a request succeeded. *)
Definition succeeded (v : tts.verdict) : bool :=
  match v with
  | tts.Invoked _ => true
  | tts.Dropped | tts.Failed _ => false
  end.

(** What the matcher's scan holds after the records [seen]: no record above
    the threshold yet, or the first best record of [seen], which is above
    it. *)
Definition match_inv (current_embedding : list Q) (seen : list face_utils.known_face)
    (best : option string) (m : Q) : Prop :=
  let sim := λ f, similarity current_embedding (face_utils.embedding f) in
  (best = None ∧ m = (-1)%Q ∧ ∀ f, f ∈ seen → (sim f <= main.SIMILARITY_THRESHOLD)%Q) ∨
  (∃ i f, first_argmax sim seen i f ∧ (main.SIMILARITY_THRESHOLD < sim f)%Q ∧
          best = Some (face_utils.name f) ∧ m = sim f).

(** A bounding box with no width or no height. *)
Definition degenerate (b : Z * Z * Z * Z) : Prop :=
  let '(x1, y1, x2, y2) := b in (x2 - x1 <= 0 ∨ y2 - y1 <= 0)%Z.

(** A later state still in the zoom session that [entry] began: the zoom is
    active, and its end time, pending greet target, box and greeting
    timestamps are those of [entry]. *)
Definition in_session (entry st : main.state) : Prop :=
  main.zoom_active st = true ∧
  main.zoom_return_time st = main.zoom_return_time entry ∧
  main.name_to_greet_after_zoom st = main.name_to_greet_after_zoom entry ∧
  main.current_processing_bbox_for_zoom st = main.current_processing_bbox_for_zoom entry ∧
  main.last_greeted_time st = main.last_greeted_time entry.

(** At most one record per name. *)
Definition unique_names (db : list face_utils.known_face) : Prop :=
  NoDup (face_utils.name <$> db).

(** The record a pickled item stands for: it is a dict with both keys, its
    name is a string and its embedding converts. *)
Definition entry_of `{Numpy} (item : pyval) : option face_utils.known_face :=
  match item with
  | PyDict d =>
      match dict_get d "name", dict_get d "embedding" with
      | Some (PyStr s), Some e =>
          match np_array_f32 e with
          | Ret emb => Some {| face_utils.name := s; face_utils.embedding := emb |}
          | Raise _ => None
          end
      | _, _ => None
      end
  | _ => None
  end.

(** The warning printed for a pickled item that is dropped. *)
Definition warning_of (item : pyval) : option face_utils.printed :=
  match item with
  | PyDict d =>
      match dict_get d "name", dict_get d "embedding" with
      | Some (PyStr _), Some _ => None
      | Some _, Some _ => Some face_utils.Skipping_non_string_name
      | _, _ => Some face_utils.Skipping_malformed_item
      end
  | _ => Some face_utils.Skipping_malformed_item
  end.

(** The embedding of an item that carries both keys converts. *)
Definition convertible `{Numpy} (item : pyval) : Prop :=
  ∀ d n e, item = PyDict d → dict_get d "name" = Some n → dict_get d "embedding" = Some e →
           ∃ emb, np_array_f32 e = Ret emb.

(** An answer to the name prompt that cancels the enrollment: the token
    "cancel" in any case, nothing but blanks, Ctrl-C, or the end of the
    input stream. *)
Definition cancels (answer : input_result) : Prop :=
  match answer with
  | Typed line => py_lower (py_strip line) = "cancel" ∨ py_strip line = ""
  | Interrupted | EndOfInput => True
  end.

(** The store part of the live enrollment's state is unchanged. *)
Definition same_store (st st' : face_enroll.state) : Prop :=
  face_enroll.known_faces_db st' = face_enroll.known_faces_db st ∧
  face_enroll.enrolled_names st' = face_enroll.enrolled_names st ∧
  face_enroll.file st' = face_enroll.file st.

(** The live enrollment's store has one record per name, all of them in
    [enrolled_names]. *)
Definition store_inv (st : face_enroll.state) : Prop :=
  unique_names (face_enroll.known_faces_db st) ∧
  ∀ f, f ∈ face_enroll.known_faces_db st → face_utils.name f ∈ face_enroll.enrolled_names st.

(** A model of [numpy.array(obj, dtype=np.float32)] on pickled values, for
    the examples: an array and a flat list of numbers convert, a dict raises
    [TypeError], text that is no numeral and a list holding anything but
    numbers raise [ValueError]. *)
Definition np_array_model (v : pyval) : result (list Q) :=
  match v with
  | PyArray a => Ret a
  | PyNum x => Ret [x]
  | PyList l =>
      (fix go (l : list pyval) : result (list Q) :=
         match l with
         | [] => Ret []
         | PyNum x :: rest => xs ← go rest; Ret (x :: xs)
         | _ => Raise ValueError
         end) l
  | PyStr _ => Raise ValueError
  | PyDict _ => Raise TypeError
  end.

Definition numpy_model : Numpy := {| np_array_f32 := np_array_model |}.

(** A model of [cv2.resize] for the examples: nearest-neighbour sampling,
    and [cv2.error] on an empty source or an empty target. *)
Definition resize_nearest (src : ndimage) (dsize : Z * Z) : option ndimage :=
  if ((dsize.1 <=? 0) || (dsize.2 <=? 0))%Z || (arr_size src =? 0)%N then None
  else Some {| height := Z.to_N dsize.2; width := Z.to_N dsize.1;
               channels := channels src;
               sample := λ r c k,
                 sample src (r * Z.of_N (height src) / dsize.2)%Z
                            (c * Z.of_N (width src) / dsize.1)%Z k |}.

Definition cv2_model : Cv2 := {| cv2_resize := resize_nearest |}.

(** *** Example inputs *)

(** A 100 by 100 frame with three channels. *)
Definition frame_100 : ndimage :=
  {| height := 100; width := 100; channels := Some 3%N; sample := λ r c k, (r + c + k)%Z |}.

(** A store and a query in the manner of the specification's example, with
    unit vectors: similarity 0.6 to Alice and 5/13 to Bob. *)
Definition alice : face_utils.known_face :=
  {| face_utils.name := "Alice"; face_utils.embedding := [3 # 5; 4 # 5]%Q |}.
Definition bob : face_utils.known_face :=
  {| face_utils.name := "Bob"; face_utils.embedding := [5 # 13; 12 # 13]%Q |}.
Definition query_x : list Q := [1; 0]%Q.

(** A face of 20 by 20 pixels at the centre of [frame_100], seen as Alice. *)
Definition face_alice : face_utils.Face :=
  {| face_utils.bbox := (40, 40, 60, 60)%Q; face_utils.normed_embedding := Some query_x |}.

(** A detection whose box has no width once cast to pixels, without an
    embedding. *)
Definition face_sliver : face_utils.Face :=
  {| face_utils.bbox := (5 # 1, 5 # 1, 11 # 2, 9 # 1)%Q;
     face_utils.normed_embedding := None |}.

(** A pass of the recognition loop at time [t]: the camera gives
    [frame_100], the detector finds [faces], and [key] is pressed (-1 for no
    key). *)
Definition reading_at (t : Q) (faces : list face_utils.Face) (key : Z) : main.reading :=
  {| main.cap_read := Some frame_100; main.time_time := t;
     main.model_get := λ _, faces; main.waitKey := key |}.

(** Pickled items: Alice and Bob as enrollment writes them, a second record
    under Alice's name, and a record whose embedding is a dict. *)
Definition item_of (n : string) (e : pyval) : pyval :=
  PyDict [("name", PyStr n); ("embedding", e)].
Definition item_alice : pyval := item_of "Alice" (PyArray [3 # 5; 4 # 5]%Q).
Definition item_alice_again : pyval := item_of "Alice" (PyArray [1; 0]%Q).
Definition item_bob_broken : pyval := item_of "Bob" (PyDict []).

(** A pass of the live enrollment at time [t] in which the capture key is
    pressed with Alice's face in view and the name prompt is answered by
    [answer]. *)
Definition capture_at (t : Q) (answer : input_result) : face_enroll.reading :=
  {| face_enroll.cap_read := Some frame_100; face_enroll.time_time := t;
     face_enroll.model_get_preview := [face_alice]; face_enroll.waitKey := 115;
     face_enroll.capture_press_time := t; face_enroll.model_get_frozen := [face_alice];
     face_enroll.name_input := answer; face_enroll.overwrite_input := Typed "n";
     face_enroll.fault := face_utils.NoFault |}.

(** The live enrollment's state at the start, with no file yet. *)
Definition enroll_start : face_enroll.state :=
  {| face_enroll.known_faces_db := []; face_enroll.enrolled_names := ∅;
     face_enroll.last_capture_attempt_time := 0;
     face_enroll.last_preview_detection_time := 0;
     face_enroll.target_face_obj_for_preview := None;
     face_enroll.file := face_utils.Missing |}.

(** Two calls of [speak]: the first is made at time 10 and its speech lasts
    two seconds; the second comes 2.3 seconds after the first one started. *)
Definition first_call : tts.request :=
  {| tts.called_at := 10; tts.text := "Alice has been enrolled.";
     tts.say_outcome := tts.SayOk; tts.say_duration := 2 |}.
Definition second_call : tts.request :=
  {| tts.called_at := 123 # 10; tts.text := "Your friend Alice is in front of you.";
     tts.say_outcome := tts.SayOk; tts.say_duration := 2 |}.

(** The session Alice's face begins at time 1 from the initial state, and
    the passes that follow it. *)
Definition entry_alice : main.state :=
  {| main.zoom_active := true;
     main.zoom_return_time := 1 + main.ZOOM_DURATION_SECONDS;
     main.name_to_greet_after_zoom := Some "Alice";
     main.last_detection_run_time := 1;
     main.current_processing_bbox_for_zoom := Some (40, 40, 60, 60)%Z;
     main.last_greeted_time := ∅;
     main.USE_LOW_LIGHT_ENHANCEMENT := true |}.
Definition passes_alice : list main.reading :=
  [reading_at 2 [face_alice] 108; reading_at (5 # 2) [] (-1)].

(** The two detections of the specification's example, equidistant from the
    centre of a 100 by 100 frame. *)
Definition face_top_left : face_utils.Face :=
  {| face_utils.bbox := (0, 0, 10, 10)%Q; face_utils.normed_embedding := None |}.
Definition face_bottom_right : face_utils.Face :=
  {| face_utils.bbox := (90, 90, 100, 100)%Q; face_utils.normed_embedding := None |}.

(** Two detections with boxes as a detector gives them, in fractions of a
    pixel: the centre of the first is 0.1 pixel from the centre of a 100 by
    100 frame, the centre of the second 0.5 pixel. *)
Definition face_near : face_utils.Face :=
  {| face_utils.bbox := (399 # 10, 40, 599 # 10, 60)%Q; face_utils.normed_embedding := None |}.
Definition face_wide : face_utils.Face :=
  {| face_utils.bbox := (40, 40, 61, 60)%Q; face_utils.normed_embedding := None |}.

(** A call of [speak] 0.55 seconds after the speech of [first_call] ended. *)
Definition late_call : tts.request :=
  {| tts.called_at := 251 # 20; tts.text := "Bob has been enrolled.";
     tts.say_outcome := tts.SayOk; tts.say_duration := 1 |}.

(** A still-image enrollment: one face in the image, Bob already in the
    store, and the write succeeds. *)
Definition image_of_alice : enroll_from_image.surroundings :=
  {| enroll_from_image.model_loaded := true; enroll_from_image.path_exists := true;
     enroll_from_image.imread := Some frame_100;
     enroll_from_image.model_get := [face_alice];
     enroll_from_image.file := face_utils.Pickled (face_utils.pickle_of [bob]);
     enroll_from_image.overwrite_input := Typed "n";
     enroll_from_image.fault := face_utils.NoFault |}.

(** ** utils/camera_utils.py *)

Module camera_utils.

(** What [cv2.VideoCapture(i)] gives: whether it opened, and the width and
    height the camera reports once the requested ones have been set. *)
Record device := {
  isOpened : bool;
  actual_width : Q;
  actual_height : Q
}.

(** What is done to capture handles. *)
Inductive cam_event :=
| Opened (index : nat)
| Released (index : nat).

(** The loop [for i in range(...)] shared by [list_available_cameras] and
    the start of [get_camera]: open index [i], note it when it opened, and
    release it. *)
Fixpoint probe (VideoCapture : nat → device) (indices : list nat)
    (available_indices : list nat) (log : list cam_event) : list nat * list cam_event :=
  match indices with
  | [] => (available_indices, log)
  | i :: rest =>
      if isOpened (VideoCapture i)
      then probe VideoCapture rest (available_indices ++ [i]) (log ++ [Opened i; Released i])
      else probe VideoCapture rest available_indices log
  end.

Definition list_available_cameras (VideoCapture : nat → device) (max_to_test : nat)
    : list nat * list cam_event :=
  probe VideoCapture (seq 0 max_to_test) [] [].

Definition TARGET_CAMERA_INDEX : nat := 0.

(** [get_camera]: the capture it returns ([None], or the index it holds
    open) and what it did to capture handles.  [VideoCapture] answers the
    probing loop and [target] the final [cv2.VideoCapture(TARGET_CAMERA_INDEX)]. *)
Definition get_camera (VideoCapture : nat → device) (target : device)
    : option nat * list cam_event :=
  let '(current_available, log) := probe VideoCapture (seq 0 3) [] [] in
  if isOpened target then
    if Qgeb (actual_width target) 640 && Qgeb (actual_height target) 480
    then (Some TARGET_CAMERA_INDEX, log ++ [Opened TARGET_CAMERA_INDEX])
    else (None, log ++ [Opened TARGET_CAMERA_INDEX; Released TARGET_CAMERA_INDEX])
  else (None, log).

End camera_utils.

(** ** Further specification-side definitions *)

(** The number of capture handles opened and not released. *)
Fixpoint handles_open (log : list camera_utils.cam_event) : Z :=
  match log with
  | [] => 0
  | camera_utils.Opened _ :: rest => 1 + handles_open rest
  | camera_utils.Released _ :: rest => handles_open rest - 1
  end.

(** What the recognition loop keeps true of its pending greet target: it is
    a stored name other than "Unknown", and the session's end time lies more
    than GREETING_COOLDOWN + ZOOM_DURATION after that name's last
    greeting. *)
Definition pending_inv (known_faces_db : list face_utils.known_face) (st : main.state) : Prop :=
  ∀ n, main.name_to_greet_after_zoom st = Some n →
    n ≠ "" ∧ n ≠ "Unknown" ∧ n ∈ face_utils.name <$> known_faces_db ∧
    ∀ s, main.last_greeted_time st !! n = Some s →
         (main.GREETING_COOLDOWN_SECONDS + main.ZOOM_DURATION_SECONDS
          < main.zoom_return_time st - s)%Q.

(** The images shown among the events of a pass. *)
Definition shown (evs : list main.event) : list ndimage :=
  omap (λ e, match e with main.Imshow img => Some img | main.Speak _ => None end) evs.

(** The area of a detection's box, as [enroll_from_image] computes it. *)
Definition area (face_obj : face_utils.Face) : Q :=
  let '(x1, y1, x2, y2) := face_utils.bbox face_obj in ((x2 - x1) * (y2 - y1))%Q.

(** What the largest-face scan holds after the faces [seen]. *)
Definition largest_inv (seen : list face_utils.Face) (target : option face_utils.Face)
    (largest : Q) : Prop :=
  (target = None ∧ largest = 0%Q ∧ ∀ f, f ∈ seen → (area f <= 0)%Q) ∨
  (∃ i f, first_argmax area seen i f ∧ (0 < area f)%Q ∧ target = Some f ∧ largest = area f).

(** The record enrollment writes for a name and an embedding. *)
Definition record_of (n : string) (e : list Q) : face_utils.known_face :=
  {| face_utils.name := n; face_utils.embedding := e |}.

(** The store after a replace-or-append of [n]: every record under another
    name, in order, then the new record. *)
Definition replaced (db : list face_utils.known_face) (n : string) (e : list Q)
    : list face_utils.known_face :=
  filter (λ f, face_utils.name f ≠ n) db ++ [record_of n e].

(** Two states of the recognition loop that differ at most in the
    enhancement flag. *)
Definition same_but_flag (st st' : main.state) : Prop :=
  main.zoom_active st' = main.zoom_active st ∧
  main.zoom_return_time st' = main.zoom_return_time st ∧
  main.name_to_greet_after_zoom st' = main.name_to_greet_after_zoom st ∧
  main.last_detection_run_time st' = main.last_detection_run_time st ∧
  main.current_processing_bbox_for_zoom st' = main.current_processing_bbox_for_zoom st ∧
  main.last_greeted_time st' = main.last_greeted_time st.

(** Further examples: the pass at time 1 that finds Alice and begins a zoom
    session, and a record whose embedding has one component only. *)
Definition run_alice : list main.reading := [reading_at 1 [face_alice] (-1)].
Definition carol_short : face_utils.known_face :=
  {| face_utils.name := "Carol"; face_utils.embedding := [1]%Q |}.

(** The names the live enrollment consults are exactly those of the records
    in its store. *)
Definition names_inv (st : face_enroll.state) : Prop :=
  face_enroll.enrolled_names st
  = list_to_set (face_utils.name <$> face_enroll.known_faces_db st).

(** The live enrollment's file and store are aligned with respect to the
    state [st0] it started in: nothing has changed since, or the file holds
    the pickle of the store. *)
Definition aligned (st0 st : face_enroll.state) : Prop :=
  same_store st0 st ∨
  face_enroll.file st
  = face_utils.Pickled (face_utils.pickle_of (face_enroll.known_faces_db st)).

(** The time at which a request's [say] started, when it started one. *)
Definition started (v : tts.verdict) : option Q :=
  match v with
  | tts.Dropped => None
  | tts.Invoked s | tts.Failed s => Some s
  end.

(** The last successful speech was over by the time the lock was released. *)
Definition gate_inv (g : tts.gate) : Prop :=
  (tts.last_tts_call_time g <= tts.lock_free_at g)%Q.

(** A third call of [speak], three seconds after [first_call]. *)
Definition third_call : tts.request :=
  {| tts.called_at := 13; tts.text := "Your friend Alice is in front of you.";
     tts.say_outcome := tts.SayOk; tts.say_duration := 2 |}.

(** * Part II: properties *)

(** ** Order facts about the float comparisons *)

Lemma Qltb_true (x y : Q) : Qltb x y = true ↔ (x < y)%Q.
Proof.
  unfold Qltb. rewrite negb_true_iff. split.
  - intros H. apply Qnot_le_lt. intros Hle.
    apply Qle_bool_iff in Hle. congruence.
  - intros H. destruct (Qle_bool y x) eqn:E; [|done].
    apply Qle_bool_iff in E. lra.
Qed.

Lemma Qltb_false (x y : Q) : Qltb x y = false ↔ (y <= x)%Q.
Proof.
  unfold Qltb. rewrite negb_false_iff. apply Qle_bool_iff.
Qed.

Lemma Qgtb_true (x y : Q) : Qgtb x y = true ↔ (y < x)%Q.
Proof. apply (Qltb_true y x). Qed.

Lemma Qgtb_false (x y : Q) : Qgtb x y = false ↔ (x <= y)%Q.
Proof. apply (Qltb_false y x). Qed.

Lemma Qgeb_true (x y : Q) : Qgeb x y = true ↔ (y <= x)%Q.
Proof. apply Qle_bool_iff. Qed.

Lemma Qgeb_false (x y : Q) : Qgeb x y = false ↔ (x < y)%Q.
Proof.
  unfold Qgeb. split.
  - intros H. apply Qnot_le_lt. intros Hle. apply Qle_bool_iff in Hle. congruence.
  - intros H. destruct (Qle_bool y x) eqn:E; [|done].
    apply Qle_bool_iff in E. lra.
Qed.

(** ** Extending a scanned prefix by one element *)

Section Scan.
Context {A : Type} (key : A → Q).

Lemma first_argmin_singleton (a : A) : first_argmin key [a] 0 a.
Proof.
  split; [done|]. split.
  - intros [|j] y Hj; simpl in Hj; [|by destruct j].
    injection Hj as <-. lra.
  - intros j y _ Hlt. lia.
Qed.

Lemma first_argmin_snoc_keep (l : list A) (i : nat) (x a : A) :
  first_argmin key l i x → (key x <= key a)%Q →
  first_argmin key (l ++ [a]) i x.
Proof.
  intros (Hi & Hmin & Hfirst) Hle. split; [|split].
  - by apply lookup_app_l_Some.
  - intros j y Hj. apply lookup_app_Some in Hj as [Hj|[_ Hj]]; [by eapply Hmin|].
    apply list_lookup_singleton_Some in Hj as [_ <-]. done.
  - intros j y Hj Hlt. apply lookup_app_Some in Hj as [Hj|[Hge _]]; [by eapply Hfirst|].
    apply lookup_lt_Some in Hi. lia.
Qed.

Lemma first_argmin_snoc_new (l : list A) (i : nat) (x a : A) :
  first_argmin key l i x → (key a < key x)%Q →
  first_argmin key (l ++ [a]) (length l) a.
Proof.
  intros (Hi & Hmin & Hfirst) Hlt. split; [|split].
  - rewrite lookup_app_r by lia. by rewrite Nat.sub_diag.
  - intros j y Hj. apply lookup_app_Some in Hj as [Hj|[_ Hj]].
    + specialize (Hmin j y Hj). lra.
    + apply list_lookup_singleton_Some in Hj as [_ <-]. lra.
  - intros j y Hj Hj'. apply lookup_app_Some in Hj as [Hj|[Hge _]]; [|lia].
    specialize (Hmin j y Hj). lra.
Qed.

(** A new element above everything seen so far is the first maximum. *)
Lemma first_argmax_snoc_above (l : list A) (a : A) :
  (∀ y, y ∈ l → (key y < key a)%Q) →
  first_argmax key (l ++ [a]) (length l) a.
Proof.
  intros Habove. split; [|split].
  - rewrite lookup_app_r by lia. by rewrite Nat.sub_diag.
  - intros j y Hj. apply lookup_app_Some in Hj as [Hj|[_ Hj]].
    + apply Qlt_le_weak, Habove. by eapply list_elem_of_lookup_2.
    + apply list_lookup_singleton_Some in Hj as [_ <-]. lra.
  - intros j y Hj Hj'. apply lookup_app_Some in Hj as [Hj|[Hge _]]; [|lia].
    apply Habove. by eapply list_elem_of_lookup_2.
Qed.

Lemma first_argmax_snoc_keep (l : list A) (i : nat) (x a : A) :
  first_argmax key l i x → (key a <= key x)%Q →
  first_argmax key (l ++ [a]) i x.
Proof.
  intros (Hi & Hmax & Hfirst) Hle. split; [|split].
  - by apply lookup_app_l_Some.
  - intros j y Hj. apply lookup_app_Some in Hj as [Hj|[_ Hj]]; [by eapply Hmax|].
    apply list_lookup_singleton_Some in Hj as [_ <-]. done.
  - intros j y Hj Hlt. apply lookup_app_Some in Hj as [Hj|[Hge _]]; [by eapply Hfirst|].
    apply lookup_lt_Some in Hi. lia.
Qed.

Lemma first_argmax_snoc_new (l : list A) (i : nat) (x a : A) :
  first_argmax key l i x → (key x < key a)%Q →
  first_argmax key (l ++ [a]) (length l) a.
Proof.
  intros (Hi & Hmax & Hfirst) Hlt. apply first_argmax_snoc_above.
  intros y Hy. apply list_elem_of_lookup_1 in Hy as [j Hj].
  specialize (Hmax j y Hj). lra.
Qed.

(** Every non-empty list has a first maximum. *)
Lemma first_argmax_exists (l : list A) :
  l ≠ [] → ∃ i x, first_argmax key l i x.
Proof.
  induction l as [|a l IH] using rev_ind; [done|]. intros _.
  destruct l as [|b l'].
  - exists 0%nat, a. apply (first_argmax_snoc_above []). intros y Hy. by apply elem_of_nil in Hy.
  - destruct IH as (i & x & Hx); [done|].
    destruct (Qlt_le_dec (key x) (key a)) as [Hlt|Hle].
    + eexists _, a. by eapply first_argmax_snoc_new.
    + exists i, x. by apply first_argmax_snoc_keep.
Qed.

(** The first maximum is determined by the list. *)
Lemma first_argmax_unique (l : list A) (i j : nat) (x y : A) :
  first_argmax key l i x → first_argmax key l j y → i = j ∧ x = y.
Proof.
  intros (Hi & Hmax & Hfirst) (Hj & Hmax' & Hfirst').
  assert (i = j) as ->.
  { destruct (Nat.lt_trichotomy i j) as [Hlt|[->|Hlt]]; [|done|].
    - specialize (Hfirst' i x Hi Hlt). specialize (Hmax j y Hj). lra.
    - specialize (Hfirst j y Hj Hlt). specialize (Hmax' i x Hi). lra. }
  split; [done|congruence].
Qed.
End Scan.

(** ** C8: the center-most selector *)

Lemma center_most_loop_inv (frame_width frame_height : Z)
    (rest seen : list face_utils.Face) closest m :
  center_inv frame_width frame_height seen closest m →
  let r := face_utils.center_most_loop frame_width frame_height rest closest m in
  (seen ++ rest = [] ∧ r = None) ∨
  (∃ i x, first_argmin (face_utils.dist_sq frame_width frame_height) (seen ++ rest) i x ∧
          r = Some x).
Proof.
  revert seen closest m.
  induction rest as [|a rest IH]; intros seen closest m Hinv;
    cbn [face_utils.center_most_loop].
  - rewrite app_nil_r.
    destruct Hinv as [(-> & -> & _)|(i & x & Harg & -> & _)]; [by left|].
    right. by exists i, x.
  - replace (seen ++ a :: rest) with ((seen ++ [a]) ++ rest)
      by (by rewrite <- app_assoc).
    destruct Hinv as [(-> & -> & ->)|(i & x & Harg & -> & ->)]; cbn [lt_inf].
    + apply (IH ([] ++ [a])). right. exists 0%nat, a.
      split; [apply first_argmin_singleton|done].
    + destruct (Qltb _ _) eqn:E.
      * apply Qltb_true in E. apply (IH (seen ++ [a])). right.
        exists (length seen), a.
        split; [by eapply first_argmin_snoc_new|done].
      * apply Qltb_false in E. apply (IH (seen ++ [a])). right. exists i, x.
        split; [by eapply first_argmin_snoc_keep|done].
Qed.

Lemma first_argmin_ext {A} (key key' : A → Q) (l : list A) (i : nat) (x : A) :
  (∀ y, y ∈ l → (key y == key' y)%Q) →
  first_argmin key l i x → first_argmin key' l i x.
Proof.
  intros Hkey (Hi & Hmin & Hfirst).
  assert (key x == key' x)%Q as Hx by (by eapply Hkey, list_elem_of_lookup_2).
  split; [done|]. split.
  - intros j y Hj. specialize (Hmin j y Hj).
    assert (key y == key' y)%Q as Hy by (by eapply Hkey, list_elem_of_lookup_2).
    by rewrite <- Hx, <- Hy.
  - intros j y Hj Hlt. specialize (Hfirst j y Hj Hlt).
    assert (key y == key' y)%Q as Hy by (by eapply Hkey, list_elem_of_lookup_2).
    by rewrite <- Hx, <- Hy.
Qed.

(** The distance the loop computes is the specification's measure, taken
    on the box in whole pixels. *)
Lemma dist_sq_pixel_box (frame_width frame_height : Z) (face_obj : face_utils.Face) :
  (face_utils.dist_sq frame_width frame_height face_obj
   == centre_distance_sq frame_width frame_height (pixel_box (face_utils.bbox face_obj)))%Q.
Proof.
  unfold face_utils.dist_sq, centre_distance_sq, box_centre, pixel_box, face_utils.astype_int.
  destruct (face_utils.bbox face_obj) as [[[x1 y1] x2] y2]. cbn [fst snd].
  rewrite !inject_Z_plus. reflexivity.
Qed.

Lemma centre_distance_sq_whole_pixels (frame_width frame_height : Z) (b : Q * Q * Q * Q) :
  whole_pixels b →
  (centre_distance_sq frame_width frame_height (pixel_box b)
   == centre_distance_sq frame_width frame_height b)%Q.
Proof.
  unfold whole_pixels, centre_distance_sq, box_centre, pixel_box.
  destruct b as [[[x1 y1] x2] y2]. cbn [fst snd].
  intros (-> & -> & -> & ->). reflexivity.
Qed.

(** C8 (as the code has it). For an empty list of detections
    [get_center_most_face] returns [None].  For a non-empty list it returns
    the detection whose bounding box, with its coordinates cut to whole
    pixels, has the centre of minimum squared Euclidean distance to the
    frame centre, and among equidistant detections the first one
    encountered.  When the boxes are in whole pixels already, that is the
    detection whose bounding-box centre is nearest the frame centre, the
    first of the nearest. *)
Theorem C8_center_most_is_first_nearest_in_whole_pixels
    (faces : list face_utils.Face) (frame_width frame_height : Z) :
  (faces = [] → face_utils.get_center_most_face faces frame_width frame_height = None) ∧
  (faces ≠ [] →
   ∃ i face_obj,
     face_utils.get_center_most_face faces frame_width frame_height = Some face_obj ∧
     first_argmin
       (λ f, centre_distance_sq frame_width frame_height (pixel_box (face_utils.bbox f)))
       faces i face_obj ∧
     (Forall (λ f, whole_pixels (face_utils.bbox f)) faces →
      first_argmin (λ f, centre_distance_sq frame_width frame_height (face_utils.bbox f))
        faces i face_obj)).
Proof.
  split; [by intros ->|]. intros Hne.
  destruct faces as [|a rest]; [done|].
  unfold face_utils.get_center_most_face.
  destruct (center_most_loop_inv frame_width frame_height (a :: rest) [] None None)
    as [[? _]|(i & x & Harg & Hres)]; [by left|done|].
  simpl app in Harg.
  assert (first_argmin
            (λ f, centre_distance_sq frame_width frame_height (pixel_box (face_utils.bbox f)))
            (a :: rest) i x) as Hpixel.
  { eapply first_argmin_ext; [|exact Harg]. intros y _. apply dist_sq_pixel_box. }
  exists i, x. split; [exact Hres|]. split; [exact Hpixel|].
  intros Hwhole. eapply first_argmin_ext; [|exact Hpixel].
  intros y Hy. cbn beta. apply centre_distance_sq_whole_pixels.
  by eapply Forall_forall in Hwhole.
Qed.

Lemma C8_center_most_witness :
  ∃ i face_obj,
    face_utils.get_center_most_face [face_top_left; face_bottom_right] 100 100
      = Some face_obj ∧
    first_argmin (λ f, centre_distance_sq 100 100 (pixel_box (face_utils.bbox f)))
      [face_top_left; face_bottom_right] i face_obj ∧
    (Forall (λ f, whole_pixels (face_utils.bbox f)) [face_top_left; face_bottom_right] →
     first_argmin (λ f, centre_distance_sq 100 100 (face_utils.bbox f))
       [face_top_left; face_bottom_right] i face_obj).
Proof.
  apply (C8_center_most_is_first_nearest_in_whole_pixels
           [face_top_left; face_bottom_right] 100 100).
  discriminate.
Defined.

(** C8, the claim as stated, fails for boxes in fractions of a pixel: the
    centre of the first detection is nearer the frame centre than the centre
    of the second, and the selector returns the second. *)
Lemma C8_cut_boxes_select_a_farther_centre :
  face_utils.get_center_most_face [face_near; face_wide] 100 100 = Some face_wide ∧
  (centre_distance_sq 100 100 (face_utils.bbox face_near)
   < centre_distance_sq 100 100 (face_utils.bbox face_wide))%Q.
Proof. split; reflexivity. Qed.

(** ** C1: the matcher *)

Lemma np_dot_similarity (a b : list Q) :
  length a = length b → face_utils.np_dot a b = Ret (similarity a b).
Proof.
  revert b. induction a as [|x a IH]; intros [|y b] Hlen; try done.
  simpl in *. rewrite IH by lia. done.
Qed.

Lemma match_loop_inv (current_embedding : list Q)
    (rest seen : list face_utils.known_face) (best : option string) (m : Q) (calls : nat) :
  Forall (λ f, length (face_utils.embedding f) = length current_embedding) rest →
  match_inv current_embedding seen best m →
  ∃ best' m',
    main.match_loop current_embedding rest best m calls
      = Ret (best', m', (calls + length rest)%nat) ∧
    match_inv current_embedding (seen ++ rest) best' m'.
Proof.
  revert seen best m calls.
  induction rest as [|a rest IH]; intros seen best m calls Hdim Hinv.
  - exists best, m. rewrite app_nil_r, Nat.add_0_r. done.
  - apply Forall_cons in Hdim as [Ha Hdim].
    cbn [main.match_loop]. unfold face_utils.compare_embeddings.
    rewrite np_dot_similarity by done. cbn [mbind result_bind].
    replace (seen ++ a :: rest) with ((seen ++ [a]) ++ rest)
      by (by rewrite <- app_assoc).
    replace (calls + length (a :: rest))%nat with (S calls + length rest)%nat
      by (simpl; lia).
    set (s := similarity current_embedding (face_utils.embedding a)).
    destruct (Qgtb s main.SIMILARITY_THRESHOLD) eqn:Hthr; cbn [andb].
    + apply Qgtb_true in Hthr.
      destruct Hinv as [(-> & -> & Hbelow)|(i & f & Harg & Hf & -> & ->)].
      * assert (Qgtb s (-1) = true) as ->.
        { apply Qgtb_true. unfold main.SIMILARITY_THRESHOLD in Hthr. lra. }
        apply IH; [done|]. right. exists (length seen), a.
        split; [|done]. apply first_argmax_snoc_above.
        intros y Hy. specialize (Hbelow y Hy). fold s. lra.
      * destruct (Qgtb s _) eqn:Hmax.
        -- apply Qgtb_true in Hmax. apply IH; [done|]. right.
           exists (length seen), a. split; [|done].
           by eapply first_argmax_snoc_new.
        -- apply Qgtb_false in Hmax. apply IH; [done|]. right.
           exists i, f. split; [|done]. by apply first_argmax_snoc_keep.
    + apply Qgtb_false in Hthr. apply IH; [done|].
      destruct Hinv as [(-> & -> & Hbelow)|(i & f & Harg & Hf & -> & ->)].
      * left. split; [done|]. split; [done|].
        intros y Hy. apply elem_of_app in Hy as [Hy|Hy]; [by apply Hbelow|].
        apply list_elem_of_singleton in Hy as ->. done.
      * right. exists i, f. split; [|done].
        apply first_argmax_snoc_keep; [done|]. fold s. lra.
Qed.

(** C1. For a query embedding and a store whose embeddings have the query's
    length and whose names are non-empty (the data model's EnrolledFace): on
    the empty store the matcher returns "Unknown" at once, with no
    comparison made; otherwise it compares the query with every stored
    embedding and, for the first record achieving the maximum similarity,
    returns that record's name if the maximum strictly exceeds the threshold
    0.50 and "Unknown" if it does not. *)
Theorem C1_best_match_first_maximum_above_threshold
    (current_embedding : list Q) (known_faces_db : list face_utils.known_face) :
  Forall (λ f, length (face_utils.embedding f) = length current_embedding) known_faces_db →
  Forall (λ f, face_utils.name f ≠ "") known_faces_db →
  let sim := λ f, similarity current_embedding (face_utils.embedding f) in
  (∀ f, f ∈ known_faces_db →
     face_utils.compare_embeddings current_embedding (face_utils.embedding f) = Ret (sim f)) ∧
  (known_faces_db = [] → main.best_match current_embedding known_faces_db = Ret ("Unknown", 0%nat)) ∧
  (known_faces_db ≠ [] →
   ∃ i f,
     first_argmax sim known_faces_db i f ∧
     main.best_match current_embedding known_faces_db
       = Ret (if Qgtb (sim f) main.SIMILARITY_THRESHOLD then face_utils.name f else "Unknown",
              length known_faces_db)).
Proof.
  intros Hdim Hnames sim. split; [|split].
  - intros f Hf. apply np_dot_similarity. symmetry.
    by apply (proj1 (Forall_forall _ _) Hdim).
  - by intros ->.
  - intros Hne.
    destruct (match_loop_inv current_embedding known_faces_db [] None (-1)%Q 0 Hdim)
      as (best & m & Hloop & Hinv).
    { left. split; [done|]. split; [done|]. intros f Hf. by apply elem_of_nil in Hf. }
    simpl app in Hinv.
    assert (main.best_match current_embedding known_faces_db
            = if truthy best then Ret (default "Unknown" best, length known_faces_db)
              else Ret ("Unknown", length known_faces_db)) as ->.
    { unfold main.best_match. destruct known_faces_db; [done|].
      rewrite Hloop. reflexivity. }
    destruct Hinv as [(-> & _ & Hbelow)|(i & f & Harg & Hf & -> & _)].
    + destruct (first_argmax_exists sim known_faces_db Hne) as (i & f & Harg).
      exists i, f. split; [done|].
      assert (Qgtb (sim f) main.SIMILARITY_THRESHOLD = false) as ->; [|done].
      apply Qgtb_false, Hbelow. destruct Harg as [Hi _]. by eapply list_elem_of_lookup_2.
    + exists i, f. split; [done|].
      assert (Qgtb (sim f) main.SIMILARITY_THRESHOLD = true) as -> by by apply Qgtb_true.
      assert (face_utils.name f ≠ "") as Hname.
      { rewrite Forall_forall in Hnames. apply Hnames.
        destruct Harg as [Hi _]. by eapply list_elem_of_lookup_2. }
      simpl. by rewrite bool_decide_eq_true_2.
Qed.

Lemma C1_best_match_witness :
  ∃ i f,
    first_argmax (λ f, similarity query_x (face_utils.embedding f)) [alice; bob] i f ∧
    main.best_match query_x [alice; bob]
      = Ret (if Qgtb (similarity query_x (face_utils.embedding f)) main.SIMILARITY_THRESHOLD
             then face_utils.name f else "Unknown", 2%nat).
Proof.
  apply (C1_best_match_first_maximum_above_threshold query_x [alice; bob]).
  - repeat constructor.
  - repeat constructor; discriminate.
  - discriminate.
Defined.

(** ** C10: the zoomed crop *)

Section ZoomedRegion.
Context `{Cv2}.

Lemma degenerate_test (x1 y1 x2 y2 : Z) :
  ((x2 - x1 <=? 0) || (y2 - y1 <=? 0))%Z = true ↔ degenerate (x1, y1, x2, y2).
Proof. unfold degenerate. rewrite orb_true_iff, !Z.leb_le. done. Qed.

(** The fallback is a black image of the target size, whenever that size
    is one. *)
Lemma black_spec (frame : ndimage) (target : Z * Z) :
  (0 <= target.1)%Z → (0 <= target.2)%Z →
  ∃ img, zoom_utils.black frame target = Ret (Some img) ∧
         Z.of_N (width img) = target.1 ∧ Z.of_N (height img) = target.2 ∧
         ∀ r c k, sample img r c k = 0%Z.
Proof.
  intros Hw Hh. unfold zoom_utils.black, np_zeros.
  assert ((target.2 <? 0)%Z = false) as -> by (apply Z.ltb_ge; lia).
  assert ((target.1 <? 0)%Z = false) as -> by (apply Z.ltb_ge; lia).
  assert ((match channels frame with Some c => Z.of_N c | None => 1 end <? 0)%Z = false)
    as -> by (apply Z.ltb_ge; destruct (channels frame); lia).
  eexists. split; [reflexivity|]. simpl. repeat split; lia.
Qed.


(** In the loop the target size is the frame's own, so the crop never
    raises. *)
Lemma get_zoomed_region_in_loop (frame : ndimage) (b : Z * Z * Z * Z) :
  ∃ z, zoom_utils.get_zoomed_region (Some frame) (Some b)
         (Z.of_N (width frame), Z.of_N (height frame)) zoom_utils.padding_factor_default
       = Ret z ∧ (z = None → degenerate b).
Proof.
  destruct (black_spec frame (Z.of_N (width frame), Z.of_N (height frame)))
    as (img & Hblack & _); [simpl; lia..|].
  unfold zoom_utils.get_zoomed_region.
  destruct b as [[[x1 y1] x2] y2].
  destruct (_ || _)%Z eqn:E.
  - exists None. split; [done|]. intros _. by apply degenerate_test.
  - destruct (_ =? _)%N; [by rewrite Hblack; eexists|].
    destruct (cv2_resize _ _); [by eexists|by rewrite Hblack; eexists].
Qed.

End ZoomedRegion.

Lemma resize_nearest_contract : @resize_contract cv2_model.
Proof.
  intros src dsize out. simpl. unfold resize_nearest.
  destruct (_ || _) eqn:E; [done|]. intros [= <-]. simpl.
  apply orb_false_iff in E as [E _]. apply orb_false_iff in E as [E1 E2].
  lia.
Qed.


(** ** C3: the pending greet target *)

Lemma best_match_name_nonempty (current_embedding : list Q)
    (known_faces_db : list face_utils.known_face) (n : string) (calls : nat) :
  main.best_match current_embedding known_faces_db = Ret (n, calls) → n ≠ "".
Proof.
  unfold main.best_match. destruct known_faces_db as [|f db]; [by intros [= <- _]|].
  destruct (main.match_loop _ _ _ _ _) as [[[best m] c]|e]; [|done].
  cbn [mbind result_bind]. destruct best as [x|]; simpl.
  - case_bool_decide; intros [= <- _]; done.
  - by intros [= <- _].
Qed.

Lemma process_frame_name_nonempty (detected_faces : list face_utils.Face)
    (known_faces_db : list face_utils.known_face) (w h : Z) (n : string) bb :
  main.process_frame detected_faces known_faces_db w h = Ret (Some n, bb) → n ≠ "".
Proof.
  unfold main.process_frame. destruct detected_faces; [done|].
  destruct (face_utils.get_center_most_face _ _ _) as [target|]; [|done].
  destruct (face_utils.normed_embedding target) as [emb|]; [|by intros [= <- _]].
  destruct (main.best_match emb known_faces_db) as [[n' c]|e] eqn:E; [|done].
  cbn [mbind result_bind]. intros [= <- _]. by eapply best_match_name_nonempty.
Qed.

Lemma greet_target_cases (n : string) (now : Q) (lg : gmap string Q) :
  main.greet_target n now lg = None ∨
  (main.greet_target n now lg = Some n ∧ n ≠ "Unknown").
Proof.
  unfold main.greet_target. case_bool_decide; [|by left].
  destruct (_ || _); [by right|by left].
Qed.

Lemma greet_target_Some (n : string) (now : Q) (lg : gmap string Q) :
  n ≠ "Unknown" →
  main.greet_target n now lg = Some n ↔
  lg !! n = None ∨ ∃ t0, lg !! n = Some t0 ∧ (main.GREETING_COOLDOWN_SECONDS < now - t0)%Q.
Proof.
  intros Hn. unfold main.greet_target. rewrite bool_decide_eq_true_2 by done.
  destruct (lg !! n) as [t0|] eqn:Hlg.
  - rewrite bool_decide_eq_false_2
      by (intros Hnot; apply Hnot, elem_of_dom; by eexists).
    cbn [orb default]. destruct (Qgtb _ _) eqn:E.
    + apply Qgtb_true in E. unfold id in E. split; [|done]. intros _. right. by exists t0.
    + apply Qgtb_false in E. split; [done|].
      intros [?|(t & [= <-] & Ht)]; [done|]. unfold id in E. lra.
  - rewrite bool_decide_eq_true_2 by (by apply not_elem_of_dom).
    cbn [orb]. split; [by left|done].
Qed.

Section Detection.
Context `{Cv2}.

(** C3. When a detection pass (zoom idle, detection interval elapsed)
    yields a recognized name [n] with a box, the zoom session activates
    with end time now + ZOOM_DURATION, and the pending greet target is [n]
    iff [n] is not in [last_greeted_time] or now minus its timestamp
    strictly exceeds GREETING_COOLDOWN; otherwise, and so for a second
    match within the cooldown, no greet is pending. *)
Theorem C3_pending_greet_iff_cooldown_elapsed
    (known_faces_db : list face_utils.known_face) (frame : ndimage) (r : main.reading)
    (st : main.state) (display_frame : ndimage) (n : string) (b : Z * Z * Z * Z) :
  main.zoom_active st = false →
  (main.DETECTION_INTERVAL_SECONDS < main.time_time r - main.last_detection_run_time st)%Q →
  main.process_frame (main.model_get r (main.USE_LOW_LIGHT_ENHANCEMENT st)) known_faces_db
    (Z.of_N (width frame)) (Z.of_N (height frame)) = Ret (Some n, Some b) →
  n ≠ "Unknown" →
  ∃ st' display_frame',
    main.detection_logic known_faces_db frame r st display_frame = Ret (st', display_frame') ∧
    main.zoom_active st' = true ∧
    main.zoom_return_time st' = (main.time_time r + main.ZOOM_DURATION_SECONDS)%Q ∧
    main.current_processing_bbox_for_zoom st' = Some b ∧
    (main.name_to_greet_after_zoom st' = Some n ↔
     main.last_greeted_time st !! n = None ∨
     ∃ t0, main.last_greeted_time st !! n = Some t0 ∧
           (main.GREETING_COOLDOWN_SECONDS < main.time_time r - t0)%Q) ∧
    (main.name_to_greet_after_zoom st' ≠ Some n → main.name_to_greet_after_zoom st' = None) ∧
    (∀ t0, main.last_greeted_time st !! n = Some t0 →
           (main.time_time r - t0 <= main.GREETING_COOLDOWN_SECONDS)%Q →
           main.name_to_greet_after_zoom st' = None).
Proof.
  intros Hidle Hdue Hframe Hn.
  pose proof (process_frame_name_nonempty _ _ _ _ _ _ Hframe) as Hne.
  unfold main.detection_logic. rewrite Hidle.
  apply Qgtb_true in Hdue. rewrite Hdue. cbn [negb andb].
  rewrite Hframe. cbn [mbind result_bind truthy].
  rewrite bool_decide_eq_true_2 by done.
  destruct (get_zoomed_region_in_loop frame b) as (z & -> & _).
  cbn [mbind result_bind default].
  eexists _, _. split; [reflexivity|]. cbn.
  split; [done|]. split; [done|]. split; [done|].
  pose proof (greet_target_Some n (main.time_time r) (main.last_greeted_time st) Hn) as Hiff.
  split; [exact Hiff|]. split.
  - destruct (greet_target_cases n (main.time_time r) (main.last_greeted_time st))
      as [->|[-> _]]; done.
  - intros t0 Ht0 Hwithin.
    destruct (greet_target_cases n (main.time_time r) (main.last_greeted_time st))
      as [->|[Hsome _]]; [done|].
    apply Hiff in Hsome as [?|(t & Ht & Hlt)]; [congruence|].
    assert (t = t0) as -> by congruence. lra.
Qed.
End Detection.

Lemma C3_pending_greet_witness :
  ∃ st' display_frame',
    @main.detection_logic cv2_model [alice; bob] frame_100 (reading_at 1 [face_alice] (-1))
      main.initial frame_100 = Ret (st', display_frame') ∧
    main.zoom_active st' = true ∧
    main.name_to_greet_after_zoom st' = Some "Alice".
Proof.
  destruct (@C3_pending_greet_iff_cooldown_elapsed cv2_model [alice; bob] frame_100
              (reading_at 1 [face_alice] (-1)) main.initial frame_100
              "Alice" (40, 40, 60, 60)%Z)
    as (st' & d & Hrun & Hzoom & _ & _ & Hiff & _).
  - reflexivity.
  - reflexivity.
  - reflexivity.
  - discriminate.
  - exists st', d. split; [exact Hrun|]. split; [exact Hzoom|].
    apply Hiff. left. reflexivity.
Defined.

(** ** C2: the zoom session *)

Section Session.
Context `{Cv2}.

(** A detection pass that leaves the zoom active has just begun a
    session: its end time is now + ZOOM_DURATION, and its pending greet
    target, if any, is a proper name. *)
Lemma detection_entry (known_faces_db : list face_utils.known_face) (frame : ndimage)
    (r : main.reading) (st0 st : main.state) (display0 display : ndimage) :
  main.zoom_active st0 = false →
  main.detection_logic known_faces_db frame r st0 display0 = Ret (st, display) →
  main.zoom_active st = true →
  main.zoom_return_time st = (main.time_time r + main.ZOOM_DURATION_SECONDS)%Q ∧
  main.last_greeted_time st = main.last_greeted_time st0 ∧
  (main.name_to_greet_after_zoom st = None ∨
   ∃ n, main.name_to_greet_after_zoom st = Some n ∧ n ≠ "" ∧ n ≠ "Unknown").
Proof.
  intros Hidle Hrun Hactive. unfold main.detection_logic in Hrun.
  destruct (_ && _); [|simplify_eq; congruence].
  destruct (main.process_frame _ _ _ _) as [[rn fb]|e] eqn:Hframe; [|done].
  cbn [mbind result_bind] in Hrun.
  destruct fb as [b|]; [|simplify_eq; simpl in *; congruence].
  destruct (truthy rn) eqn:Htruthy; [|simplify_eq; simpl in *; congruence].
  destruct (zoom_utils.get_zoomed_region _ _ _ _) as [z|e]; [|done].
  cbn [mbind result_bind] in Hrun. injection Hrun as <- _. cbn.
  split; [done|]. split; [done|].
  destruct rn as [n|]; [|done]. simpl in Htruthy. apply bool_decide_eq_true in Htruthy.
  cbn [default]. unfold id.
  destruct (greet_target_cases n (main.time_time r) (main.last_greeted_time st0))
    as [->|[-> Hn]]; [by left|].
  right. by exists n.
Qed.

(** A pass inside the session leaves it as it is and speaks nothing. *)
Lemma session_pass (known_faces_db : list face_utils.known_face) (entry st : main.state)
    (r : main.reading) (b : Z * Z * Z * Z) :
  in_session entry st →
  main.current_processing_bbox_for_zoom entry = Some b → ¬ degenerate b →
  is_Some (main.cap_read r) →
  (main.time_time r < main.zoom_return_time entry)%Q →
  Z.land (main.waitKey r) 255 ≠ 113%Z →
  ∃ st' evs,
    main.iteration known_faces_db r st = (st', evs, Continue) ∧
    in_session entry st' ∧ main.spoken evs = [].
Proof.
  intros (Hactive & Hret & Hname & Hbox & Hlg) Hb Hproper [frame Hframe] Hbefore Hkey.
  unfold main.iteration. rewrite Hframe.
  unfold main.zoom_logic. rewrite Hactive, Hret.
  apply Qgeb_false in Hbefore. rewrite Hbefore. rewrite Hbox, Hb.
  destruct (get_zoomed_region_in_loop frame b) as (z & -> & Hz).
  destruct z as [zoomed|]; [|by destruct Hproper; apply Hz].
  cbn [mbind result_bind].
  unfold main.detection_logic. rewrite Hactive. cbn [negb andb].
  unfold main.handle_key.
  destruct (Z.land _ _ =? 113)%Z eqn:Hq; [by apply Z.eqb_eq in Hq|].
  destruct (Z.land _ _ =? 108)%Z; eexists _, _; (split; [reflexivity|]);
    (split; [|done]); repeat split; simpl; congruence.
Qed.

Lemma session_run (known_faces_db : list face_utils.known_face) (entry : main.state)
    (b : Z * Z * Z * Z) (pre : list main.reading) (st : main.state) :
  main.current_processing_bbox_for_zoom entry = Some b → ¬ degenerate b →
  Forall (λ r, is_Some (main.cap_read r) ∧
               (main.time_time r < main.zoom_return_time entry)%Q ∧
               Z.land (main.waitKey r) 255 ≠ 113%Z) pre →
  in_session entry st →
  ∃ st' evs,
    main.main_loop known_faces_db pre st = (st', evs, Continue) ∧
    in_session entry st' ∧ main.spoken evs = [].
Proof.
  intros Hb Hproper Hpre. revert st.
  induction Hpre as [|r pre (Hframe & Hbefore & Hkey) _ IH]; intros st Hin.
  - eexists _, _. by split.
  - destruct (session_pass known_faces_db entry st r b) as (st1 & evs1 & Hpass & Hin1 & Hq1);
      [done..|].
    destruct (IH st1 Hin1) as (st2 & evs2 & Hrun & Hin2 & Hq2).
    cbn [main.main_loop]. rewrite Hpass, Hrun.
    eexists _, _. split; [reflexivity|]. split; [done|].
    unfold main.spoken in *. by rewrite omap_app, Hq1, Hq2.
Qed.

(** The pass that finds the end time reached: the zoom logic returns to
    idle, greets the pending target if there is one and stamps it, and
    clears it; the rest of the pass speaks nothing more. *)
Lemma session_end (known_faces_db : list face_utils.known_face) (entry st : main.state)
    (r : main.reading) (frame : ndimage) :
  in_session entry st →
  (main.name_to_greet_after_zoom entry = None ∨
   ∃ n, main.name_to_greet_after_zoom entry = Some n ∧ n ≠ "" ∧ n ≠ "Unknown") →
  main.cap_read r = Some frame →
  (main.zoom_return_time entry <= main.time_time r)%Q →
  ∃ st_idle display greets,
    main.zoom_logic frame (main.time_time r) st frame = Ret (st_idle, display, greets) ∧
    main.zoom_active st_idle = false ∧
    main.name_to_greet_after_zoom st_idle = None ∧
    match main.name_to_greet_after_zoom entry with
    | Some n =>
        greets = [main.Speak (main.greeting_text n)] ∧
        main.last_greeted_time st_idle
          = <[n := main.time_time r]> (main.last_greeted_time entry)
    | None =>
        greets = [] ∧ main.last_greeted_time st_idle = main.last_greeted_time entry
    end ∧
    ∃ st_end evs c,
      main.iteration known_faces_db r st = (st_end, evs, c) ∧
      main.spoken evs = main.spoken greets.
Proof.
  intros (Hactive & Hret & Hname & Hbox & Hlg) Hpending Hframe Hreached.
  unfold main.iteration. rewrite Hframe.
  unfold main.zoom_logic. rewrite Hactive, Hret.
  apply Qgeb_true in Hreached. rewrite Hreached. rewrite Hname, Hlg.
  eexists _, _, _. split; [reflexivity|]. cbn.
  split; [done|]. split; [done|]. split.
  - destruct Hpending as [->|(n & -> & Hn1 & Hn2)]; [done|]. simpl.
    rewrite !bool_decide_eq_true_2 by congruence. done.
  - match goal with
    | |- context [main.detection_logic ?db ?f ?r ?s ?d] =>
        destruct (main.detection_logic db f r s d) as [[st2 d2]|e]
    end.
    + destruct (main.handle_key _ _) as [st3 c]. eexists _, _, _.
      split; [reflexivity|]. unfold main.spoken. rewrite omap_app. simpl.
      by rewrite app_nil_r.
    + eexists _, _, _. split; [reflexivity|]. done.
Qed.

(** C2 (as the code has it). A zoom session entered by a detection pass
    at time T, for a box of positive width and height: at every later pass
    with time before T + ZOOM_DURATION the zoom is still active and
    nothing is spoken; at the first pass with time at or after
    T + ZOOM_DURATION the zoom logic returns to idle, dispatches exactly
    one greet if a pending target was recorded (none otherwise), for that
    target only, stamps its last-greeted time to now, and clears the
    pending target. *)
Theorem C2_zoom_session_holds_until_return_time
    (known_faces_db : list face_utils.known_face)
    (frame0 : ndimage) (r0 : main.reading) (st0 : main.state) (display0 : ndimage)
    (entry : main.state) (display : ndimage) (b : Z * Z * Z * Z)
    (pre : list main.reading) (last : main.reading) (frame : ndimage) :
  main.zoom_active st0 = false →
  main.detection_logic known_faces_db frame0 r0 st0 display0 = Ret (entry, display) →
  main.zoom_active entry = true →
  main.current_processing_bbox_for_zoom entry = Some b →
  ¬ degenerate b →
  Forall (λ r, is_Some (main.cap_read r) ∧
               (main.time_time r < main.time_time r0 + main.ZOOM_DURATION_SECONDS)%Q ∧
               Z.land (main.waitKey r) 255 ≠ 113%Z) pre →
  main.cap_read last = Some frame →
  (main.time_time r0 + main.ZOOM_DURATION_SECONDS <= main.time_time last)%Q →
  (∀ k, ∃ st_k evs,
      main.main_loop known_faces_db (take k pre) entry = (st_k, evs, Continue) ∧
      in_session entry st_k ∧ main.spoken evs = []) ∧
  (∃ st_pre evs_pre st_idle display' greets,
      main.main_loop known_faces_db pre entry = (st_pre, evs_pre, Continue) ∧
      main.zoom_logic frame (main.time_time last) st_pre frame
        = Ret (st_idle, display', greets) ∧
      main.zoom_active st_idle = false ∧
      main.name_to_greet_after_zoom st_idle = None ∧
      match main.name_to_greet_after_zoom entry with
      | Some n =>
          greets = [main.Speak (main.greeting_text n)] ∧
          main.last_greeted_time st_idle
            = <[n := main.time_time last]> (main.last_greeted_time entry)
      | None =>
          greets = [] ∧ main.last_greeted_time st_idle = main.last_greeted_time entry
      end ∧
      ∃ st_end evs c,
        main.iteration known_faces_db last st_pre = (st_end, evs, c) ∧
        main.spoken evs = main.spoken greets).
Proof.
  intros Hidle Hentry Hactive Hb Hproper Hpre Hframe Hreached.
  destruct (detection_entry _ _ _ _ _ _ _ Hidle Hentry Hactive) as (Hret & _ & Hpending).
  rewrite <- Hret in Hpre, Hreached.
  assert (in_session entry entry) as Hin by done.
  split.
  - intros k. apply (session_run known_faces_db entry b); [done..| |done].
    by apply Forall_take.
  - destruct (session_run known_faces_db entry b pre entry) as (st_pre & evs_pre & Hrun & Hin' & _);
      [done..|].
    destruct (session_end known_faces_db entry st_pre last frame Hin' Hpending Hframe Hreached)
      as (st_idle & d & greets & Hz & H1 & H2 & H3 & H4).
    by exists st_pre, evs_pre, st_idle, d, greets.
Qed.
End Session.

Lemma entry_alice_entered :
  ∃ display,
    @main.detection_logic cv2_model [alice; bob] frame_100 (reading_at 1 [face_alice] (-1))
      main.initial frame_100 = Ret (entry_alice, display).
Proof. eexists. reflexivity. Qed.

Lemma C2_zoom_session_witness :
  ∃ st_pre evs_pre st_idle display' greets,
    @main.main_loop cv2_model [alice; bob] passes_alice entry_alice
      = (st_pre, evs_pre, Continue) ∧
    @main.zoom_logic cv2_model frame_100 3 st_pre frame_100 = Ret (st_idle, display', greets) ∧
    main.zoom_active st_idle = false ∧
    main.name_to_greet_after_zoom st_idle = None ∧
    greets = [main.Speak (main.greeting_text "Alice")] ∧
    main.last_greeted_time st_idle = <["Alice" := 3%Q]> ∅.
Proof.
  destruct entry_alice_entered as [display Hentry].
  destruct (@C2_zoom_session_holds_until_return_time cv2_model [alice; bob]
              frame_100 (reading_at 1 [face_alice] (-1)) main.initial frame_100
              entry_alice display (40, 40, 60, 60)%Z
              passes_alice (reading_at 3 [face_alice] (-1)) frame_100)
    as (_ & st_pre & evs_pre & st_idle & d & greets & Hrun & Hz & Hidle & Hnone & Hgreet & _).
  - reflexivity.
  - exact Hentry.
  - reflexivity.
  - reflexivity.
  - unfold degenerate. lia.
  - repeat constructor; simpl; try done; by eexists.
  - reflexivity.
  - simpl. unfold main.ZOOM_DURATION_SECONDS. lra.
  - exists st_pre, evs_pre, st_idle, d, greets. simpl in Hgreet.
    destruct Hgreet as [Hg Hlg]. done.
Defined.

(** C2, the claim as stated, fails: a session entered at time 1 for a box
    that has no width reports idle at time 2, before 1 + ZOOM_DURATION. *)
Lemma C2_degenerate_box_ends_session_early :
  main.zoom_active
    (@main.main_loop cv2_model [alice; bob] [reading_at 1 [face_sliver] (-1)] main.initial).1.1
    = true ∧
  main.zoom_return_time
    (@main.main_loop cv2_model [alice; bob] [reading_at 1 [face_sliver] (-1)] main.initial).1.1
    = (1 + main.ZOOM_DURATION_SECONDS)%Q ∧
  (2 < 1 + main.ZOOM_DURATION_SECONDS)%Q ∧
  main.zoom_active
    (@main.main_loop cv2_model [alice; bob]
       [reading_at 1 [face_sliver] (-1); reading_at 2 [] (-1)] main.initial).1.1
    = false.
Proof. repeat split. Qed.

(** ** C4: loading the store *)

Section LoadFacts.
Context `{Numpy}.

(** When every embedding converts, the validation loop keeps exactly the
    items that stand for a record, in the file's order, and prints one
    warning for each item it drops. *)
Lemma validate_convertible (data : list pyval) (valid_data : list face_utils.known_face)
    (out : list face_utils.printed) :
  Forall convertible data →
  face_utils.validate data valid_data out
  = (out ++ omap warning_of data, Ret (valid_data ++ omap entry_of data)).
Proof.
  intros Hconv. revert valid_data out.
  induction Hconv as [|item data Hitem _ IH]; intros valid_data out.
  - simpl. by rewrite !app_nil_r.
  - cbn [face_utils.validate omap list_omap]. unfold entry_of at 1, warning_of at 1.
    destruct item as [x|s|a|l|d]; try (rewrite IH; by rewrite <- app_assoc).
    destruct (dict_get d "name") as [n|] eqn:Hn; [|rewrite IH; by rewrite <- app_assoc].
    destruct (dict_get d "embedding") as [e|] eqn:He;
      [|destruct n; rewrite IH; by rewrite <- app_assoc].
    destruct (Hitem d n e eq_refl Hn He) as [emb ->].
    destruct n as [x|s|a|l|d']; rewrite IH; by rewrite <- app_assoc.
Qed.

Lemma load_known_faces_returns (file : face_utils.db_file) :
  ∃ out l, face_utils.load_known_faces file = (out, Ret l).
Proof.
  unfold face_utils.load_known_faces.
  destruct (face_utils.load_body file) as [out [l|e]]; [by eexists _, _|].
  destruct e; by eexists _, _.
Qed.

(** C4 (as the code has it). [load_known_faces] never raises: it always
    returns a list.  When the file is missing, unreadable or no complete
    pickle it returns the empty list and prints one message; when the
    file holds something other than a list it prints a warning and returns
    the empty list; when it holds a list in which every entry carrying
    both fields has an embedding numpy can convert, it drops the entries
    that lack the name or the embedding field or whose name is not a
    string, printing a warning for each, and returns all the others, in
    order. *)
Theorem C4_load_returns_valid_entries (file : face_utils.db_file) :
  (∃ out l, face_utils.load_known_faces file = (out, Ret l)) ∧
  (∀ e, face_utils.open_rb_and_load file = Raise e →
        ∃ msg, face_utils.load_known_faces file = ([msg], Ret []) ∧
               (msg = face_utils.Could_not_load e ∨ msg = face_utils.Unexpected_error e)) ∧
  (∀ v, file = face_utils.Pickled v → (∀ data, v ≠ PyList data) →
        face_utils.load_known_faces file = ([face_utils.Not_a_list], Ret [])) ∧
  (∀ data, file = face_utils.Pickled (PyList data) → Forall convertible data →
           face_utils.load_known_faces file
           = (omap warning_of data ++ [face_utils.Loaded (length (omap entry_of data))],
              Ret (omap entry_of data))).
Proof.
  split; [apply load_known_faces_returns|]. split; [|split].
  - intros e He. unfold face_utils.load_known_faces, face_utils.load_body. rewrite He.
    destruct e; eexists; (split; [reflexivity|]); by (left + right).
  - intros v -> Hv. unfold face_utils.load_known_faces, face_utils.load_body. simpl.
    destruct v; try done. by destruct (Hv l).
  - intros data -> Hconv.
    unfold face_utils.load_known_faces, face_utils.load_body. simpl.
    by rewrite (validate_convertible data [] [] Hconv).
Qed.

(** What enrollment writes loads back as it was, when an array converts to
    itself. *)
Lemma validate_pickle_of (db valid_data : list face_utils.known_face)
    (out : list face_utils.printed) :
  (∀ a, np_array_f32 (PyArray a) = Ret a) →
  face_utils.validate
    ((λ f, PyDict [("name", PyStr (face_utils.name f));
                   ("embedding", PyArray (face_utils.embedding f))]) <$> db)
    valid_data out
  = (out, Ret (valid_data ++ db)).
Proof.
  intros Hid. revert valid_data.
  induction db as [|[n e] db IH]; intros valid_data; simpl.
  - by rewrite app_nil_r.
  - rewrite Hid, IH. by rewrite <- app_assoc.
Qed.

Lemma load_pickle_of (db : list face_utils.known_face) :
  (∀ a, np_array_f32 (PyArray a) = Ret a) →
  (face_utils.load_known_faces (face_utils.Pickled (face_utils.pickle_of db))).2 = Ret db.
Proof.
  intros Hid. unfold face_utils.load_known_faces, face_utils.load_body, face_utils.pickle_of.
  simpl. by rewrite validate_pickle_of.
Qed.
End LoadFacts.

Lemma C4_load_witness :
  @face_utils.load_known_faces numpy_model
    (face_utils.Pickled (PyList [item_alice; PyStr "junk"; item_of "Bob" (PyList [PyNum 1])]))
  = ([face_utils.Skipping_malformed_item; face_utils.Loaded 2],
     Ret [alice; {| face_utils.name := "Bob"; face_utils.embedding := [1%Q] |}]).
Proof.
  destruct (@C4_load_returns_valid_entries numpy_model
              (face_utils.Pickled
                 (PyList [item_alice; PyStr "junk"; item_of "Bob" (PyList [PyNum 1])])))
    as (_ & _ & _ & Hlist).
  apply (Hlist _ eq_refl).
  apply Forall_cons_2; [|apply Forall_cons_2; [|apply Forall_cons_2; [|apply Forall_nil_2]]];
    intros d n e Hd Hn He; try discriminate Hd;
    injection Hd as <-; injection He as <-; by eexists.
Defined.

(** C4, the claim as stated, fails twice.  An entry is not dropped
    silently: a warning is printed for it.  And not all remaining valid
    entries are returned: a list holding Alice's valid record and a record
    whose embedding is a dict loads as the empty list. *)
Lemma C4_unconvertible_embedding_empties_the_load :
  @face_utils.load_known_faces numpy_model
    (face_utils.Pickled (PyList [item_alice; PyStr "junk"]))
  = ([face_utils.Skipping_malformed_item; face_utils.Loaded 1], Ret [alice]) ∧
  @face_utils.load_known_faces numpy_model
    (face_utils.Pickled (PyList [item_alice; item_bob_broken]))
  = ([face_utils.Unexpected_error TypeError], Ret []) ∧
  @entry_of numpy_model item_alice = Some alice.
Proof. repeat split. Qed.

(** ** C5: saving the store *)

(** C5 (as the code has it). [save_known_faces] overwrites the file in
    place and never raises: when nothing fails the file holds the complete
    new store, which [load_known_faces] then returns (an array converting
    to itself); when [open] fails the previous content is kept; when
    [pickle.dump] fails after [open] has emptied the file, the file is left
    with a partial pickle, from which [load_known_faces] returns the empty
    list.  A failure is printed, and the call returns normally either
    way. *)
Theorem C5_save_overwrites_in_place `{Numpy}
    (data : list face_utils.known_face) (file : face_utils.db_file) :
  face_utils.save_known_faces data file face_utils.NoFault
    = (face_utils.Pickled (face_utils.pickle_of data), [face_utils.Saved (length data)], Ret ()) ∧
  ((∀ a, np_array_f32 (PyArray a) = Ret a) →
   (face_utils.load_known_faces
      (face_utils.save_known_faces data file face_utils.NoFault).1.1).2 = Ret data) ∧
  (∀ e, face_utils.save_known_faces data file (face_utils.OpenFails e)
        = (file, [face_utils.Error_saving e], Ret ())) ∧
  (∀ e, face_utils.save_known_faces data file (face_utils.DumpFails e)
        = (face_utils.Partial, [face_utils.Error_saving e], Ret ()) ∧
        face_utils.load_known_faces
          (face_utils.save_known_faces data file (face_utils.DumpFails e)).1.1
        = ([face_utils.Could_not_load EOFError], Ret [])).
Proof.
  split; [done|]. split; [|done].
  intros Hid. by apply load_pickle_of.
Qed.

Lemma C5_save_witness :
  (@face_utils.load_known_faces numpy_model
     (face_utils.save_known_faces [alice; bob] face_utils.Missing face_utils.NoFault).1.1).2
  = Ret [alice; bob].
Proof.
  destruct (@C5_save_overwrites_in_place numpy_model [alice; bob] face_utils.Missing)
    as (_ & Hback & _).
  apply Hback. reflexivity.
Defined.

(** C5, the claim as stated, fails: a write that fails after the file was
    opened leaves neither the new store nor the previous content. *)
Lemma C5_failed_dump_leaves_partial_file :
  (face_utils.save_known_faces [alice; bob]
     (face_utils.Pickled (face_utils.pickle_of [alice])) (face_utils.DumpFails OSError)).1.1
  = face_utils.Partial ∧
  face_utils.Partial ≠ face_utils.Pickled (face_utils.pickle_of [alice; bob]) ∧
  face_utils.Partial ≠ face_utils.Pickled (face_utils.pickle_of [alice]).
Proof. done. Qed.

(** ** C6: one record per name *)

Lemma names_of_filter (P : face_utils.known_face → Prop) `{∀ f, Decision (P f)}
    (db : list face_utils.known_face) (x : string) :
  x ∈ face_utils.name <$> filter P db →
  ∃ f, x = face_utils.name f ∧ P f ∧ f ∈ db.
Proof.
  intros Hx. apply list_elem_of_fmap in Hx as (f & -> & Hf).
  apply list_elem_of_filter in Hf as [HP Hf]. by exists f.
Qed.

Lemma unique_names_filter (P : face_utils.known_face → Prop) `{∀ f, Decision (P f)}
    (db : list face_utils.known_face) :
  unique_names db → unique_names (filter P db).
Proof.
  unfold unique_names. induction db as [|f db IH]; [done|].
  rewrite fmap_cons, NoDup_cons. intros [Hf Hdb].
  rewrite filter_cons. destruct (decide (P f)); [|by apply IH].
  rewrite fmap_cons, NoDup_cons. split; [|by apply IH].
  intros Hin. apply names_of_filter in Hin as (g & Hg & _ & Hgdb).
  apply Hf. rewrite Hg. by apply list_elem_of_fmap_2.
Qed.

(** Appending a record under a name the store does not hold. *)
Lemma unique_names_append (db : list face_utils.known_face) (n : string) (e : list Q) :
  unique_names db → n ∉ face_utils.name <$> db →
  unique_names (db ++ [{| face_utils.name := n; face_utils.embedding := e |}]).
Proof.
  unfold unique_names. intros Hdb Hn. rewrite fmap_app. apply NoDup_app.
  split; [done|]. split; [|apply NoDup_singleton].
  intros x Hx Hx'. apply list_elem_of_singleton in Hx'. simpl in Hx'. by subst.
Qed.

(** Replacing the record under a name: remove it, then append. *)
Lemma unique_names_replace (db : list face_utils.known_face) (n : string) (e : list Q) :
  unique_names db →
  unique_names (filter (λ f, face_utils.name f ≠ n) db
                ++ [{| face_utils.name := n; face_utils.embedding := e |}]).
Proof.
  intros Hdb. apply unique_names_append; [by apply unique_names_filter|].
  intros Hin. apply names_of_filter in Hin as (g & Hg & Hne & _). by apply Hne.
Qed.

Section Enrollment.
Context `{Numpy}.

(** The still-image enrollment keeps one record per name, and enrolls
    under the trimmed name, which is not empty. *)
Lemma enroll_from_image_unique (env : enroll_from_image.surroundings) (person_name : string)
    (db db' : list face_utils.known_face) :
  (face_utils.load_known_faces (enroll_from_image.file env)).2 = Ret db →
  unique_names db →
  enroll_from_image.saved (enroll_from_image.enroll_from_image env person_name) = Some db' →
  unique_names db' ∧ py_strip person_name ≠ "" ∧
  py_strip person_name ∈ face_utils.name <$> db'.
Proof.
  intros Hload Hdb. unfold enroll_from_image.enroll_from_image.
  destruct (negb _); [done|]. destruct (negb _); [done|].
  destruct (enroll_from_image.imread env); [|done].
  destruct (enroll_from_image.select_target _) as [target|]; [|done].
  destruct (face_utils.normed_embedding target) as [emb|]; [|done].
  rewrite Hload.
  case_bool_decide as Hempty; [done|].
  case_bool_decide as Hknown.
  - destruct (enroll_from_image.overwrite_input env) as [line| |]; [|done..].
    case_bool_decide; [done|]. simpl. intros [= <-].
    split; [by apply unique_names_replace|]. split; [done|].
    rewrite fmap_app. apply elem_of_app. right. by apply list_elem_of_singleton.
  - simpl. intros [= <-].
    split; [|split; [done|]].
    + apply unique_names_append; [done|].
      intros Hin. apply Hknown. by apply elem_of_list_to_set.
    + rewrite fmap_app. apply elem_of_app. right. by apply list_elem_of_singleton.
Qed.
End Enrollment.

Lemma append_and_save_inv (r : face_enroll.reading) (st : face_enroll.state)
    (db : list face_utils.known_face) (n : string) (e : list Q) :
  unique_names (db ++ [{| face_utils.name := n; face_utils.embedding := e |}]) →
  (∀ f, f ∈ db → face_utils.name f ∈ face_enroll.enrolled_names st) →
  store_inv (face_enroll.append_and_save r st db n e).1.1.
Proof.
  intros Huniq Hnames. split; [exact Huniq|]. simpl.
  intros f Hf. apply elem_of_app in Hf as [Hf|Hf].
  - apply elem_of_union_r. by apply Hnames.
  - apply list_elem_of_singleton in Hf as ->. simpl. by apply elem_of_union_l, elem_of_singleton.
Qed.

Lemma prompt_and_enroll_inv (r : face_enroll.reading) (st : face_enroll.state) (e : list Q) :
  store_inv st → store_inv (face_enroll.prompt_and_enroll r st e).1.1.
Proof.
  intros [Huniq Hnames]. unfold face_enroll.prompt_and_enroll.
  destruct (face_enroll.name_input r) as [line| |]; [|done..].
  destruct (_ || _); [done|].
  case_bool_decide as Hknown.
  - destruct (face_enroll.overwrite_input r) as [answer| |]; [|done..].
    case_bool_decide; [done|].
    apply append_and_save_inv; [by apply unique_names_replace|].
    intros f Hf. apply list_elem_of_filter in Hf as [_ Hf]. by apply Hnames.
  - apply append_and_save_inv; [|done].
    apply unique_names_append; [done|].
    intros Hin. apply list_elem_of_fmap in Hin as (f & Hf & Hfdb).
    apply Hknown. rewrite Hf. by apply Hnames.
Qed.

(** A pass of the live enrollment keeps one record per name. *)
Lemma face_enroll_iteration_inv (r : face_enroll.reading) (st : face_enroll.state) :
  store_inv st → store_inv (face_enroll.iteration r st).1.1.
Proof.
  intros Hinv. unfold face_enroll.iteration.
  destruct (face_enroll.cap_read r) as [live_frame|]; [|done].
  set (st1 := if Qgtb _ _ then _ else st).
  assert (store_inv st1) as Hinv1 by (subst st1; by destruct (Qgtb _ _)).
  clearbody st1.
  destruct (_ =? face_enroll.CAPTURE_KEY)%Z; [|by destruct (_ =? _)%Z].
  unfold face_enroll.on_capture.
  destruct (Qltb _ _); [done|]. cbn [face_enroll.target_face_obj_for_preview].
  destruct (face_enroll.target_face_obj_for_preview st1); [|done].
  destruct (face_enroll.model_get_frozen r) as [|f0 fs]; [done|].
  destruct (face_utils.get_center_most_face _ _ _) as [target|]; [|done].
  destruct (face_utils.normed_embedding target) as [[|x emb]|]; [done| |done].
  by apply prompt_and_enroll_inv.
Qed.

(** C6 (as the code has it). Enrollment keeps the invariant of at most one
    record per name: the still-image enrollment of a store with one record
    per name saves a store with one record per name, holding a record under
    the trimmed, non-empty name; a pass of the live enrollment does the
    same, and the live enrollment starts from what [load_known_faces]
    returns; and what enrollment saves, [load_known_faces] returns
    unchanged (an array converting to itself).  [load_known_faces] itself
    removes no duplicate. *)
Theorem C6_enrollment_keeps_one_record_per_name `{Numpy} :
  (∀ env person_name db db',
     (face_utils.load_known_faces (enroll_from_image.file env)).2 = Ret db →
     unique_names db →
     enroll_from_image.saved (enroll_from_image.enroll_from_image env person_name) = Some db' →
     unique_names db' ∧ py_strip person_name ≠ "" ∧
     py_strip person_name ∈ face_utils.name <$> db') ∧
  (∀ f db st,
     (face_utils.load_known_faces f).2 = Ret db → unique_names db →
     face_enroll.start f = Ret st → store_inv st) ∧
  (∀ r st, store_inv st → store_inv (face_enroll.iteration r st).1.1) ∧
  (∀ db, (∀ a, np_array_f32 (PyArray a) = Ret a) →
         (face_utils.load_known_faces (face_utils.Pickled (face_utils.pickle_of db))).2 = Ret db).
Proof.
  split; [|split; [|split]].
  - intros env person_name db db'. apply enroll_from_image_unique.
  - intros f db st Hload Hdb. unfold face_enroll.start. rewrite Hload.
    cbn [mbind result_bind]. intros [= <-]. split; [done|]. simpl.
    intros g Hg. apply elem_of_list_to_set. by apply list_elem_of_fmap_2.
  - apply face_enroll_iteration_inv.
  - apply load_pickle_of.
Qed.

Lemma C6_enrollment_witness :
  unique_names [bob; {| face_utils.name := "Alice"; face_utils.embedding := query_x |}] ∧
  store_inv (face_enroll.iteration (capture_at 10 (Typed " Alice ")) enroll_start).1.1.
Proof.
  destruct (@C6_enrollment_keeps_one_record_per_name numpy_model) as (Himage & _ & Hpass & _).
  split.
  - apply (Himage image_of_alice " Alice " [bob]); [reflexivity| |reflexivity].
    apply NoDup_singleton.
  - apply Hpass.
    split; [apply NoDup_nil_2|]. intros f Hf. by apply elem_of_nil in Hf.
Defined.

(** C6, the claim as stated, fails: [load_known_faces] returns two records
    under one name when the file holds them. *)
Lemma C6_load_returns_duplicate_names :
  (@face_utils.load_known_faces numpy_model
     (face_utils.Pickled (PyList [item_alice; item_alice_again]))).2
  = Ret [alice; {| face_utils.name := "Alice"; face_utils.embedding := [1; 0]%Q |}] ∧
  face_utils.name alice
  = face_utils.name {| face_utils.name := "Alice"; face_utils.embedding := [1; 0]%Q |}.
Proof. split; reflexivity. Qed.

(** ** C7: the speech gate *)

(** [Qmax] returns one of its arguments. *)
Lemma Qmax_cases (x y : Q) :
  ((y <= x)%Q ∧ Qmax x y = x) ∨ ((x < y)%Q ∧ Qmax x y = y).
Proof.
  unfold Qmax, GenericMinMax.gmax.
  destruct (x ?= y)%Q eqn:E.
  - left. split; [|done]. apply Qeq_alt in E. lra.
  - right. split; [|done]. by apply Qlt_alt.
  - left. split; [|done]. apply Qgt_alt in E. lra.
Qed.

(** A request that starts [say] successfully leaves the completion time of
    that speech in [last_tts_call_time], and the lock free from then on. *)
Lemma speak_task_invoked (rq : tts.request) (g g' : tts.gate) (start : Q) :
  tts._speak_task rq g = (tts.Invoked start, g') →
  tts.last_tts_call_time g' = (start + tts.say_duration rq)%Q ∧
  tts.lock_free_at g' = (start + tts.say_duration rq)%Q.
Proof.
  unfold tts._speak_task. destruct (Qltb _ _); [done|].
  destruct (tts.say_outcome rq); [|done..]. by intros [= <- <-].
Qed.

(** The gate after a successful invocation, and the next request. *)
Lemma gate_after_invocation (prev rq : tts.request) (g0 g1 : tts.gate) (start : Q) :
  tts._speak_task prev g0 = (tts.Invoked start, g1) →
  let done_at := (start + tts.say_duration prev)%Q in
  ((tts.called_at rq < done_at + tts.TTS_MIN_INTERVAL)%Q →
   (tts._speak_task rq g1).1 = tts.Dropped) ∧
  ((done_at + tts.TTS_MIN_INTERVAL <= tts.called_at rq)%Q →
   (tts._speak_task rq g1).1
   = match tts.say_outcome rq with
     | tts.SayOk => tts.Invoked (tts.called_at rq)
     | _ => tts.Failed (tts.called_at rq)
     end).
Proof.
  intros Hprev done_at.
  destruct (speak_task_invoked prev g0 g1 start Hprev) as [Hlast Hfree].
  fold done_at in Hlast, Hfree.
  unfold tts._speak_task. rewrite Hlast, Hfree.
  unfold tts.TTS_MIN_INTERVAL in *. split.
  - intros Hsoon.
    assert (Qltb (Qmax (tts.called_at rq) done_at - done_at) (1 # 2) = true) as ->; [|done].
    apply Qltb_true.
    destruct (Qmax_cases (tts.called_at rq) done_at) as [[_ ->]|[_ ->]]; lra.
  - intros Hlate.
    destruct (Qmax_cases (tts.called_at rq) done_at) as [[_ ->]|[Hlt _]]; [|lra].
    assert (Qltb (tts.called_at rq - done_at) (1 # 2) = false) as ->
      by (apply Qltb_false; lra).
    by destruct (tts.say_outcome rq).
Qed.

Lemma speak_all_app (rqs1 rqs2 : list tts.request) (g : tts.gate) :
  tts.speak_all (rqs1 ++ rqs2) g
  = ((tts.speak_all rqs1 g).1 ++ (tts.speak_all rqs2 (tts.speak_all rqs1 g).2).1,
     (tts.speak_all rqs2 (tts.speak_all rqs1 g).2).2).
Proof.
  revert g. induction rqs1 as [|rq rqs1 IH]; intros g; simpl.
  - by destruct (tts.speak_all rqs2 g).
  - destruct (tts._speak_task rq g) as [v g1]. rewrite IH.
    by destruct (tts.speak_all rqs1 g1).
Qed.

Lemma speak_all_length (rqs : list tts.request) (g : tts.gate) :
  length (tts.speak_all rqs g).1 = length rqs.
Proof.
  revert g. induction rqs as [|rq rqs IH]; intros g; simpl; [done|].
  destruct (tts._speak_task rq g) as [v g1]. specialize (IH g1).
  destruct (tts.speak_all rqs g1). simpl in *. by rewrite IH.
Qed.

(** A request whose [say] did not succeed leaves [last_tts_call_time] as
    it was; a dropped request releases the lock before the interval has
    elapsed. *)
Lemma speak_task_not_succeeded (rq : tts.request) (g : tts.gate) :
  succeeded (tts._speak_task rq g).1 = false →
  tts.last_tts_call_time (tts._speak_task rq g).2 = tts.last_tts_call_time g.
Proof.
  unfold tts._speak_task. destruct (Qltb _ _); [done|].
  by destruct (tts.say_outcome rq).
Qed.

Lemma speak_task_dropped (rq : tts.request) (g : tts.gate) :
  (tts._speak_task rq g).1 = tts.Dropped →
  tts.last_tts_call_time (tts._speak_task rq g).2 = tts.last_tts_call_time g ∧
  (tts.lock_free_at (tts._speak_task rq g).2
   < tts.last_tts_call_time g + tts.TTS_MIN_INTERVAL)%Q.
Proof.
  unfold tts._speak_task. destruct (Qltb _ _) eqn:Hsoon.
  - intros _. apply Qltb_true in Hsoon. cbn. split; [done|]. lra.
  - by destruct (tts.say_outcome rq).
Qed.

Lemma speak_all_not_succeeded (rqs : list tts.request) (g : tts.gate) :
  Forall (λ v, succeeded v = false) (tts.speak_all rqs g).1 →
  tts.last_tts_call_time (tts.speak_all rqs g).2 = tts.last_tts_call_time g.
Proof.
  revert g. induction rqs as [|rq rqs IH]; intros g; [done|].
  cbn [tts.speak_all].
  pose proof (speak_task_not_succeeded rq g) as Hstep.
  destruct (tts._speak_task rq g) as [v g1]. specialize (IH g1).
  destruct (tts.speak_all rqs g1) as [vs g2]. cbn [fst snd] in *.
  intros Hall. apply Forall_cons in Hall as [Hv Hvs].
  rewrite IH by done. by apply Hstep.
Qed.

Lemma speak_all_dropped (rqs : list tts.request) (g : tts.gate) :
  Forall (λ v, v = tts.Dropped) (tts.speak_all rqs g).1 →
  (tts.lock_free_at g < tts.last_tts_call_time g + tts.TTS_MIN_INTERVAL)%Q →
  (tts.lock_free_at (tts.speak_all rqs g).2
   < tts.last_tts_call_time g + tts.TTS_MIN_INTERVAL)%Q.
Proof.
  revert g. induction rqs as [|rq rqs IH]; intros g; [done|].
  cbn [tts.speak_all].
  pose proof (speak_task_dropped rq g) as Hstep.
  destruct (tts._speak_task rq g) as [v g1]. specialize (IH g1).
  destruct (tts.speak_all rqs g1) as [vs g2]. cbn [fst snd] in *.
  intros Hall _. apply Forall_cons in Hall as [Hv Hvs].
  destruct (Hstep Hv) as [Hlast Hfree]. rewrite <- Hlast. apply IH; [done|].
  by rewrite Hlast.
Qed.

(** The verdicts of a sequence with two of its requests singled out. *)
Lemma speak_all_split (pre mid post : list tts.request) (prev rq : tts.request)
    (g : tts.gate) :
  let r0 := tts.speak_all pre g in
  let r1 := tts._speak_task prev r0.2 in
  let r2 := tts.speak_all mid r1.2 in
  let r3 := tts._speak_task rq r2.2 in
  (tts.speak_all (pre ++ prev :: mid ++ rq :: post) g).1
  = r0.1 ++ r1.1 :: r2.1 ++ r3.1 :: (tts.speak_all post r3.2).1.
Proof.
  intros r0 r1 r2 r3. subst r0 r1 r2 r3.
  rewrite speak_all_app. cbn [fst snd tts.speak_all].
  destruct (tts._speak_task prev _) as [v g1].
  rewrite speak_all_app. cbn [fst snd tts.speak_all].
  destruct (tts._speak_task rq _) as [v' g3]. cbn [fst snd].
  by destruct (tts.speak_all post g3) as [vs g4].
Qed.

(** C7 (as the code has it). In every sequence of speech requests, take a
    request and the previous successful invocation: a request whose [say]
    started at [start] and succeeded, with no successful one in between.
    The gate counts from the time that speech completed, whatever requests
    were dropped or failed in between: a request made once the interval
    (0.5 s) has elapsed since that completion starts [say].  When every
    request in between was dropped, a request made before the interval has
    elapsed since that completion is dropped, and a request made once it
    has elapsed starts [say] at the time it is made.  There is one verdict
    per request: nothing is queued. *)
Theorem C7_gate_counts_from_completion
    (pre mid post : list tts.request) (prev rq : tts.request) (g : tts.gate) (start : Q) :
  let verdicts := (tts.speak_all (pre ++ prev :: mid ++ rq :: post) g).1 in
  let done_at := (start + tts.say_duration prev)%Q in
  let k := (length pre + S (length mid))%nat in
  verdicts !! length pre = Some (tts.Invoked start) →
  (∀ i v, (length pre < i < k)%nat → verdicts !! i = Some v → succeeded v = false) →
  length verdicts = length (pre ++ prev :: mid ++ rq :: post) ∧
  ((done_at + tts.TTS_MIN_INTERVAL <= tts.called_at rq)%Q →
   ∃ s, (tts.called_at rq <= s)%Q ∧
        verdicts !! k
        = Some (match tts.say_outcome rq with
                | tts.SayOk => tts.Invoked s
                | _ => tts.Failed s
                end)) ∧
  ((∀ i v, (length pre < i < k)%nat → verdicts !! i = Some v → v = tts.Dropped) →
   ((tts.called_at rq < done_at + tts.TTS_MIN_INTERVAL)%Q →
    verdicts !! k = Some tts.Dropped) ∧
   ((done_at + tts.TTS_MIN_INTERVAL <= tts.called_at rq)%Q →
    verdicts !! k
    = Some (match tts.say_outcome rq with
            | tts.SayOk => tts.Invoked (tts.called_at rq)
            | _ => tts.Failed (tts.called_at rq)
            end))).
Proof.
  intros verdicts done_at k Hinvoked Hnone. subst verdicts done_at k.
  split; [apply speak_all_length|]. revert Hinvoked Hnone.
  rewrite speak_all_split.
  pose proof (speak_all_length pre g) as Hlen0.
  destruct (tts.speak_all pre g) as [vs0 g0]. cbn [fst snd] in *.
  destruct (tts._speak_task prev g0) as [v g1] eqn:Hprev. cbn [fst snd].
  pose proof (speak_all_length mid g1) as Hlen2.
  pose proof (speak_all_not_succeeded mid g1) as Hkeep.
  pose proof (speak_all_dropped mid g1) as Hdrop.
  destruct (tts.speak_all mid g1) as [vs2 g2]. cbn [fst snd] in *.
  set (v3 := (tts._speak_task rq g2).1).
  set (vs := (tts.speak_all post (tts._speak_task rq g2).2).1).
  rewrite <- Hlen0, <- Hlen2.
  assert ((vs0 ++ v :: vs2 ++ v3 :: vs) !! length vs0 = Some v) as ->.
  { rewrite lookup_app_r by lia. by rewrite Nat.sub_diag. }
  assert ((vs0 ++ v :: vs2 ++ v3 :: vs) !! (length vs0 + S (length vs2))%nat = Some v3) as ->.
  { rewrite lookup_app_r by lia.
    replace (length vs0 + S (length vs2) - length vs0)%nat with (S (length vs2)) by lia.
    change ((vs2 ++ v3 :: vs) !! length vs2 = Some v3).
    rewrite lookup_app_r by lia. by rewrite Nat.sub_diag. }
  assert (∀ j w, vs2 !! j = Some w →
            (length vs0 < length vs0 + S j < length vs0 + S (length vs2))%nat ∧
            (vs0 ++ v :: vs2 ++ v3 :: vs) !! (length vs0 + S j)%nat = Some w) as Hmid.
  { intros j w Hj. pose proof (lookup_lt_Some _ _ _ Hj) as Hlt. split; [lia|].
    rewrite lookup_app_r by lia.
    replace (length vs0 + S j - length vs0)%nat with (S j) by lia.
    change ((vs2 ++ v3 :: vs) !! j = Some w). by rewrite lookup_app_l by lia. }
  intros [= ->] Hbetween.
  destruct (speak_task_invoked prev g0 g1 start Hprev) as [Hlast1 Hfree1].
  assert (tts.last_tts_call_time g2 = (start + tts.say_duration prev)%Q) as Hlast2.
  { rewrite Hkeep; [done|]. apply Forall_lookup_2. intros j w Hj.
    destruct (Hmid j w Hj) as [Hrange Hlook]. exact (Hbetween _ _ Hrange Hlook). }
  unfold tts.TTS_MIN_INTERVAL in *.
  assert ((start + tts.say_duration prev + (1 # 2) <= tts.called_at rq)%Q →
          ∃ s, (tts.called_at rq <= s)%Q ∧
               v3 = match tts.say_outcome rq with
                    | tts.SayOk => tts.Invoked s
                    | _ => tts.Failed s
                    end) as Hstarts.
  { intros Hlate. subst v3. unfold tts._speak_task, tts.TTS_MIN_INTERVAL. rewrite Hlast2.
    exists (Qmax (tts.called_at rq) (tts.lock_free_at g2)).
    split; [apply Q.le_max_l|].
    assert (Qltb (Qmax (tts.called_at rq) (tts.lock_free_at g2)
                  - (start + tts.say_duration prev)) (1 # 2) = false) as Hpast.
    { apply Qltb_false.
      destruct (Qmax_cases (tts.called_at rq) (tts.lock_free_at g2)) as [[_ ->]|[? ->]]; lra. }
    rewrite Hpast. by destruct (tts.say_outcome rq). }
  assert ((tts.lock_free_at g2 < start + tts.say_duration prev + (1 # 2))%Q →
          ((tts.called_at rq < start + tts.say_duration prev + (1 # 2))%Q →
           v3 = tts.Dropped) ∧
          ((start + tts.say_duration prev + (1 # 2) <= tts.called_at rq)%Q →
           v3 = match tts.say_outcome rq with
                | tts.SayOk => tts.Invoked (tts.called_at rq)
                | _ => tts.Failed (tts.called_at rq)
                end)) as Honly.
  { intros Hfree2. subst v3. unfold tts._speak_task, tts.TTS_MIN_INTERVAL. rewrite Hlast2.
    destruct (Qmax_cases (tts.called_at rq) (tts.lock_free_at g2)) as [[Hle ->]|[Hlt ->]].
    - split.
      + intros Hsoon.
        assert (Qltb (tts.called_at rq - (start + tts.say_duration prev)) (1 # 2) = true)
          as -> by (apply Qltb_true; lra). done.
      + intros Hlate.
        assert (Qltb (tts.called_at rq - (start + tts.say_duration prev)) (1 # 2) = false)
          as -> by (apply Qltb_false; lra).
        by destruct (tts.say_outcome rq).
    - assert (Qltb (tts.lock_free_at g2 - (start + tts.say_duration prev)) (1 # 2) = true)
        as -> by (apply Qltb_true; lra).
      split; [done|]. intros Hlate. lra. }
  clearbody v3 vs. split.
  - intros Hlate. destruct (Hstarts Hlate) as (s & Hs & ->). by exists s.
  - intros Hdropped. destruct Honly as [Hsoon Hlate].
    { rewrite <- Hlast1. apply Hdrop; [|rewrite Hlast1, Hfree1; lra].
      apply Forall_lookup_2. intros j w Hj.
      destruct (Hmid j w Hj) as [Hrange Hlook]. exact (Hdropped _ _ Hrange Hlook). }
    split; intros Hrq; f_equal; [by apply Hsoon|by apply Hlate].
Qed.

Lemma C7_gate_witness :
  (tts.speak_all [first_call; second_call; late_call] tts.initial).1 !! 2%nat
  = Some (tts.Invoked (251 # 20)).
Proof.
  destruct (C7_gate_counts_from_completion [] [second_call] [] first_call late_call
              tts.initial 10 eq_refl)
    as (_ & _ & Honly).
  - intros [|[|i]] v Hi Hv; [simpl in Hi; lia| |simpl in Hi; lia].
    by injection Hv as <-.
  - apply Honly.
    + intros [|[|i]] v Hi Hv; [simpl in Hi; lia| |simpl in Hi; lia].
      by injection Hv as <-.
    + simpl. unfold tts.TTS_MIN_INTERVAL. lra.
Defined.

(** C7, the claim as stated, fails: the first speech starts at time 10 and
    lasts two seconds; a request made 2.3 seconds after that start, well
    past the 0.5 s interval, is dropped. *)
Lemma C7_request_after_interval_from_start_is_dropped :
  (tts.speak_all [first_call; second_call] tts.initial).1
  = [tts.Invoked 10; tts.Dropped] ∧
  (10 + tts.TTS_MIN_INTERVAL <= tts.called_at second_call)%Q.
Proof.
  split; [reflexivity|].
  simpl. unfold tts.TTS_MIN_INTERVAL. lra.
Qed.

(** ** C9: cancelling the name prompt *)

Lemma prompt_cancelled (r : face_enroll.reading) (st : face_enroll.state) (e : list Q) :
  cancels (face_enroll.name_input r) →
  face_enroll.prompt_and_enroll r st e
  = (st, [], match face_enroll.name_input r with EndOfInput => Break | _ => Continue end).
Proof.
  unfold cancels, face_enroll.prompt_and_enroll.
  destruct (face_enroll.name_input r) as [line| |]; [|done..].
  intros [Hcancel|Hempty].
  - by rewrite (bool_decide_eq_true_2 _ Hcancel).
  - rewrite (bool_decide_eq_true_2 (py_strip line = "") Hempty). by rewrite orb_true_r.
Qed.

(** A pass that changes nothing in the store, speaks nothing, and ends by
    [continue] or [break]. *)
Ltac no_op :=
  split; [repeat split; simpl; congruence|];
  split; [reflexivity|];
  first [left; reflexivity | right; reflexivity].

(** C9 (as the code has it). When the name prompt of the live enrollment
    is cancelled by the token "cancel", by empty input or by a keyboard
    interrupt, the pass ends as a no-op and the loop continues; when it is
    cancelled by the end of the input stream, the pass ends as a no-op and
    the loop is left by its [break].  In every case the store (the list,
    the set of names and the file) is unchanged, nothing is spoken, and no
    exception leaves the pass. *)
Theorem C9_cancelled_prompt_is_a_no_op (r : face_enroll.reading) (st : face_enroll.state) :
  cancels (face_enroll.name_input r) →
  (∀ embedding,
     face_enroll.prompt_and_enroll r st embedding
     = (st, [], match face_enroll.name_input r with EndOfInput => Break | _ => Continue end)) ∧
  same_store st (face_enroll.iteration r st).1.1 ∧
  (face_enroll.iteration r st).1.2 = [] ∧
  ((face_enroll.iteration r st).2 = Continue ∨ (face_enroll.iteration r st).2 = Break).
Proof.
  intros Hcancel. split; [intros e; by apply prompt_cancelled|].
  unfold face_enroll.iteration.
  destruct (face_enroll.cap_read r) as [live_frame|]; [|by no_op].
  set (st1 := if Qgtb _ _ then _ else st).
  assert (same_store st st1) as (Hdb & Hnames & Hfile)
    by (subst st1; by destruct (Qgtb _ _)).
  clearbody st1.
  destruct (_ =? face_enroll.CAPTURE_KEY)%Z; [|destruct (_ =? _)%Z; no_op].
  unfold face_enroll.on_capture.
  destruct (Qltb _ _); [no_op|].
  cbn [face_enroll.target_face_obj_for_preview].
  destruct (face_enroll.target_face_obj_for_preview st1); [|no_op].
  destruct (face_enroll.model_get_frozen r) as [|f0 fs]; [no_op|].
  destruct (face_utils.get_center_most_face _ _ _) as [target|]; [|no_op].
  destruct (face_utils.normed_embedding target) as [[|x emb]|]; [no_op| |no_op].
  rewrite prompt_cancelled by done.
  destruct (face_enroll.name_input r); no_op.
Qed.

Lemma C9_cancelled_prompt_witness :
  face_enroll.prompt_and_enroll (capture_at 10 (Typed " Cancel ")) enroll_start query_x
  = (enroll_start, [], Continue).
Proof.
  apply (C9_cancelled_prompt_is_a_no_op (capture_at 10 (Typed " Cancel ")) enroll_start).
  left. reflexivity.
Defined.

(** C9, the claim as stated, fails: when the name prompt meets the end of
    the input stream, the enrollment loop does not continue; it ends. *)
Lemma C9_end_of_input_leaves_the_loop :
  (face_enroll.iteration (capture_at 10 EndOfInput) enroll_start).2 = Break.
Proof. reflexivity. Qed.

(** ** Further properties of the recognition loop *)

Lemma match_loop_name (current_embedding : list Q) (db : list face_utils.known_face)
    (best best' : option string) (m m' : Q) (calls calls' : nat) :
  main.match_loop current_embedding db best m calls = Ret (best', m', calls') →
  best' = best ∨ ∃ f, f ∈ db ∧ best' = Some (face_utils.name f).
Proof.
  revert best m calls. induction db as [|a db IH]; intros best m calls; simpl.
  - intros [= <- _ _]. by left.
  - destruct (face_utils.compare_embeddings _ _) as [s|e]; [|done].
    cbn [mbind result_bind]. destruct (_ && _); intros Hrun.
    + destruct (IH _ _ _ Hrun) as [->|(f & Hf & ->)].
      * right. exists a. split; [apply list_elem_of_here|done].
      * right. exists f. split; [by apply list_elem_of_further|done].
    + destruct (IH _ _ _ Hrun) as [->|(f & Hf & ->)]; [by left|].
      right. exists f. split; [by apply list_elem_of_further|done].
Qed.

Lemma best_match_name_stored (current_embedding : list Q)
    (db : list face_utils.known_face) (n : string) (calls : nat) :
  main.best_match current_embedding db = Ret (n, calls) →
  n = "Unknown" ∨ n ∈ face_utils.name <$> db.
Proof.
  unfold main.best_match. destruct db as [|a db]; [intros [= <- _]; by left|].
  destruct (main.match_loop _ _ _ _ _) as [[[best m] c]|e] eqn:Hloop; [|done].
  cbn [mbind result_bind].
  destruct (truthy best) eqn:Ht; [|intros [= <- _]; by left].
  intros [= <- _].
  destruct (match_loop_name _ _ _ _ _ _ _ _ Hloop) as [->|(f & Hf & ->)]; [done|].
  right. change (face_utils.name f ∈ face_utils.name <$> (a :: db)).
  by apply list_elem_of_fmap_2.
Qed.



Lemma process_frame_name_stored (detected_faces : list face_utils.Face)
    (known_faces_db : list face_utils.known_face) (w h : Z) (n : string) bb :
  main.process_frame detected_faces known_faces_db w h = Ret (Some n, bb) →
  n = "Unknown" ∨ n ∈ face_utils.name <$> known_faces_db.
Proof.
  unfold main.process_frame. destruct detected_faces; [done|].
  destruct (face_utils.get_center_most_face _ _ _) as [target|]; [|done].
  destruct (face_utils.normed_embedding target) as [emb|]; [|intros [= <- _]; by left].
  destruct (main.best_match emb known_faces_db) as [[n' c]|e] eqn:E; [|done].
  cbn [mbind result_bind]. intros [= <- _]. by eapply best_match_name_stored.
Qed.

Lemma handle_key_fields (key : Z) (st : main.state) :
  same_but_flag st (main.handle_key key st).1.
Proof.
  unfold main.handle_key.
  destruct (key =? 113)%Z; [done|]. by destruct (key =? 108)%Z.
Qed.

Section LoopFacts.
Context `{Cv2}.

(** The four ways through the zoom block. *)
Lemma zoom_logic_cases (frame : ndimage) (t : Q) (st st1 : main.state)
    (d d1 : ndimage) (evs : list main.event) :
  main.zoom_logic frame t st d = Ret (st1, d1, evs) →
  (main.zoom_active st = false ∧ st1 = st ∧ d1 = d ∧ evs = []) ∨
  (main.zoom_active st = true ∧ (t < main.zoom_return_time st)%Q ∧ st1 = st ∧ evs = [] ∧
   ∃ b, main.current_processing_bbox_for_zoom st = Some b ∧
        zoom_utils.get_zoomed_region (Some frame) (Some b)
          (Z.of_N (width frame), Z.of_N (height frame)) zoom_utils.padding_factor_default
        = Ret (Some d1)) ∨
  (main.zoom_active st = true ∧ main.zoom_active st1 = false ∧
   main.name_to_greet_after_zoom st1 = None ∧
   main.zoom_return_time st1 = main.zoom_return_time st ∧
   main.last_detection_run_time st1 = main.last_detection_run_time st ∧
   main.USE_LOW_LIGHT_ENHANCEMENT st1 = main.USE_LOW_LIGHT_ENHANCEMENT st ∧ d1 = d ∧
   ((evs = [] ∧ main.last_greeted_time st1 = main.last_greeted_time st) ∨
    (∃ n, main.name_to_greet_after_zoom st = Some n ∧ n ≠ "" ∧ n ≠ "Unknown" ∧
          (main.zoom_return_time st <= t)%Q ∧
          evs = [main.Speak (main.greeting_text n)] ∧
          main.last_greeted_time st1 = <[n := t]> (main.last_greeted_time st)))).
Proof.
  unfold main.zoom_logic.
  destruct (main.zoom_active st) eqn:Hactive; [|intros [= <- <- <-]; by left].
  destruct (Qgeb t (main.zoom_return_time st)) eqn:Hreached.
  - apply Qgeb_true in Hreached. intros [= <- <- <-]. right; right. cbn.
    do 7 (split; [done|]).
    destruct (main.name_to_greet_after_zoom st) as [n|]; [|by left]. simpl.
    case_bool_decide as Hn; [|by left].
    case_bool_decide as Hu; [|by left]. simpl.
    right. exists n. repeat split; try done. congruence.
  - apply Qgeb_false in Hreached.
    destruct (main.current_processing_bbox_for_zoom st) as [b|] eqn:Hb.
    + destruct (zoom_utils.get_zoomed_region _ _ _ _) as [[zoomed|]|e] eqn:Hz; [| |done].
      * cbn [mbind result_bind]. intros [= <- <- <-]. right; left.
        do 4 (split; [done|]). by exists b.
      * cbn [mbind result_bind]. intros [= <- <- <-]. right; right. cbn.
        do 7 (split; [done|]). by left.
    + intros [= <- <- <-]. right; right. cbn. do 7 (split; [done|]). by left.
Qed.

(** The ways through the detection block: it is skipped, or it runs and
    either begins a session or leaves the zoom as it was. *)
Lemma detection_logic_cases (db : list face_utils.known_face) (frame : ndimage)
    (r : main.reading) (st st2 : main.state) (d d2 : ndimage) :
  main.detection_logic db frame r st d = Ret (st2, d2) →
  ((main.zoom_active st = true ∨
    (main.time_time r - main.last_detection_run_time st <= main.DETECTION_INTERVAL_SECONDS)%Q) ∧
   st2 = st ∧ d2 = d) ∨
  (main.zoom_active st = false ∧
   (main.DETECTION_INTERVAL_SECONDS < main.time_time r - main.last_detection_run_time st)%Q ∧
   main.last_detection_run_time st2 = main.time_time r ∧
   main.last_greeted_time st2 = main.last_greeted_time st ∧
   ((main.zoom_active st2 = false ∧ d2 = d ∧
     main.zoom_return_time st2 = main.zoom_return_time st ∧
     main.name_to_greet_after_zoom st2 = main.name_to_greet_after_zoom st) ∨
    (∃ n b z,
       n ≠ "" ∧ (n = "Unknown" ∨ n ∈ face_utils.name <$> db) ∧
       main.zoom_active st2 = true ∧
       main.zoom_return_time st2 = (main.time_time r + main.ZOOM_DURATION_SECONDS)%Q ∧
       main.name_to_greet_after_zoom st2
         = main.greet_target n (main.time_time r) (main.last_greeted_time st) ∧
       main.current_processing_bbox_for_zoom st2 = Some b ∧
       zoom_utils.get_zoomed_region (Some frame) (Some b)
         (Z.of_N (width frame), Z.of_N (height frame)) zoom_utils.padding_factor_default
       = Ret z ∧
       d2 = default d z))).
Proof.
  unfold main.detection_logic.
  destruct (main.zoom_active st) eqn:Hactive; cbn [negb andb].
  { intros [= <- <-]. left. split; [by left|done]. }
  destruct (Qgtb _ _) eqn:Hdue.
  2:{ apply Qgtb_false in Hdue. intros [= <- <-]. left. split; [by right|done]. }
  apply Qgtb_true in Hdue.
  destruct (main.process_frame _ _ _ _) as [[rn fb]|e] eqn:Hframe; [|done].
  cbn [mbind result_bind]. intros Hrun. right.
  destruct fb as [b|].
  2:{ injection Hrun as <- <-. cbn. do 4 (split; [done|]). by left. }
  destruct (truthy rn) eqn:Htruthy.
  2:{ injection Hrun as <- <-. cbn. do 4 (split; [done|]). by left. }
  destruct rn as [n|]; [|done].
  destruct (zoom_utils.get_zoomed_region _ _ _ _) as [z|e] eqn:Hz; [|done].
  cbn [mbind result_bind] in Hrun. injection Hrun as <- <-. cbn.
  do 4 (split; [done|]). right. exists n, b, z.
  split; [by eapply process_frame_name_nonempty|].
  split; [by eapply process_frame_name_stored|]. done.
Qed.

Lemma detection_logic_inv (db : list face_utils.known_face) (frame : ndimage)
    (r : main.reading) (st st2 : main.state) (d d2 : ndimage) :
  pending_inv db st →
  main.detection_logic db frame r st d = Ret (st2, d2) →
  pending_inv db st2 ∧ main.last_greeted_time st2 = main.last_greeted_time st.
Proof.
  intros Hinv Hrun.
  destruct (detection_logic_cases _ _ _ _ _ _ _ Hrun)
    as [(_ & -> & _)|(_ & _ & _ & Hlg & [(_ & _ & Hzrt & Hname)|Hentered])]; [done| |].
  - split; [|done]. intros n Hn. rewrite Hname in Hn.
    rewrite Hlg, Hzrt. by apply Hinv.
  - destruct Hentered as (n & b & z & Hne & Hstored & _ & Hzrt & Hname & _).
    split; [|done]. intros n' Hn'. rewrite Hname in Hn'.
    destruct (greet_target_cases n (main.time_time r) (main.last_greeted_time st))
      as [Hnone|[Hsome Hu]]; [congruence|].
    assert (n' = n) as -> by congruence.
    split; [done|]. split; [done|].
    split; [by destruct Hstored|].
    intros s Hs. rewrite Hlg in Hs. rewrite Hzrt.
    destruct (proj1 (greet_target_Some n _ _ Hu) Hsome) as [Hnone|(t0 & Ht0 & Hlt)];
      [congruence|].
    assert (t0 = s) as -> by congruence. lra.
Qed.

(** A pass keeps the loop's invariant, and speaks either nothing or one
    greeting, for the pending target of a session whose end time has come,
    stamping that name's greeting time. *)
Lemma iteration_greets (db : list face_utils.known_face) (r : main.reading)
    (st st' : main.state) (evs : list main.event) (c : control) :
  pending_inv db st →
  main.iteration db r st = (st', evs, c) →
  pending_inv db st' ∧
  ((main.spoken evs = [] ∧ main.last_greeted_time st' = main.last_greeted_time st) ∨
   (∃ n, main.name_to_greet_after_zoom st = Some n ∧
         main.spoken evs = [main.greeting_text n] ∧
         (main.zoom_return_time st <= main.time_time r)%Q ∧
         main.last_greeted_time st' = <[n := main.time_time r]> (main.last_greeted_time st))).
Proof.
  intros Hinv. unfold main.iteration.
  destruct (main.cap_read r) as [frame|]; [|intros [= <- <- _]; split; [done|by left]].
  destruct (main.zoom_logic frame (main.time_time r) st frame) as [[[st1 d1] sp]|e] eqn:Hzoom;
    [|intros [= <- <- _]; split; [done|by left]].
  assert (pending_inv db st1 ∧
          ((sp = [] ∧ main.last_greeted_time st1 = main.last_greeted_time st) ∨
           (∃ n, main.name_to_greet_after_zoom st = Some n ∧
                 sp = [main.Speak (main.greeting_text n)] ∧
                 (main.zoom_return_time st <= main.time_time r)%Q ∧
                 main.last_greeted_time st1
                 = <[n := main.time_time r]> (main.last_greeted_time st))))
    as [Hinv1 Hsp].
  { destruct (zoom_logic_cases _ _ _ _ _ _ _ Hzoom)
      as [(_ & -> & _ & ->)|[(_ & _ & -> & -> & _)|Hidle]];
      [split; [done|by left]..|].
    destruct Hidle as (_ & _ & Hnone & _ & _ & _ & _ & Hgreet).
    split; [intros n Hn; congruence|].
    destruct Hgreet as [[-> Hlg]|(n & Hn & _ & _ & Hreached & -> & Hlg)]; [by left|].
    right. by exists n. }
  destruct (main.detection_logic db frame r st1 d1) as [[st2 d2]|e] eqn:Hdet.
  2:{ intros [= <- <- _]. split; [done|].
      destruct Hsp as [[-> Hlg]|(n & Hn & -> & Hreached & Hlg)]; [by left|].
      right. by exists n. }
  destruct (detection_logic_inv _ _ _ _ _ _ _ Hinv1 Hdet) as [Hinv2 Hlg2].
  pose proof (handle_key_fields (Z.land (main.waitKey r) 255) st2)
    as (_ & Hk_zrt & Hk_name & _ & _ & Hk_lg).
  destruct (main.handle_key _ st2) as [st3 c3]. cbn [fst] in *.
  intros [= <- <- _]. split.
  - intros n Hn. rewrite Hk_name in Hn. rewrite Hk_lg, Hk_zrt. by apply Hinv2.
  - unfold main.spoken. rewrite omap_app. cbn [omap list_omap]. rewrite app_nil_r.
    rewrite Hk_lg, Hlg2.
    destruct Hsp as [[-> Hlg]|(n & Hn & -> & Hreached & Hlg)]; [by left|].
    right. by exists n.
Qed.

Lemma initial_inv (db : list face_utils.known_face) : pending_inv db main.initial.
Proof. intros n Hn. discriminate Hn. Qed.

(** Every state the loop reaches keeps the invariant, and every text it
    has spoken is the greeting of a stored name other than "Unknown". *)
Lemma main_loop_greets (db : list face_utils.known_face) (readings : list main.reading)
    (st : main.state) :
  pending_inv db st →
  pending_inv db (main.main_loop db readings st).1.1 ∧
  ∀ text, text ∈ main.spoken (main.main_loop db readings st).1.2 →
    ∃ n, text = main.greeting_text n ∧ n ≠ "Unknown" ∧ n ∈ face_utils.name <$> db.
Proof.
  revert st. induction readings as [|r readings IH]; intros st Hinv.
  - split; [done|]. intros text Ht. by apply elem_of_nil in Ht.
  - cbn [main.main_loop].
    destruct (main.iteration db r st) as [[st1 evs1] c1] eqn:Hpass.
    destruct (iteration_greets db r st st1 evs1 c1 Hinv Hpass) as [Hinv1 Hsp].
    assert (∀ text, text ∈ main.spoken evs1 →
              ∃ n, text = main.greeting_text n ∧ n ≠ "Unknown" ∧
                   n ∈ face_utils.name <$> db) as Hevs1.
    { intros text Ht.
      destruct Hsp as [[Hnil _]|(n & Hn & Hone & _)]; [rewrite Hnil in Ht; by apply elem_of_nil in Ht|].
      rewrite Hone in Ht. apply list_elem_of_singleton in Ht as ->.
      destruct (Hinv n Hn) as (_ & Hu & Hstored & _). by exists n. }
    destruct c1; [|done..].
    destruct (IH st1 Hinv1) as [Hinv2 Hrest].
    destruct (main.main_loop db readings st1) as [[st2 evs2] c2]. cbn [fst snd] in *.
    split; [done|]. intros text Ht.
    unfold main.spoken in Ht. rewrite omap_app in Ht.
    apply elem_of_app in Ht as [Ht|Ht]; [by apply Hevs1|by apply Hrest].
Qed.

(** X1. Whatever passes the recognition loop has run from its initial
    state, a pass speaks at most one text; when it speaks, the text is the
    greeting of the session's pending name, that name's greeting time is
    stamped to now, and its previous greeting, if any, lies more than
    GREETING_COOLDOWN + ZOOM_DURATION before now: nobody is greeted twice
    within the cooldown. *)
Theorem X1_no_second_greeting_within_cooldown
    (known_faces_db : list face_utils.known_face) (readings : list main.reading)
    (r : main.reading) (st' : main.state) (evs : list main.event) (c : control) :
  main.iteration known_faces_db r
    (main.main_loop known_faces_db readings main.initial).1.1 = (st', evs, c) →
  main.spoken evs = [] ∨
  ∃ n, main.spoken evs = [main.greeting_text n] ∧
       main.name_to_greet_after_zoom
         (main.main_loop known_faces_db readings main.initial).1.1 = Some n ∧
       main.last_greeted_time st' !! n = Some (main.time_time r) ∧
       ∀ s, main.last_greeted_time
              (main.main_loop known_faces_db readings main.initial).1.1 !! n = Some s →
            (main.GREETING_COOLDOWN_SECONDS + main.ZOOM_DURATION_SECONDS
             < main.time_time r - s)%Q.
Proof.
  destruct (main_loop_greets known_faces_db readings main.initial (initial_inv _))
    as [Hinv _].
  intros Hpass.
  destruct (iteration_greets _ _ _ _ _ _ Hinv Hpass) as [_ [[Hnil _]|(n & Hn & Hone & Hreached & Hlg)]];
    [by left|].
  right. exists n. split; [done|]. split; [done|].
  split; [rewrite Hlg; apply lookup_insert_eq|].
  intros s Hs. destruct (Hinv n Hn) as (_ & _ & _ & Hcool).
  specialize (Hcool s Hs). lra.
Qed.

(** X2. Every text the recognition loop speaks, over any run from its
    initial state, is the greeting of a name that is in the store and is
    not "Unknown"; with an empty store it never speaks. *)
Theorem X2_only_stored_names_are_greeted
    (known_faces_db : list face_utils.known_face) (readings : list main.reading) :
  (∀ text, text ∈ main.spoken (main.main_loop known_faces_db readings main.initial).1.2 →
     ∃ n, text = main.greeting_text n ∧ n ≠ "Unknown" ∧
          n ∈ face_utils.name <$> known_faces_db) ∧
  (known_faces_db = [] →
   main.spoken (main.main_loop known_faces_db readings main.initial).1.2 = []).
Proof.
  destruct (main_loop_greets known_faces_db readings main.initial (initial_inv _))
    as [_ Hspoken].
  split; [done|]. intros ->.
  destruct (main.spoken _) as [|text rest] eqn:E; [done|].
  destruct (Hspoken text) as (n & _ & _ & Hn); [apply list_elem_of_here|].
  by apply elem_of_nil in Hn.
Qed.
End LoopFacts.

(** ** Further properties of a pass: comparison, display, detection *)

Lemma np_dot_Raise (a b : list Q) (e : exn) :
  face_utils.np_dot a b = Raise e → e = ValueError ∧ length a ≠ length b.
Proof.
  revert b. induction a as [|x a IH]; intros [|y b]; simpl; try done.
  - by intros [= <-].
  - by intros [= <-].
  - destruct (face_utils.np_dot a b) as [s|e'] eqn:E; [done|].
    cbn [mbind result_bind]. intros [= ->].
    destruct (IH b E) as [-> Hlen]. split; [done|]. congruence.
Qed.

Lemma np_dot_Ret (a b : list Q) (s : Q) :
  face_utils.np_dot a b = Ret s → length a = length b.
Proof.
  revert b s. induction a as [|x a IH]; intros [|y b] s; simpl; try done.
  destruct (face_utils.np_dot a b) as [s'|e'] eqn:E; [|done].
  intros _. f_equal. by eapply IH.
Qed.

Lemma similarity_sym (a b : list Q) : (similarity a b == similarity b a)%Q.
Proof.
  revert b. induction a as [|x a IH]; intros [|y b]; simpl; try reflexivity.
  rewrite (IH b). ring.
Qed.

(** X4. [compare_embeddings] returns a number exactly when the two
    embeddings have one length, and raises ValueError exactly when they do
    not; when it returns, it returns the dot product, and the comparison in
    the other order returns an equal number. *)
Theorem X4_compare_embeddings_total_on_equal_lengths (emb1 emb2 : list Q) :
  (length emb1 = length emb2 ↔
   face_utils.compare_embeddings emb1 emb2 = Ret (similarity emb1 emb2)) ∧
  (length emb1 ≠ length emb2 ↔
   face_utils.compare_embeddings emb1 emb2 = Raise ValueError) ∧
  (∀ s, face_utils.compare_embeddings emb1 emb2 = Ret s →
        ∃ s', face_utils.compare_embeddings emb2 emb1 = Ret s' ∧ (s == s')%Q).
Proof.
  unfold face_utils.compare_embeddings. split; [|split].
  - split; [apply np_dot_similarity|apply np_dot_Ret].
  - split.
    + intros Hlen. destruct (face_utils.np_dot emb1 emb2) as [s|e] eqn:E.
      * by apply np_dot_Ret in E.
      * by destruct (np_dot_Raise _ _ _ E) as [-> _].
    + intros Hraise Hlen. by rewrite np_dot_similarity in Hraise.
  - intros s Hs. pose proof (np_dot_Ret _ _ _ Hs) as Hlen.
    rewrite np_dot_similarity in Hs by done. injection Hs as <-.
    exists (similarity emb2 emb1). split; [by apply np_dot_similarity|].
    apply similarity_sym.
Qed.

Lemma match_loop_Raise (current_embedding : list Q) (db : list face_utils.known_face)
    (best : option string) (m : Q) (calls : nat) (e : exn) :
  main.match_loop current_embedding db best m calls = Raise e →
  e = ValueError ∧
  ∃ f, f ∈ db ∧ length (face_utils.embedding f) ≠ length current_embedding.
Proof.
  revert best m calls. induction db as [|a db IH]; intros best m calls; simpl; [done|].
  unfold face_utils.compare_embeddings.
  destruct (face_utils.np_dot _ _) as [s|e'] eqn:E; cbn [mbind result_bind].
  - intros Hrun.
    assert (e = ValueError ∧
            ∃ f, f ∈ db ∧ length (face_utils.embedding f) ≠ length current_embedding)
      as [-> (f & Hf & Hlen)] by (destruct (_ && _); by eapply IH).
    split; [done|]. exists f. split; [by apply list_elem_of_further|done].
  - intros [= ->]. destruct (np_dot_Raise _ _ _ E) as [-> Hlen].
    split; [done|]. exists a. split; [apply list_elem_of_here|congruence].
Qed.

Lemma get_center_most_face_elem (faces : list face_utils.Face) (w h : Z)
    (target : face_utils.Face) :
  face_utils.get_center_most_face faces w h = Some target → target ∈ faces.
Proof.
  intros Hsel. destruct faces as [|a rest]; [done|].
  destruct (center_most_loop_inv w h (a :: rest) [] None None)
    as [[? _]|(i & f & (Hi & _) & Hres)]; [by left|done|].
  simpl app in *.
  assert (face_utils.get_center_most_face (a :: rest) w h = Some f) as Hsel' by exact Hres.
  assert (f = target) as -> by congruence.
  by eapply list_elem_of_lookup_2.
Qed.

Lemma process_frame_Raise (detected_faces : list face_utils.Face)
    (db : list face_utils.known_face) (w h : Z) (e : exn) :
  main.process_frame detected_faces db w h = Raise e →
  e = ValueError ∧
  ∃ face_obj emb f,
    face_obj ∈ detected_faces ∧ face_utils.normed_embedding face_obj = Some emb ∧
    f ∈ db ∧ length (face_utils.embedding f) ≠ length emb.
Proof.
  unfold main.process_frame. destruct detected_faces as [|a rest]; [done|].
  destruct (face_utils.get_center_most_face _ _ _) as [target|] eqn:Hsel; [|done].
  apply get_center_most_face_elem in Hsel.
  destruct (face_utils.normed_embedding target) as [emb|] eqn:Hemb; [|done].
  unfold main.best_match. destruct db as [|f0 db]; [done|].
  destruct (main.match_loop _ _ _ _ _) as [[[best m] c]|e'] eqn:Hloop.
  - cbn [mbind result_bind]. by destruct (truthy best).
  - cbn [mbind result_bind]. intros [= ->].
    destruct (match_loop_Raise _ _ _ _ _ _ Hloop) as [-> (f & Hf & Hlen)].
    split; [done|]. by exists target, emb, f.
Qed.

Section PassFacts.
Context `{Cv2}.

Lemma get_zoomed_region_size (frame : ndimage) (b : Z * Z * Z * Z) (w h : Z)
    (padding_factor : Q) (img : ndimage) :
  resize_contract → (0 <= w)%Z → (0 <= h)%Z →
  zoom_utils.get_zoomed_region (Some frame) (Some b) (w, h) padding_factor = Ret (Some img) →
  Z.of_N (width img) = w ∧ Z.of_N (height img) = h.
Proof.
  intros Hresize Hw Hh.
  destruct (black_spec frame (w, h) Hw Hh) as (blk & Hblack & Hbw & Hbh & _).
  unfold zoom_utils.get_zoomed_region. destruct b as [[[x1 y1] x2] y2].
  destruct (_ || _)%Z; [done|].
  destruct (_ =? _)%N; [rewrite Hblack; by intros [= <-]|].
  destruct (cv2_resize _ _) as [zoomed|] eqn:Hres.
  - intros [= <-]. exact (Hresize _ _ _ Hres).
  - rewrite Hblack. by intros [= <-].
Qed.

(** The zoom block never raises in the loop, and keeps the enhancement
    flag and the time of the last detection. *)
Lemma zoom_logic_keeps (frame : ndimage) (t : Q) (st st1 : main.state)
    (d d1 : ndimage) (evs : list main.event) :
  main.zoom_logic frame t st d = Ret (st1, d1, evs) →
  main.USE_LOW_LIGHT_ENHANCEMENT st1 = main.USE_LOW_LIGHT_ENHANCEMENT st ∧
  main.last_detection_run_time st1 = main.last_detection_run_time st ∧
  shown evs = [].
Proof.
  intros Hzoom.
  destruct (zoom_logic_cases _ _ _ _ _ _ _ Hzoom)
    as [(_ & -> & _ & ->)|[(_ & _ & -> & -> & _)|Hidle]]; [done..|].
  destruct Hidle as (_ & _ & _ & _ & Hdet & Hflag & _ & Hgreet).
  split; [done|]. split; [done|].
  by destruct Hgreet as [[-> _]|(n & _ & _ & _ & _ & -> & _)].
Qed.

Lemma zoom_logic_returns (frame : ndimage) (t : Q) (st : main.state) (d : ndimage) :
  ∃ out, main.zoom_logic frame t st d = Ret out.
Proof.
  unfold main.zoom_logic. destruct (main.zoom_active st); [|by eexists].
  destruct (Qgeb _ _); [by eexists|].
  destruct (main.current_processing_bbox_for_zoom st) as [b|]; [|by eexists].
  destruct (get_zoomed_region_in_loop frame b) as (z & -> & _).
  cbn [mbind result_bind]. destruct z; by eexists.
Qed.

(** X5. A pass of the recognition loop that reads a frame and raises
    nothing shows exactly one image, after anything it speaks, and (for
    [cv2.resize] as OpenCV specifies it) that image has the width and the
    height of the camera frame, zoomed or not; a pass that reads no frame
    or raises shows nothing. *)
Theorem X5_one_image_of_frame_size_per_pass
    (known_faces_db : list face_utils.known_face) (r : main.reading)
    (st st' : main.state) (evs : list main.event) (c : control) :
  resize_contract →
  main.iteration known_faces_db r st = (st', evs, c) →
  match main.cap_read r, c with
  | Some frame, (Continue | Break) =>
      ∃ display_frame,
        shown evs = [display_frame] ∧ last evs = Some (main.Imshow display_frame) ∧
        width display_frame = width frame ∧ height display_frame = height frame
  | _, _ => shown evs = []
  end.
Proof.
  intros Hresize. unfold main.iteration.
  destruct (main.cap_read r) as [frame|]; [|by intros [= _ <- <-]].
  destruct (zoom_logic_returns frame (main.time_time r) st frame) as ([[st1 d1] sp] & Hzoom).
  rewrite Hzoom.
  assert (width d1 = width frame ∧ height d1 = height frame ∧ shown sp = []) as (Hw1 & Hh1 & Hsp).
  { destruct (zoom_logic_cases _ _ _ _ _ _ _ Hzoom)
      as [(_ & _ & -> & ->)|[(_ & _ & _ & -> & b & _ & Hz)|Hidle]]; [done| |].
    - apply get_zoomed_region_size in Hz as [Hw Hh]; [|done|lia..].
      split; [lia|]. split; [lia|done].
    - destruct Hidle as (_ & _ & _ & _ & _ & _ & -> & Hgreet).
      split; [done|]. split; [done|].
      by destruct Hgreet as [[-> _]|(n & _ & _ & _ & _ & -> & _)]. }
  destruct (main.detection_logic known_faces_db frame r st1 d1) as [[st2 d2]|e] eqn:Hdet;
    [|by intros [= _ <- <-]].
  assert (width d2 = width frame ∧ height d2 = height frame) as [Hw2 Hh2].
  { destruct (detection_logic_cases _ _ _ _ _ _ _ Hdet)
      as [(_ & _ & ->)|(_ & _ & _ & _ & [(_ & -> & _)|Hentered])]; [done..|].
    destruct Hentered as (n & b & z & _ & _ & _ & _ & _ & _ & Hz & ->).
    destruct z as [zoomed|]; [|done].
    apply get_zoomed_region_size in Hz as [Hw Hh]; [|done|lia..].
    simpl. split; lia. }
  assert (∃ st3 c3, main.handle_key (Z.land (main.waitKey r) 255) st2 = (st3, c3) ∧
                    (c3 = Continue ∨ c3 = Break)) as (st3 & c3 & -> & Hc3).
  { unfold main.handle_key. destruct (_ =? 113)%Z; [by eexists _, _; split; [|right]|].
    destruct (_ =? 108)%Z; by eexists _, _; split; [|left]. }
  intros [= _ <- <-].
  assert (∃ display_frame,
            shown (sp ++ [main.Imshow d2]) = [display_frame] ∧
            last (sp ++ [main.Imshow d2]) = Some (main.Imshow display_frame) ∧
            width display_frame = width frame ∧ height display_frame = height frame) as Hshow.
  { exists d2. unfold shown in *. rewrite omap_app, Hsp, last_snoc. done. }
  by destruct Hc3 as [-> | ->].
Qed.

(** X6. A pass of the recognition loop runs the detection only when more
    than DETECTION_INTERVAL has passed since it last ran, and then records
    now as the time it last ran; during a zoom session that has not reached
    its end time, over a box of positive width and height, it does not run
    the detection at all. *)
Theorem X6_detection_runs_are_an_interval_apart
    (known_faces_db : list face_utils.known_face) (r : main.reading) (st : main.state) :
  (main.last_detection_run_time (main.iteration known_faces_db r st).1.1
     = main.last_detection_run_time st ∨
   (main.last_detection_run_time (main.iteration known_faces_db r st).1.1 = main.time_time r ∧
    (main.DETECTION_INTERVAL_SECONDS
     < main.time_time r - main.last_detection_run_time st)%Q)) ∧
  (∀ b, main.zoom_active st = true →
        (main.time_time r < main.zoom_return_time st)%Q →
        main.current_processing_bbox_for_zoom st = Some b → ¬ degenerate b →
        main.last_detection_run_time (main.iteration known_faces_db r st).1.1
          = main.last_detection_run_time st ∧
        main.zoom_active (main.iteration known_faces_db r st).1.1 = true).
Proof.
  unfold main.iteration.
  destruct (main.cap_read r) as [frame|]; [|split; [by left|by intros]].
  destruct (zoom_logic_returns frame (main.time_time r) st frame) as ([[st1 d1] sp] & Hzoom).
  rewrite Hzoom.
  destruct (zoom_logic_keeps _ _ _ _ _ _ _ Hzoom) as (_ & Hlast1 & _).
  pose proof (handle_key_fields (Z.land (main.waitKey r) 255)) as Hkey.
  split.
  - destruct (main.detection_logic known_faces_db frame r st1 d1) as [[st2 d2]|e] eqn:Hdet;
      [|by left].
    destruct (Hkey st2) as (_ & _ & _ & Hk & _).
    destruct (main.handle_key _ st2) as [st3 c3]. cbn [fst] in *. rewrite Hk.
    destruct (detection_logic_cases _ _ _ _ _ _ _ Hdet)
      as [(_ & -> & _)|(_ & Hdue & Hnow & _)]; [by left|].
    right. split; [done|]. by rewrite <- Hlast1.
  - intros b Hactive Hbefore Hb Hproper.
    assert (st1 = st) as ->.
    { revert Hzoom. unfold main.zoom_logic. rewrite Hactive, Hb.
      apply Qgeb_false in Hbefore. rewrite Hbefore.
      destruct (get_zoomed_region_in_loop frame b) as (z & -> & Hz).
      destruct z as [zoomed|]; [|by destruct Hproper; apply Hz].
      cbn [mbind result_bind]. by intros [= <- _ _]. }
    unfold main.detection_logic. rewrite Hactive. cbn [negb andb].
    destruct (Hkey st) as (Hk_active & _ & _ & Hk & _).
    destruct (main.handle_key _ st) as [st3 c3]. cbn [fst] in *.
    split; congruence.
Qed.

(** X7. A pass of the recognition loop raises nothing but the ValueError
    of [compare_embeddings]: when an exception leaves a pass, it is a
    ValueError, a detected face carries an embedding, and the store holds
    an embedding of another length. *)
Theorem X7_a_pass_raises_only_on_mismatched_lengths
    (known_faces_db : list face_utils.known_face) (r : main.reading) (st : main.state)
    (e : exn) :
  (main.iteration known_faces_db r st).2 = Propagated e →
  e = ValueError ∧
  ∃ face_obj emb f,
    face_obj ∈ main.model_get r (main.USE_LOW_LIGHT_ENHANCEMENT st) ∧
    face_utils.normed_embedding face_obj = Some emb ∧
    f ∈ known_faces_db ∧ length (face_utils.embedding f) ≠ length emb.
Proof.
  unfold main.iteration.
  destruct (main.cap_read r) as [frame|]; [|done].
  destruct (zoom_logic_returns frame (main.time_time r) st frame) as ([[st1 d1] sp] & Hzoom).
  rewrite Hzoom.
  destruct (zoom_logic_keeps _ _ _ _ _ _ _ Hzoom) as (Hflag & _ & _).
  destruct (main.detection_logic known_faces_db frame r st1 d1) as [[st2 d2]|e'] eqn:Hdet.
  - unfold main.handle_key. destruct (_ =? 113)%Z; [done|]. by destruct (_ =? 108)%Z.
  - cbn [snd]. intros [= <-].
    revert Hdet. unfold main.detection_logic. destruct (_ && _); [|done].
    destruct (main.process_frame _ _ _ _) as [[rn fb]|e''] eqn:Hframe.
    + cbn [mbind result_bind].
      destruct fb as [b|]; [|done]. destruct (truthy rn); [|done].
      destruct (get_zoomed_region_in_loop frame b) as (z & -> & _). done.
    + cbn [mbind result_bind]. intros [= ->].
      rewrite Hflag in Hframe. by eapply process_frame_Raise.
Qed.
End PassFacts.

Lemma X1_greeting_witness :
  ∃ n, main.spoken
         (@main.iteration cv2_model [alice; bob] (reading_at 3 [] (-1))
            (@main.main_loop cv2_model [alice; bob] run_alice main.initial).1.1).1.2
       = [main.greeting_text n] ∧
       main.name_to_greet_after_zoom
         (@main.main_loop cv2_model [alice; bob] run_alice main.initial).1.1 = Some n ∧
       main.last_greeted_time
         (@main.iteration cv2_model [alice; bob] (reading_at 3 [] (-1))
            (@main.main_loop cv2_model [alice; bob] run_alice main.initial).1.1).1.1 !! n
       = Some 3%Q ∧
       ∀ s, main.last_greeted_time
              (@main.main_loop cv2_model [alice; bob] run_alice main.initial).1.1 !! n = Some s →
            (main.GREETING_COOLDOWN_SECONDS + main.ZOOM_DURATION_SECONDS < 3 - s)%Q.
Proof.
  destruct (@X1_no_second_greeting_within_cooldown cv2_model [alice; bob] run_alice
              (reading_at 3 [] (-1)) _ _ _ eq_refl) as [Hnil|Hgreet].
  - discriminate Hnil.
  - exact Hgreet.
Defined.

Lemma X5_display_witness :
  ∃ display_frame,
    shown (@main.iteration cv2_model [alice; bob] (reading_at 1 [face_alice] (-1))
             main.initial).1.2 = [display_frame] ∧
    last (@main.iteration cv2_model [alice; bob] (reading_at 1 [face_alice] (-1))
            main.initial).1.2 = Some (main.Imshow display_frame) ∧
    width display_frame = 100%N ∧ height display_frame = 100%N.
Proof.
  exact (@X5_one_image_of_frame_size_per_pass cv2_model [alice; bob]
           (reading_at 1 [face_alice] (-1)) main.initial _ _ Continue
           resize_nearest_contract eq_refl).
Defined.

Lemma X7_mismatch_witness :
  ValueError = ValueError ∧
  ∃ face_obj emb f,
    face_obj ∈ [face_alice] ∧ face_utils.normed_embedding face_obj = Some emb ∧
    f ∈ [alice; carol_short] ∧ length (face_utils.embedding f) ≠ length emb.
Proof.
  exact (@X7_a_pass_raises_only_on_mismatched_lengths cv2_model [alice; carol_short]
           (reading_at 1 [face_alice] (-1)) main.initial ValueError eq_refl).
Defined.

(** ** Further properties of the enrollment flows *)

Lemma largest_loop_cons (a : face_utils.Face) (rest : list face_utils.Face)
    (largest : Q) (target : option face_utils.Face) :
  enroll_from_image.largest_loop (a :: rest) largest target
  = if Qgtb (area a) largest
    then enroll_from_image.largest_loop rest (area a) (Some a)
    else enroll_from_image.largest_loop rest largest target.
Proof.
  cbn [enroll_from_image.largest_loop]. unfold area.
  by destruct (face_utils.bbox a) as [[[x1 y1] x2] y2].
Qed.

Lemma largest_loop_inv (rest seen : list face_utils.Face)
    (target : option face_utils.Face) (largest : Q) :
  largest_inv seen target largest →
  ∃ largest',
    largest_inv (seen ++ rest) (enroll_from_image.largest_loop rest largest target) largest'.
Proof.
  revert seen target largest.
  induction rest as [|a rest IH]; intros seen target largest Hinv.
  - rewrite app_nil_r. by exists largest.
  - replace (seen ++ a :: rest) with ((seen ++ [a]) ++ rest) by (by rewrite <- app_assoc).
    rewrite largest_loop_cons.
    destruct (Qgtb (area a) largest) eqn:Hgt.
    + apply Qgtb_true in Hgt. apply IH. right. exists (length seen), a.
      destruct Hinv as [(-> & -> & Hnone)|(i & f & Harg & Hpos & -> & ->)].
      * split; [|split; [lra|done]]. apply first_argmax_snoc_above.
        intros y Hy. specialize (Hnone y Hy). lra.
      * split; [by eapply first_argmax_snoc_new|]. split; [lra|done].
    + apply Qgtb_false in Hgt. apply IH.
      destruct Hinv as [(-> & -> & Hnone)|(i & f & Harg & Hpos & -> & ->)].
      * left. split; [done|]. split; [done|].
        intros y Hy. apply elem_of_app in Hy as [Hy|Hy]; [by apply Hnone|].
        by apply list_elem_of_singleton in Hy as ->.
      * right. exists i, f. split; [by apply first_argmax_snoc_keep|done].
Qed.

(** X8. The still-image enrollment selects no face from an empty
    detection list and the only face from a list of one, whatever its box;
    from two or more detections it selects the first one whose box area is
    the largest, provided that area is positive, and no face at all when no
    box has a positive area. *)
Theorem X8_select_target_first_largest (detected_faces : list face_utils.Face) :
  (detected_faces = [] → enroll_from_image.select_target detected_faces = None) ∧
  (∀ face_obj, detected_faces = [face_obj] →
     enroll_from_image.select_target detected_faces = Some face_obj) ∧
  ((2 <= length detected_faces)%nat →
   (enroll_from_image.select_target detected_faces = None ∧
    ∀ f, f ∈ detected_faces → (area f <= 0)%Q) ∨
   (∃ i f, first_argmax area detected_faces i f ∧ (0 < area f)%Q ∧
           enroll_from_image.select_target detected_faces = Some f)).
Proof.
  split; [by intros ->|]. split; [by intros f ->|].
  intros Hlen. destruct detected_faces as [|a [|b rest]]; [simpl in Hlen; lia..|].
  destruct (largest_loop_inv (a :: b :: rest) [] None 0) as (largest & Hinv).
  { left. split; [done|]. split; [done|]. intros f Hf. by apply elem_of_nil in Hf. }
  simpl app in Hinv.
  change (enroll_from_image.select_target (a :: b :: rest))
    with (enroll_from_image.largest_loop (a :: b :: rest) 0 None).
  destruct Hinv as [(-> & _ & Hnone)|(i & f & Harg & Hpos & -> & _)]; [by left|].
  right. by exists i, f.
Qed.

Lemma filter_absent (db : list face_utils.known_face) (n : string) :
  n ∉ face_utils.name <$> db → filter (λ f, face_utils.name f ≠ n) db = db.
Proof.
  induction db as [|a db IH]; [done|]. rewrite fmap_cons, not_elem_of_cons.
  intros [Hne Hn]. rewrite filter_cons.
  destruct (decide (face_utils.name a ≠ n)) as [_|Heq]; [by rewrite IH|].
  destruct Heq. congruence.
Qed.

Section EnrollFacts.
Context `{Numpy}.

(** X9. The still-image enrollment is all or nothing in what it does: a
    call that does not return True leaves the file as it was, hands nothing
    to [save_known_faces] and speaks nothing; a call that returns True found
    a target face with an embedding and a non-empty trimmed name, handed to
    [save_known_faces] the loaded store with every record under that name
    removed and the new record appended, and announced the enrollment; it
    returns True and announces whether or not the write succeeded. *)
Theorem X9_enroll_from_image_all_or_nothing
    (env : enroll_from_image.surroundings) (person_name : string) :
  let eff := enroll_from_image.enroll_from_image env person_name in
  let n := py_strip person_name in
  (enroll_from_image.ended eff ≠ enroll_from_image.Returned true ∧
   enroll_from_image.file_after eff = enroll_from_image.file env ∧
   enroll_from_image.saved eff = None ∧ enroll_from_image.spoken eff = []) ∨
  (∃ target emb db,
     enroll_from_image.ended eff = enroll_from_image.Returned true ∧
     enroll_from_image.select_target (enroll_from_image.model_get env) = Some target ∧
     face_utils.normed_embedding target = Some emb ∧
     (face_utils.load_known_faces (enroll_from_image.file env)).2 = Ret db ∧
     n ≠ "" ∧
     enroll_from_image.saved eff = Some (replaced db n emb) ∧
     enroll_from_image.file_after eff
     = match enroll_from_image.fault env with
       | face_utils.NoFault => face_utils.Pickled (face_utils.pickle_of (replaced db n emb))
       | face_utils.OpenFails _ => enroll_from_image.file env
       | face_utils.DumpFails _ => face_utils.Partial
       end ∧
     enroll_from_image.spoken eff = [n +:+ " has been enrolled from image."]).
Proof.
  intros eff n. subst eff n. unfold enroll_from_image.enroll_from_image.
  destruct (negb _); [by left|]. destruct (negb _); [by left|].
  destruct (enroll_from_image.imread env); [|by left].
  destruct (enroll_from_image.select_target _) as [target|]; [|by left].
  destruct (face_utils.normed_embedding target) as [emb|] eqn:Hemb; [|by left].
  destruct (face_utils.load_known_faces _).2 as [db|e] eqn:Hload; [|by left].
  case_bool_decide as Hempty; [by left|].
  case_bool_decide as Hknown.
  - destruct (enroll_from_image.overwrite_input env) as [line| |]; [|by left..].
    case_bool_decide; [by left|]. right. exists target, emb, db.
    unfold enroll_from_image.append_and_save, face_utils.save_known_faces,
      face_utils.save_body, replaced, record_of. cbn.
    destruct (enroll_from_image.fault env); by repeat split.
  - right. exists target, emb, db.
    unfold enroll_from_image.append_and_save, face_utils.save_known_faces,
      face_utils.save_body, replaced, record_of. cbn.
    rewrite filter_absent
      by (intros Hin; apply Hknown; by apply elem_of_list_to_set).
    destruct (enroll_from_image.fault env); by repeat split.
Qed.
End EnrollFacts.

(** The names the live enrollment consults are those of its store. *)
Lemma append_and_save_effect (r : face_enroll.reading) (st : face_enroll.state)
    (db0 : list face_utils.known_face) (n : string) (emb : list Q) :
  replaced (face_enroll.known_faces_db st) n emb = db0 ++ [record_of n emb] →
  let out := face_enroll.append_and_save r st db0 n emb in
  face_enroll.known_faces_db out.1.1 = replaced (face_enroll.known_faces_db st) n emb ∧
  face_enroll.enrolled_names out.1.1 = {[n]} ∪ face_enroll.enrolled_names st ∧
  face_enroll.file out.1.1
  = match face_enroll.fault r with
    | face_utils.NoFault =>
        face_utils.Pickled (face_utils.pickle_of (replaced (face_enroll.known_faces_db st) n emb))
    | face_utils.OpenFails _ => face_enroll.file st
    | face_utils.DumpFails _ => face_utils.Partial
    end ∧
  face_enroll.last_capture_attempt_time out.1.1 = face_enroll.last_capture_attempt_time st ∧
  out.1.2 = [n +:+ " has been enrolled."] ∧ out.2 = Continue.
Proof.
  intros Hdb0 out. subst out. unfold face_enroll.append_and_save. cbn. rewrite Hdb0.
  split; [done|]. split; [done|]. split; [|done].
  unfold face_utils.save_known_faces, face_utils.save_body.
  by destruct (face_enroll.fault r).
Qed.

(** A pass that leaves the store as it was and announces nothing. *)
Ltac untouched :=
  left; split; [repeat split; simpl; congruence | reflexivity].

(** The two ways through a pass of the live enrollment. *)
Lemma live_pass_cases
    (r : face_enroll.reading) (st : face_enroll.state) :
  (∀ f, f ∈ face_enroll.known_faces_db st →
        face_utils.name f ∈ face_enroll.enrolled_names st) →
  let out := face_enroll.iteration r st in
  (same_store st out.1.1 ∧ out.1.2 = []) ∨
  (∃ live_frame target emb line,
     let n := py_strip line in
     face_enroll.cap_read r = Some live_frame ∧
     Z.land (face_enroll.waitKey r) 255 = face_enroll.CAPTURE_KEY ∧
     (face_enroll.CAPTURE_COOLDOWN
      <= face_enroll.capture_press_time r - face_enroll.last_capture_attempt_time st)%Q ∧
     face_utils.get_center_most_face (face_enroll.model_get_frozen r)
       (Z.of_N (width live_frame)) (Z.of_N (height live_frame)) = Some target ∧
     face_utils.normed_embedding target = Some emb ∧ emb ≠ [] ∧
     face_enroll.name_input r = Typed line ∧ n ≠ "" ∧ py_lower n ≠ "cancel" ∧
     face_enroll.known_faces_db out.1.1 = replaced (face_enroll.known_faces_db st) n emb ∧
     face_enroll.enrolled_names out.1.1 = {[n]} ∪ face_enroll.enrolled_names st ∧
     face_enroll.file out.1.1
     = match face_enroll.fault r with
       | face_utils.NoFault =>
           face_utils.Pickled
             (face_utils.pickle_of (replaced (face_enroll.known_faces_db st) n emb))
       | face_utils.OpenFails _ => face_enroll.file st
       | face_utils.DumpFails _ => face_utils.Partial
       end ∧
     face_enroll.last_capture_attempt_time out.1.1 = face_enroll.capture_press_time r ∧
     out.1.2 = [n +:+ " has been enrolled."] ∧ out.2 = Continue).
Proof.
  intros Hnames out. subst out. unfold face_enroll.iteration.
  destruct (face_enroll.cap_read r) as [live_frame|]; [|by left].
  set (st1 := if Qgtb _ _ then _ else st).
  assert (same_store st st1 ∧
          face_enroll.last_capture_attempt_time st1 = face_enroll.last_capture_attempt_time st)
    as [(Hdb & Hen & Hfile) Hlast] by (subst st1; by destruct (Qgtb _ _)).
  clearbody st1.
  destruct (_ =? face_enroll.CAPTURE_KEY)%Z eqn:Hkey;
    [|destruct (_ =? face_enroll.QUIT_KEY)%Z; untouched].
  apply Z.eqb_eq in Hkey.
  unfold face_enroll.on_capture.
  destruct (Qltb _ _) eqn:Hcool; [untouched|].
  apply Qltb_false in Hcool. rewrite Hlast in Hcool.
  cbn [face_enroll.target_face_obj_for_preview].
  set (st2 := face_enroll.Build_state _ _ _ _ _ _).
  assert (same_store st st2 ∧
          face_enroll.last_capture_attempt_time st2 = face_enroll.capture_press_time r)
    as [(Hdb2 & Hen2 & Hfile2) Hlast2] by (subst st2; by repeat split).
  clearbody st2.
  destruct (face_enroll.target_face_obj_for_preview st1); [|untouched].
  destruct (face_enroll.model_get_frozen r) as [|f0 fs] eqn:Hfrozen; [untouched|].
  destruct (face_utils.get_center_most_face _ _ _) as [target|] eqn:Hsel;
    [|untouched].
  destruct (face_utils.normed_embedding target) as [[|x emb]|] eqn:Hemb;
    [untouched| |untouched].
  unfold face_enroll.prompt_and_enroll.
  destruct (face_enroll.name_input r) as [line| |] eqn:Hline; [|untouched..].
  case_bool_decide as Hcancel; [untouched|].
  case_bool_decide as Hempty; [untouched|]. cbn [orb].
  assert (∀ db0,
            replaced (face_enroll.known_faces_db st2) (py_strip line) (x :: emb)
            = db0 ++ [record_of (py_strip line) (x :: emb)] →
            let out := face_enroll.append_and_save r st2 db0 (py_strip line) (x :: emb) in
            face_enroll.known_faces_db out.1.1
            = replaced (face_enroll.known_faces_db st) (py_strip line) (x :: emb) ∧
            face_enroll.enrolled_names out.1.1
            = {[py_strip line]} ∪ face_enroll.enrolled_names st ∧
            face_enroll.file out.1.1
            = match face_enroll.fault r with
              | face_utils.NoFault =>
                  face_utils.Pickled
                    (face_utils.pickle_of
                       (replaced (face_enroll.known_faces_db st) (py_strip line) (x :: emb)))
              | face_utils.OpenFails _ => face_enroll.file st
              | face_utils.DumpFails _ => face_utils.Partial
              end ∧
            face_enroll.last_capture_attempt_time out.1.1 = face_enroll.capture_press_time r ∧
            out.1.2 = [py_strip line +:+ " has been enrolled."] ∧ out.2 = Continue)
    as Hsave.
  { intros db0 Hdb0 out.
    destruct (append_and_save_effect r st2 db0 _ _ Hdb0) as (E1 & E2 & E3 & E4 & E5 & E6).
    fold out in E1, E2, E3, E4, E5, E6.
    rewrite E1, E2, E3, E4, E5, E6, Hdb2, Hen2, Hfile2, Hlast2. by repeat split. }
  case_bool_decide as Hknown.
  - destruct (face_enroll.overwrite_input r) as [answer| |]; [|untouched..].
    case_bool_decide; [untouched|].
    right. exists live_frame, target, (x :: emb), line.
    do 9 (split; [done|]). by apply Hsave.
  - right. exists live_frame, target, (x :: emb), line.
    do 9 (split; [done|]). apply Hsave.
    unfold replaced. rewrite filter_absent; [done|].
    intros Hin. apply list_elem_of_fmap in Hin as (g & Hg & Hgdb).
    apply Hknown. rewrite Hen2, Hg. apply Hnames. by rewrite <- Hdb2.
Qed.

(** X10. A pass of the live enrollment, over a store whose names are all
    in [enrolled_names], either leaves the store (list, names and file)
    untouched and announces nothing, or performs exactly one enrollment:
    the capture key was pressed with the capture cooldown elapsed, the
    frozen frame's centre-most face has a non-empty embedding, the typed
    name is, once trimmed, non-empty and not "cancel"; the store becomes
    the old one with every record under that name removed and the new
    record appended, the name joins [enrolled_names], the enrollment is
    announced and the loop continues, whether or not the write
    succeeded. *)
Theorem X10_live_pass_enrolls_at_most_once
    (r : face_enroll.reading) (st : face_enroll.state) :
  (∀ f, f ∈ face_enroll.known_faces_db st →
        face_utils.name f ∈ face_enroll.enrolled_names st) →
  let out := face_enroll.iteration r st in
  (same_store st out.1.1 ∧ out.1.2 = []) ∨
  (∃ live_frame target emb line,
     let n := py_strip line in
     face_enroll.cap_read r = Some live_frame ∧
     Z.land (face_enroll.waitKey r) 255 = face_enroll.CAPTURE_KEY ∧
     (face_enroll.CAPTURE_COOLDOWN
      <= face_enroll.capture_press_time r - face_enroll.last_capture_attempt_time st)%Q ∧
     face_utils.get_center_most_face (face_enroll.model_get_frozen r)
       (Z.of_N (width live_frame)) (Z.of_N (height live_frame)) = Some target ∧
     face_utils.normed_embedding target = Some emb ∧ emb ≠ [] ∧
     face_enroll.name_input r = Typed line ∧ n ≠ "" ∧ py_lower n ≠ "cancel" ∧
     face_enroll.known_faces_db out.1.1 = replaced (face_enroll.known_faces_db st) n emb ∧
     face_enroll.enrolled_names out.1.1 = {[n]} ∪ face_enroll.enrolled_names st ∧
     face_enroll.file out.1.1
     = match face_enroll.fault r with
       | face_utils.NoFault =>
           face_utils.Pickled
             (face_utils.pickle_of (replaced (face_enroll.known_faces_db st) n emb))
       | face_utils.OpenFails _ => face_enroll.file st
       | face_utils.DumpFails _ => face_utils.Partial
       end ∧
     face_enroll.last_capture_attempt_time out.1.1 = face_enroll.capture_press_time r ∧
     out.1.2 = [n +:+ " has been enrolled."] ∧ out.2 = Continue).
Proof. apply live_pass_cases. Qed.

Lemma X10_live_pass_witness :
  ∃ live_frame target emb line,
    face_enroll.cap_read (capture_at 10 (Typed " Alice ")) = Some live_frame ∧
    face_utils.get_center_most_face [face_alice]
      (Z.of_N (width live_frame)) (Z.of_N (height live_frame)) = Some target ∧
    face_utils.normed_embedding target = Some emb ∧
    face_enroll.name_input (capture_at 10 (Typed " Alice ")) = Typed line ∧
    face_enroll.known_faces_db
      (face_enroll.iteration (capture_at 10 (Typed " Alice ")) enroll_start).1.1
    = replaced [] (py_strip line) emb ∧
    (face_enroll.iteration (capture_at 10 (Typed " Alice ")) enroll_start).1.2
    = [py_strip line +:+ " has been enrolled."].
Proof.
  destruct (X10_live_pass_enrolls_at_most_once (capture_at 10 (Typed " Alice ")) enroll_start)
    as [[_ Hnone]|(live_frame & target & emb & line & H1 & _ & _ & H4 & H5 & _ & H7 & _ & _
                   & H10 & _ & _ & _ & H14 & _)].
  - intros f Hf. by apply elem_of_nil in Hf.
  - discriminate Hnone.
  - by exists live_frame, target, emb, line.
Defined.

Lemma names_of_replaced (db : list face_utils.known_face) (n : string) (e : list Q) :
  list_to_set (face_utils.name <$> replaced db n e)
  = ({[n]} ∪ list_to_set (face_utils.name <$> db) : gset string).
Proof.
  apply set_eq. intros x. unfold replaced.
  rewrite fmap_app, list_to_set_app, !elem_of_union, !elem_of_list_to_set.
  cbn [fmap list_fmap record_of face_utils.name]. rewrite elem_of_singleton.
  rewrite list_elem_of_singleton. split.
  - intros [Hx| ->]; [|by left]. right.
    apply names_of_filter in Hx as (g & -> & _ & Hg). by apply list_elem_of_fmap_2.
  - intros [->|Hx]; [by right|].
    destruct (decide (x = n)) as [->|Hne]; [by right|]. left.
    apply list_elem_of_fmap in Hx as (g & -> & Hg).
    apply list_elem_of_fmap_2, list_elem_of_filter. done.
Qed.

Lemma live_pass_names (r : face_enroll.reading) (st : face_enroll.state) :
  names_inv st → names_inv (face_enroll.iteration r st).1.1.
Proof.
  unfold names_inv. intros Hinv.
  destruct (live_pass_cases r st) as [[(Hdb & Hen & _) _]|Henrolled].
  - intros g Hg. rewrite Hinv. by apply elem_of_list_to_set, list_elem_of_fmap_2.
  - by rewrite Hdb, Hen.
  - destruct Henrolled as (live_frame & target & emb & line & _ & _ & _ & _ & _ & _ & _ & _ & _
                           & Hdb & Hen & _).
    rewrite Hdb, Hen, names_of_replaced. by rewrite Hinv.
Qed.

Lemma live_pass_aligned (r : face_enroll.reading) (st0 st : face_enroll.state) :
  names_inv st → face_enroll.fault r = face_utils.NoFault →
  aligned st0 st → aligned st0 (face_enroll.iteration r st).1.1.
Proof.
  unfold names_inv, aligned. intros Hinv Hfault Hal.
  destruct (live_pass_cases r st) as [[(Hdb & Hen & Hfile) _]|Henrolled].
  - intros g Hg. rewrite Hinv. by apply elem_of_list_to_set, list_elem_of_fmap_2.
  - destruct Hal as [(Hdb0 & Hen0 & Hfile0)|Hal]; [left|right]; [|congruence].
    repeat split; congruence.
  - destruct Henrolled as (live_frame & target & emb & line & _ & _ & _ & _ & _ & _ & _ & _ & _
                           & Hdb & _ & Hfile & _).
    right. rewrite Hfile, Hfault, Hdb. done.
Qed.

Section LiveRun.
Context `{Numpy}.

Lemma start_names (f : face_utils.db_file) (st0 : face_enroll.state) :
  face_enroll.start f = Ret st0 → names_inv st0.
Proof.
  unfold face_enroll.start. destruct (face_utils.load_known_faces f).2; [|done].
  cbn [mbind result_bind]. by intros [= <-].
Qed.

Lemma live_run_inv (readings : list face_enroll.reading) (st0 st : face_enroll.state) :
  names_inv st →
  names_inv (face_enroll.enroll_face_loop readings st).1.1 ∧
  (Forall (λ r, face_enroll.fault r = face_utils.NoFault) readings →
   aligned st0 st → aligned st0 (face_enroll.enroll_face_loop readings st).1.1).
Proof.
  revert st. induction readings as [|r readings IH]; intros st Hinv; [done|].
  cbn [face_enroll.enroll_face_loop].
  pose proof (live_pass_names r st Hinv) as Hinv1.
  pose proof (live_pass_aligned r st0 st Hinv) as Hal1.
  destruct (face_enroll.iteration r st) as [[st1 said1] c1]. cbn [fst snd] in *.
  assert (Forall (λ r, face_enroll.fault r = face_utils.NoFault) (r :: readings) →
          aligned st0 st → aligned st0 st1) as Hstep.
  { intros Hfaults Hal. apply Forall_cons in Hfaults as [Hr _]. by apply Hal1. }
  destruct c1; [|done..].
  destruct (IH st1 Hinv1) as [Hinv2 Hal2].
  destruct (face_enroll.enroll_face_loop readings st1) as [[st2 said2] c2].
  cbn [fst snd] in *. split; [done|].
  intros Hfaults Hal. apply Hal2; [|by apply Hstep].
  by apply Forall_cons in Hfaults as [_ ?].
Qed.

(** X11. Throughout the live enrollment, from the state [enroll_face]
    starts in and over any passes, the set of names consulted for the
    overwrite prompt is exactly the set of names of the records in the
    store. *)
Theorem X11_enrolled_names_are_the_names_of_the_store
    (f : face_utils.db_file) (st0 : face_enroll.state)
    (readings : list face_enroll.reading) :
  face_enroll.start f = Ret st0 →
  names_inv (face_enroll.enroll_face_loop readings st0).1.1.
Proof.
  intros Hstart. apply (live_run_inv readings st0 st0). by eapply start_names.
Qed.

(** X12. Over passes none of whose writes fails, the live enrollment
    keeps the file and the store in memory aligned: either no enrollment
    has happened since the start and list, names and file are as they
    were, or the file holds the pickle of the store in memory, so that
    (numpy converting an array to itself) loading it again returns that
    store. *)
Theorem X12_fault_free_run_keeps_file_and_store_aligned
    (f : face_utils.db_file) (st0 : face_enroll.state)
    (readings : list face_enroll.reading) :
  (∀ a, np_array_f32 (PyArray a) = Ret a) →
  face_enroll.start f = Ret st0 →
  Forall (λ r, face_enroll.fault r = face_utils.NoFault) readings →
  let st := (face_enroll.enroll_face_loop readings st0).1.1 in
  same_store st0 st ∨
  (face_enroll.file st
   = face_utils.Pickled (face_utils.pickle_of (face_enroll.known_faces_db st)) ∧
   (face_utils.load_known_faces (face_enroll.file st)).2
   = Ret (face_enroll.known_faces_db st)).
Proof.
  intros Hnp Hstart Hfaults st.
  destruct (live_run_inv readings st0 st0 (start_names _ _ Hstart)) as [_ Hal].
  destruct (Hal Hfaults) as [Hsame|Hfile]; [by left|by left|].
  right. fold st in Hfile. split; [done|]. rewrite Hfile. by apply load_pickle_of.
Qed.
End LiveRun.

Lemma X11_names_witness :
  names_inv (face_enroll.enroll_face_loop [capture_at 10 (Typed " Alice ")] enroll_start).1.1.
Proof.
  apply (@X11_enrolled_names_are_the_names_of_the_store numpy_model face_utils.Missing).
  reflexivity.
Defined.

Lemma X12_aligned_witness :
  same_store enroll_start
    (face_enroll.enroll_face_loop [capture_at 10 (Typed " Alice ")] enroll_start).1.1 ∨
  (face_enroll.file
     (face_enroll.enroll_face_loop [capture_at 10 (Typed " Alice ")] enroll_start).1.1
   = face_utils.Pickled
       (face_utils.pickle_of
          (face_enroll.known_faces_db
             (face_enroll.enroll_face_loop [capture_at 10 (Typed " Alice ")] enroll_start).1.1)) ∧
   (@face_utils.load_known_faces numpy_model
      (face_enroll.file
         (face_enroll.enroll_face_loop [capture_at 10 (Typed " Alice ")] enroll_start).1.1)).2
   = Ret (face_enroll.known_faces_db
            (face_enroll.enroll_face_loop [capture_at 10 (Typed " Alice ")] enroll_start).1.1)).
Proof.
  apply (@X12_fault_free_run_keeps_file_and_store_aligned numpy_model face_utils.Missing).
  - done.
  - reflexivity.
  - by apply Forall_cons_2; [|apply Forall_nil_2].
Defined.

(** ** Further properties: speech, crop, camera *)

Lemma speak_task_step (rq : tts.request) (g g' : tts.gate) (v : tts.verdict) :
  (0 <= tts.say_duration rq)%Q → gate_inv g →
  tts._speak_task rq g = (v, g') →
  gate_inv g' ∧
  (tts.lock_free_at g <= tts.lock_free_at g')%Q ∧
  (tts.last_tts_call_time g <= tts.last_tts_call_time g')%Q ∧
  ∀ s, started v = Some s →
    (tts.lock_free_at g <= s)%Q ∧ (tts.called_at rq <= s)%Q ∧
    (tts.last_tts_call_time g + tts.TTS_MIN_INTERVAL <= s)%Q ∧
    tts.lock_free_at g' = (s + tts.say_duration rq)%Q ∧
    (v = tts.Invoked s → tts.last_tts_call_time g' = (s + tts.say_duration rq)%Q).
Proof.
  unfold gate_inv, tts._speak_task. intros Hdur Hinv.
  pose proof (Q.le_max_l (tts.called_at rq) (tts.lock_free_at g)) as Hl.
  pose proof (Q.le_max_r (tts.called_at rq) (tts.lock_free_at g)) as Hr.
  set (now := Qmax (tts.called_at rq) (tts.lock_free_at g)) in *.
  destruct (Qltb _ _) eqn:Hsoon.
  - intros [= <- <-]. cbn. split; [lra|]. split; [lra|]. split; [lra|]. by intros s.
  - apply Qltb_false in Hsoon.
    destruct (tts.say_outcome rq); intros [= <- <-]; cbn;
      (split; [lra|]); (split; [lra|]); (split; [lra|]);
      intros s [= <-]; (split; [lra|]); (split; [lra|]); (split; [lra|]);
      (split; [done|]); by intros [=].
Qed.

Lemma speak_all_later (rqs : list tts.request) (g : tts.gate) (j : nat)
    (v : tts.verdict) (s : Q) :
  Forall (λ rq, (0 <= tts.say_duration rq)%Q) rqs → gate_inv g →
  (tts.speak_all rqs g).1 !! j = Some v → started v = Some s →
  (tts.lock_free_at g <= s)%Q ∧ (tts.last_tts_call_time g + tts.TTS_MIN_INTERVAL <= s)%Q.
Proof.
  intros Hdur. revert g j. induction Hdur as [|rq rqs Hrq _ IH]; intros g j Hinv; [done|].
  cbn [tts.speak_all].
  destruct (tts._speak_task rq g) as [v0 g1] eqn:Hstep.
  destruct (speak_task_step rq g g1 v0 Hrq Hinv Hstep) as (Hinv1 & Hfree & Hlast & Hstart).
  specialize (IH g1). destruct (tts.speak_all rqs g1) as [vs g2]. cbn [fst] in *.
  destruct j as [|j]; simpl.
  - intros [= ->] Hs. destruct (Hstart s Hs) as (? & _ & ? & _). done.
  - intros Hj Hs. destruct (IH j Hinv1 Hj Hs). split; lra.
Qed.

(** X13. Speech never overlaps.  In any sequence of [speak] calls whose
    [say] processes take non-negative time, a [say] that starts after an
    earlier one (finished or failed) starts no sooner than that one ended;
    and when the earlier one succeeded, it starts at least TTS_MIN_INTERVAL
    after its end. *)
Theorem X13_say_never_overlaps
    (rqs : list tts.request) (g : tts.gate) (i j : nat) (rq_i : tts.request)
    (v_i v_j : tts.verdict) (s_i s_j : Q) :
  Forall (λ rq, (0 <= tts.say_duration rq)%Q) rqs → gate_inv g →
  (i < j)%nat → rqs !! i = Some rq_i →
  (tts.speak_all rqs g).1 !! i = Some v_i → started v_i = Some s_i →
  (tts.speak_all rqs g).1 !! j = Some v_j → started v_j = Some s_j →
  (s_i + tts.say_duration rq_i <= s_j)%Q ∧
  (v_i = tts.Invoked s_i →
   (s_i + tts.say_duration rq_i + tts.TTS_MIN_INTERVAL <= s_j)%Q).
Proof.
  intros Hdur. revert g i j.
  induction Hdur as [|rq rqs Hrq Hrest IH]; intros g i j Hinv Hij; [done|].
  cbn [tts.speak_all].
  destruct (tts._speak_task rq g) as [v0 g1] eqn:Hstep.
  destruct (speak_task_step rq g g1 v0 Hrq Hinv Hstep) as (Hinv1 & _ & _ & Hstart).
  specialize (IH g1).
  pose proof (speak_all_later rqs g1) as Hlater.
  destruct (tts.speak_all rqs g1) as [vs g2]. cbn [fst] in *.
  destruct j as [|j]; [lia|]. destruct i as [|i]; simpl.
  - intros [= <-] [= <-] Hsi Hj Hsj.
    destruct (Hstart s_i Hsi) as (_ & _ & _ & Hfree & Hlast).
    destruct (Hlater j v_j s_j Hrest Hinv1 Hj Hsj) as [Hafter Hgap].
    rewrite Hfree in Hafter. split; [done|].
    intros Hok. rewrite (Hlast Hok) in Hgap. done.
  - apply IH; [done|lia].
Qed.

Lemma X13_say_witness :
  (10 + tts.say_duration first_call <= 13)%Q ∧
  (tts.Invoked 10 = tts.Invoked 10 →
   (10 + tts.say_duration first_call + tts.TTS_MIN_INTERVAL <= 13)%Q).
Proof.
  apply (X13_say_never_overlaps [first_call; second_call; third_call] tts.initial
           0 2 first_call (tts.Invoked 10) (tts.Invoked 13) 10 13).
  - repeat apply Forall_cons_2; [simpl; lra..|apply Forall_nil_2].
  - unfold gate_inv. simpl. lra.
  - lia.
  - reflexivity.
  - reflexivity.
  - reflexivity.
  - reflexivity.
  - reflexivity.
Defined.

Lemma py_int_nonneg (q : Q) : (0 <= q)%Q → (0 <= py_int q)%Z.
Proof.
  unfold py_int, Qle. simpl. intros Hq. apply Z.quot_pos; lia.
Qed.

Lemma slice_bound_range (n i : Z) : (0 <= n)%Z → (0 <= slice_bound n i <= n)%Z.
Proof. unfold slice_bound. intros Hn. destruct (i <? 0)%Z eqn:E; lia. Qed.

Lemma slice_bound_inside (n i : Z) : (0 <= i <= n)%Z → slice_bound n i = i.
Proof.
  unfold slice_bound. intros Hi.
  assert ((i <? 0)%Z = false) as -> by (apply Z.ltb_ge; lia). lia.
Qed.

(** X14. The padded crop that [get_zoomed_region] cuts for the zoom is
    never larger than the frame and keeps its channels; and for a box of
    positive width and height that lies inside the frame, with a
    non-negative padding factor, the crop is a window of the frame that
    starts at or before the box's top-left corner and reaches at least to
    its bottom-right corner: the whole box is in the crop. *)
Theorem X14_crop_is_a_window_holding_the_box
    (frame : ndimage) (x1 y1 x2 y2 : Z) (padding_factor : Q) :
  let crop := zoom_utils.cropped_region frame (x1, y1, x2, y2) padding_factor in
  ((height crop <= height frame)%N ∧ (width crop <= width frame)%N ∧
   channels crop = channels frame) ∧
  ((0 <= padding_factor)%Q →
   (0 <= x1 < x2)%Z → (x2 <= Z.of_N (width frame))%Z →
   (0 <= y1 < y2)%Z → (y2 <= Z.of_N (height frame))%Z →
   ∃ left top,
     (0 <= left <= x1)%Z ∧ (0 <= top <= y1)%Z ∧
     (x2 <= left + Z.of_N (width crop))%Z ∧ (y2 <= top + Z.of_N (height crop))%Z ∧
     (left + Z.of_N (width crop) <= Z.of_N (width frame))%Z ∧
     (top + Z.of_N (height crop) <= Z.of_N (height frame))%Z ∧
     ∀ r c k, sample crop r c k = sample frame (top + r)%Z (left + c)%Z k).
Proof.
  intros crop. subst crop. unfold zoom_utils.cropped_region, np_crop.
  set (pad_w := py_int (inject_Z (x2 - x1) * padding_factor)).
  set (pad_h := py_int (inject_Z (y2 - y1) * padding_factor)).
  set (fw := Z.of_N (width frame)). set (fh := Z.of_N (height frame)).
  assert (0 <= fw)%Z as Hfw by (subst fw; lia).
  assert (0 <= fh)%Z as Hfh by (subst fh; lia).
  cbn [height width channels sample]. split.
  - pose proof (slice_bound_range fh (Z.max 0 (y1 - pad_h)) Hfh).
    pose proof (slice_bound_range fh (Z.min fh (y2 + pad_h)) Hfh).
    pose proof (slice_bound_range fw (Z.max 0 (x1 - pad_w)) Hfw).
    pose proof (slice_bound_range fw (Z.min fw (x2 + pad_w)) Hfw).
    split; [subst fh; lia|]. split; [subst fw; lia|done].
  - intros Hp Hx Hx2 Hy Hy2.
    assert (0 <= pad_w)%Z as Hpw.
    { apply py_int_nonneg. apply Qmult_le_0_compat; [|done].
      change 0%Q with (inject_Z 0). rewrite <- Zle_Qle. lia. }
    assert (0 <= pad_h)%Z as Hph.
    { apply py_int_nonneg. apply Qmult_le_0_compat; [|done].
      change 0%Q with (inject_Z 0). rewrite <- Zle_Qle. lia. }
    rewrite (slice_bound_inside fh (Z.max 0 (y1 - pad_h))) by lia.
    rewrite (slice_bound_inside fh (Z.min fh (y2 + pad_h))) by lia.
    rewrite (slice_bound_inside fw (Z.max 0 (x1 - pad_w))) by lia.
    rewrite (slice_bound_inside fw (Z.min fw (x2 + pad_w))) by lia.
    exists (Z.max 0 (x1 - pad_w)), (Z.max 0 (y1 - pad_h)).
    repeat split; lia.
Qed.

Lemma X14_crop_witness :
  ∃ left top,
    (0 <= left <= 40)%Z ∧ (0 <= top <= 40)%Z ∧
    (60 <= left + Z.of_N (width (zoom_utils.cropped_region frame_100 (40, 40, 60, 60)%Z
                                   zoom_utils.padding_factor_default)))%Z ∧
    (60 <= top + Z.of_N (height (zoom_utils.cropped_region frame_100 (40, 40, 60, 60)%Z
                                   zoom_utils.padding_factor_default)))%Z ∧
    (left + Z.of_N (width (zoom_utils.cropped_region frame_100 (40, 40, 60, 60)%Z
                             zoom_utils.padding_factor_default)) <= 100)%Z ∧
    (top + Z.of_N (height (zoom_utils.cropped_region frame_100 (40, 40, 60, 60)%Z
                             zoom_utils.padding_factor_default)) <= 100)%Z ∧
    ∀ r c k,
      sample (zoom_utils.cropped_region frame_100 (40, 40, 60, 60)%Z
                zoom_utils.padding_factor_default) r c k
      = sample frame_100 (top + r)%Z (left + c)%Z k.
Proof.
  destruct (X14_crop_is_a_window_holding_the_box frame_100 40 40 60 60
              zoom_utils.padding_factor_default) as [_ Hbox].
  apply Hbox.
  - unfold zoom_utils.padding_factor_default. lra.
  - lia.
  - simpl. lia.
  - lia.
  - simpl. lia.
Defined.

Lemma handles_open_app (log1 log2 : list camera_utils.cam_event) :
  handles_open (log1 ++ log2) = (handles_open log1 + handles_open log2)%Z.
Proof.
  induction log1 as [|[i|i] log1 IH]; simpl; lia.
Qed.

Lemma probe_spec (VideoCapture : nat → camera_utils.device) (indices available : list nat)
    (log : list camera_utils.cam_event) :
  (camera_utils.probe VideoCapture indices available log).1
  = available ++ filter (λ i, camera_utils.isOpened (VideoCapture i) = true) indices ∧
  handles_open (camera_utils.probe VideoCapture indices available log).2 = handles_open log.
Proof.
  revert available log. induction indices as [|i indices IH]; intros available log.
  - simpl. by rewrite app_nil_r.
  - cbn [camera_utils.probe]. rewrite filter_cons.
    destruct (camera_utils.isOpened (VideoCapture i)) eqn:Hopen.
    + rewrite decide_True by done.
      destruct (IH (available ++ [i])
                  (log ++ [camera_utils.Opened i; camera_utils.Released i])) as [-> ->].
      rewrite handles_open_app, <- app_assoc. split; [done|]. simpl. lia.
    + rewrite decide_False by done. apply IH.
Qed.

(** X15. The camera helpers leave no capture handle behind.
    [list_available_cameras] returns, in ascending order, exactly the
    indices below [max_to_test] that open, and releases every handle it
    opened.  [get_camera] returns a capture exactly when the target index
    opens and delivers at least 640 by 480; it then holds that one handle
    and no other, and when it returns None it holds none: every probe
    handle, and the rejected target handle, has been released. *)
Theorem X15_camera_handles_are_released
    (VideoCapture : nat → camera_utils.device) (target : camera_utils.device)
    (max_to_test : nat) :
  ((camera_utils.list_available_cameras VideoCapture max_to_test).1
   = filter (λ i, camera_utils.isOpened (VideoCapture i) = true) (seq 0 max_to_test) ∧
   handles_open (camera_utils.list_available_cameras VideoCapture max_to_test).2 = 0%Z) ∧
  (is_Some (camera_utils.get_camera VideoCapture target).1 ↔
   camera_utils.isOpened target = true ∧
   (640 <= camera_utils.actual_width target)%Q ∧
   (480 <= camera_utils.actual_height target)%Q) ∧
  handles_open (camera_utils.get_camera VideoCapture target).2
  = (if camera_utils.get_camera VideoCapture target is (Some _, _) then 1 else 0)%Z.
Proof.
  split; [|split].
  - unfold camera_utils.list_available_cameras.
    by destruct (probe_spec VideoCapture (seq 0 max_to_test) [] []) as [-> ->].
  - unfold camera_utils.get_camera.
    destruct (camera_utils.probe _ _ _ _) as [available log].
    destruct (camera_utils.isOpened target).
    + destruct (Qgeb (camera_utils.actual_width target) 640) eqn:Hw;
        destruct (Qgeb (camera_utils.actual_height target) 480) eqn:Hh; cbn [andb fst];
        try apply Qgeb_true in Hw; try apply Qgeb_true in Hh;
        try apply Qgeb_false in Hw; try apply Qgeb_false in Hh.
      * split; [done|]. intros _. by eexists.
      * split; [by intros [? [=]]|]. intros (_ & _ & ?). lra.
      * split; [by intros [? [=]]|]. intros (_ & ? & _). lra.
      * split; [by intros [? [=]]|]. intros (_ & ? & _). lra.
    + cbn [fst]. split; [by intros [? [=]]|]. by intros [[=] _].
  - unfold camera_utils.get_camera.
    destruct (probe_spec VideoCapture (seq 0 3) [] []) as [_ Hlog].
    destruct (camera_utils.probe _ _ _ _) as [available log]. cbn [snd] in Hlog.
    destruct (camera_utils.isOpened target); [|done].
    destruct (_ && _); cbn [snd]; rewrite handles_open_app, Hlog; simpl; lia.
Qed.
